(** * A shallow embedding of the LR runtime (token.ts, tree.ts, state.ts)

    The development follows the TypeScript sources function by function:
    the parse states of state.ts, the input stream and the tokenizer
    interpreter of token.ts, and the tree classes, contexts and tag maps
    of the tree module.
    JavaScript numbers that the code only uses as integers are modelled
    as [Z]; a value that may be [undefined] or [NaN] (an array read out
    of range, [charCodeAt] past the end of a string) is an [option Z]
    whose [None] makes every comparison false, as in JavaScript.  Strings
    are lists of UTF-16 code units. *)

From Stdlib Require Import ZArith List Lia Bool.
From stdpp Require Import base option list gmap strings.
From Equations Require Import Equations.

#[local] Open Scope Z_scope.
#[local] Set Warnings "-register-all".

(** ** JavaScript values *)

Module Js.

(** [a[i]] on an array: [undefined] outside [0 .. a.length). *)
Definition index {A} (a : list A) (i : Z) : option A :=
  if i <? 0 then None else a !! Z.to_nat i.

(** [a[i]] where the index itself may be [undefined] or [NaN]. *)
Definition index_opt {A} (a : list A) (i : option Z) : option A :=
  match i with Some i => index a i | None => None end.

Definition len {A} (a : list A) : Z := Z.of_nat (length a).

(** Arithmetic and comparisons on numbers that may be [NaN]. *)
Definition add (a b : option Z) : option Z :=
  match a, b with Some x, Some y => Some (x + y) | _, _ => None end.

Definition lt (a b : option Z) : bool :=
  match a, b with Some x, Some y => x <? y | _, _ => false end.

Definition ge (a b : option Z) : bool :=
  match a, b with Some x, Some y => y <=? x | _, _ => false end.

Definition gt (a b : option Z) : bool := lt b a.

(** [ToInt32]: the low 32 bits of a number, read as a signed number. *)
Definition to_int32 (x : Z) : Z := (x + 2 ^ 31) mod 2 ^ 32 - 2 ^ 31.

(** [a & b], [a >> n] and [a << n]: the operands are taken to 32 bits
    and the shift count modulo 32; the result is a signed 32-bit
    number. *)
Definition band (a b : Z) : Z := Z.land (to_int32 a) (to_int32 b).

Definition sar (a n : Z) : Z := Z.shiftr (to_int32 a) (n mod 32).

Definition shl (a n : Z) : Z := to_int32 (Z.shiftl (to_int32 a) (n mod 32)).

(** [String.prototype.slice]: a negative index counts from the end,
    and both ends are clamped to the string. *)
Definition clamp (n i : Z) : Z :=
  if i <? 0 then Z.max (n + i) 0 else Z.min i n.

Definition slice {A} (s : list A) (a b : Z) : list A :=
  let a' := clamp (len s) a in
  let b' := clamp (len s) b in
  take (Z.to_nat (b' - a')) (drop (Z.to_nat a') s).

(** [s.slice(a)] *)
Definition slice_from {A} (s : list A) (a : Z) : list A :=
  slice s a (len s).

(** [s.charCodeAt(i)], [NaN] out of range. *)
Definition charCodeAt (s : list Z) (i : Z) : option Z := index s i.

End Js.

(** ** state.ts *)

Module State.

(** [ParseState]; the [skip] and [tokenizers] fields hold tokenizer
    objects and play no part in [anyReduce]. *)
Record ParseState := {
  id : Z;
  actions : list Z;
  goto : list Z;
  recover : list Z;
  alwaysReduce : Z;
  defaultReduce : Z
}.

(** The loop of [anyReduce]: [actions[i + 1]] is [undefined] when the
    array has odd length, and [undefined > 0] is false. *)
Fixpoint anyReduce_scan (actions : list Z) : Z :=
  match actions with
  | _ :: action :: rest =>
      if 0 <? action then action else anyReduce_scan rest
  | _ => 0
  end.

Definition anyReduce (st : ParseState) : Z :=
  if 0 <=? alwaysReduce st then alwaysReduce st
  else anyReduce_scan (actions st).

End State.

(** ** token.ts *)

Module Token.

(** [InputGap] and [Input] come from the common package: a gap is a
    half-open range, an input hands out chunks and substrings. *)
Record InputGap := { from : Z; to : Z }.

Record Input := {
  input_chunk : Z -> list Z;
  input_read : Z -> Z -> list Z
}.

(** [CachedToken]; its [start] and [end] are [tok_start] and [tok_end]
    here, and the [end] of the stream is [end_]. *)
Record CachedToken := {
  tok_start : Z;
  value : Z;
  tok_end : Z;
  extended : Z;
  lookAhead : Z;
  mask : Z;
  context : Z
}.

Definition newCachedToken : CachedToken :=
  {| tok_start := -1; value := -1; tok_end := -1; extended := -1;
     lookAhead := 0; mask := 0; context := 0 |}.

(** The stream.  [token] is a reference: [None] stands for the
    module-level [nullToken] object, whose state is carried along in
    the field [nullToken] because [peek] and [advance] write to it;
    [Some t] is the token object bound by [reset]. *)
Record InputStream := {
  chunk : list Z;
  chunkOff : Z;
  chunkPos : Z;
  chunk2 : list Z;
  chunk2Pos : Z;
  next : option Z;
  gaps : option (list InputGap);
  token : option CachedToken;
  nullToken : CachedToken;
  pos : Z;
  input : Input;
  start : Z;
  end_ : Z
}.

Definition set_chunk (v : list Z) (s : InputStream) : InputStream :=
  {| chunk := v; chunkOff := chunkOff s; chunkPos := chunkPos s; chunk2
     := chunk2 s; chunk2Pos := chunk2Pos s; next := next s; gaps := gaps
     s; token := token s; nullToken := nullToken s; pos := pos s; input
     := input s; start := start s; end_ := end_ s |}.

Definition set_chunkOff (v : Z) (s : InputStream) : InputStream :=
  {| chunk := chunk s; chunkOff := v; chunkPos := chunkPos s; chunk2 :=
     chunk2 s; chunk2Pos := chunk2Pos s; next := next s; gaps := gaps s;
     token := token s; nullToken := nullToken s; pos := pos s; input :=
     input s; start := start s; end_ := end_ s |}.

Definition set_chunkPos (v : Z) (s : InputStream) : InputStream :=
  {| chunk := chunk s; chunkOff := chunkOff s; chunkPos := v; chunk2 :=
     chunk2 s; chunk2Pos := chunk2Pos s; next := next s; gaps := gaps s;
     token := token s; nullToken := nullToken s; pos := pos s; input :=
     input s; start := start s; end_ := end_ s |}.

Definition set_chunk2 (v : list Z) (s : InputStream) : InputStream :=
  {| chunk := chunk s; chunkOff := chunkOff s; chunkPos := chunkPos s;
     chunk2 := v; chunk2Pos := chunk2Pos s; next := next s; gaps := gaps
     s; token := token s; nullToken := nullToken s; pos := pos s; input
     := input s; start := start s; end_ := end_ s |}.

Definition set_chunk2Pos (v : Z) (s : InputStream) : InputStream :=
  {| chunk := chunk s; chunkOff := chunkOff s; chunkPos := chunkPos s;
     chunk2 := chunk2 s; chunk2Pos := v; next := next s; gaps := gaps s;
     token := token s; nullToken := nullToken s; pos := pos s; input :=
     input s; start := start s; end_ := end_ s |}.

Definition set_next (v : option Z) (s : InputStream) : InputStream :=
  {| chunk := chunk s; chunkOff := chunkOff s; chunkPos := chunkPos s;
     chunk2 := chunk2 s; chunk2Pos := chunk2Pos s; next := v; gaps :=
     gaps s; token := token s; nullToken := nullToken s; pos := pos s;
     input := input s; start := start s; end_ := end_ s |}.

Definition set_token (v : option CachedToken) (s : InputStream) : InputStream :=
  {| chunk := chunk s; chunkOff := chunkOff s; chunkPos := chunkPos s;
     chunk2 := chunk2 s; chunk2Pos := chunk2Pos s; next := next s; gaps
     := gaps s; token := v; nullToken := nullToken s; pos := pos s;
     input := input s; start := start s; end_ := end_ s |}.

Definition set_nullToken (v : CachedToken) (s : InputStream) : InputStream :=
  {| chunk := chunk s; chunkOff := chunkOff s; chunkPos := chunkPos s;
     chunk2 := chunk2 s; chunk2Pos := chunk2Pos s; next := next s; gaps
     := gaps s; token := token s; nullToken := v; pos := pos s; input :=
     input s; start := start s; end_ := end_ s |}.

Definition set_pos (v : Z) (s : InputStream) : InputStream :=
  {| chunk := chunk s; chunkOff := chunkOff s; chunkPos := chunkPos s;
     chunk2 := chunk2 s; chunk2Pos := chunk2Pos s; next := next s; gaps
     := gaps s; token := token s; nullToken := nullToken s; pos := v;
     input := input s; start := start s; end_ := end_ s |}.

Definition set_lookAhead (v : Z) (t : CachedToken) : CachedToken :=
  {| tok_start := tok_start t; value := value t; tok_end := tok_end t;
     extended := extended t; lookAhead := v; mask := mask t;
     context := context t |}.

(** [this.token], dereferenced. *)
Definition the_token (s : InputStream) : CachedToken :=
  match token s with Some t => t | None => nullToken s end.

(** A write through [this.token]. *)
Definition write_token (t : CachedToken) (s : InputStream) : InputStream :=
  match token s with
  | Some _ => set_token (Some t) s
  | None => set_nullToken t s
  end.

(** [if (pos > this.token.lookAhead) this.token.lookAhead = pos] *)
Definition note_lookAhead (p : Z) (s : InputStream) : InputStream :=
  if lookAhead (the_token s) <? p
  then write_token (set_lookAhead p (the_token s)) s
  else s.

(** The two loops of [resolvePos]; the backward one runs over the
    gaps from the last to the first. *)
Fixpoint resolve_forward (gs : list InputGap) (pos offset : Z) : Z :=
  match gs with
  | [] => offset
  | gap :: gs' =>
      if pos + offset <? from gap then offset
      else resolve_forward gs' pos
             (if pos <? from gap then offset + (to gap - from gap)
              else offset)
  end.

Fixpoint resolve_backward (rgs : list InputGap) (pos offset : Z) : Z :=
  match rgs with
  | [] => offset
  | gap :: rgs' =>
      if to gap <=? pos - offset then offset
      else resolve_backward rgs' pos
             (if to gap <=? pos then offset - (to gap - from gap)
              else offset)
  end.

Definition resolvePos (s : InputStream) (pos offset : Z) : Z :=
  match gaps s with
  | None => pos + offset
  | Some gs =>
      if offset =? 0 then pos + offset
      else if offset <? 0 then pos + resolve_backward (rev gs) pos offset
      else pos + resolve_forward gs pos offset
  end.

(** The position [peek] looks at, and what it finds there. *)
Definition peek_at (s : InputStream) (offset : Z) : Z * option Z :=
  let idx := chunkOff s + offset in
  if (0 <=? idx) && (idx <? Js.len (chunk s)) then
    (pos s + offset, Js.charCodeAt (chunk s) idx)
  else
    let p := resolvePos s (pos s) offset in
    (p, if (p <? start s) || (end_ s <=? p) then Some (-1)
        else Js.charCodeAt (input_read (input s) p (p + 1)) 0).

Definition peek (s : InputStream) (offset : Z) : option Z * InputStream :=
  let '(p, result) := peek_at s offset in
  (result, note_lookAhead p s).

Definition set_tok_value_end (v e : Z) (t : CachedToken) : CachedToken :=
  {| tok_start := tok_start t; value := v; tok_end := e;
     extended := extended t; lookAhead := lookAhead t; mask := mask t;
     context := context t |}.

Definition acceptToken (s : InputStream) (tok endOffset : Z) : InputStream :=
  write_token
    (set_tok_value_end tok (resolvePos s (pos s) endOffset) (the_token s)) s.

(** The loop of [removeGapsFromChunk] over the gaps still to visit;
    [from_] is its local [from], [to_] its local [to], and [refetch]
    is the call [this.getChunk()]. *)
Fixpoint removeGaps_loop (refetch : InputStream -> option (bool * InputStream))
    (gs : list InputGap) (from_ to_ : Z) (s : InputStream)
    : option (bool * InputStream) :=
  match gs with
  | [] => Some (true, s)
  | g :: gs' =>
      if to_ <=? from g then Some (true, s)
      else if from_ <? to g then
        if from_ <? from g then
          Some (true, set_chunk (Js.slice (chunk s) 0 (from g - from_)) s)
        else
          let s1 := set_chunkPos (to g) (set_pos (to g) s) in
          if to g <? to_ then
            removeGaps_loop refetch gs' (to g) to_
              (set_chunk (Js.slice_from (chunk s1) (to g - from_)) s1)
          else refetch (set_chunk [] s1)
      else removeGaps_loop refetch gs' from_ to_ s
  end.

(** [getChunk], with [removeGapsFromChunk] inlined at its one call
    site.  The two methods call each other; [fuel] bounds the depth of
    that recursion, and [getChunk_total] below shows that one unit per
    gap, plus one, never runs out. *)
Fixpoint getChunk_fuel (fuel : nat) (s : InputStream)
    : option (bool * InputStream) :=
  match fuel with
  | O => None
  | S fuel' =>
      if (chunk2Pos s <=? pos s) && (pos s <? chunk2Pos s + Js.len (chunk2 s))
      then
        let s1 := set_chunkPos (chunk2Pos s) (set_chunk (chunk2 s) s) in
        let s2 := set_chunk2Pos (chunkPos s) (set_chunk2 (chunk s) s1) in
        Some (true, set_chunkOff (pos s2 - chunkPos s2) s2)
      else if end_ s <=? pos s then
        Some (false, set_chunkOff 0 (set_chunk [] (set_next (Some (-1)) s)))
      else
        let s1 := set_chunk2Pos (chunkPos s) (set_chunk2 (chunk s) s) in
        let nextChunk := input_chunk (input s1) (pos s1) in
        let e := pos s1 + Js.len nextChunk in
        let s2 :=
          set_chunk (if end_ s1 <? e
                     then Js.slice nextChunk 0 (end_ s1 - pos s1)
                     else nextChunk) s1 in
        let s3 := set_chunkOff 0 (set_chunkPos (pos s2) s2) in
        match gaps s3 with
        | Some gs =>
            removeGaps_loop (getChunk_fuel fuel') gs
              (pos s3) (pos s3 + Js.len (chunk s3)) s3
        | None => Some (true, s3)
        end
  end.

Definition gap_count (s : InputStream) : nat :=
  match gaps s with Some gs => length gs | None => O end.

Definition getChunk (s : InputStream) : bool * InputStream :=
  match getChunk_fuel (S (gap_count s)) s with
  | Some r => r
  | None => (false, s)
  end.

Definition readNext (s : InputStream) : InputStream :=
  if chunkOff s =? Js.len (chunk s) then
    let '(ok, s') := getChunk s in
    if ok then set_next (Js.charCodeAt (chunk s') (chunkOff s')) s' else s'
  else set_next (Js.charCodeAt (chunk s) (chunkOff s)) s.

(** One round of the loop of [advance], after the test of [next]. *)
Definition advance_step (s : InputStream) : InputStream :=
  let s1 := set_pos (pos s + 1) (set_chunkOff (chunkOff s + 1) s) in
  readNext (note_lookAhead (pos s1) s1).

Fixpoint advance_loop (n : nat) (s : InputStream) : option Z * InputStream :=
  match n with
  | O => (next s, s)
  | S n' =>
      if Js.lt (next s) (Some 0) then (Some (-1), s)
      else advance_loop n' (advance_step s)
  end.

Definition advance (s : InputStream) (n : Z) : option Z * InputStream :=
  advance_loop (Z.to_nat n) s.

(** [reset(pos, token)]: a token that is passed in is bound and
    initialised; without one the stream goes back to [nullToken]. *)
Definition reset (s : InputStream) (p : Z) (tok : option CachedToken)
    : InputStream :=
  let s1 :=
    match tok with
    | Some t =>
        set_token (Some {| tok_start := p; value := -1; tok_end := tok_end t;
                           extended := -1; lookAhead := p; mask := mask t;
                           context := context t |}) s
    | None => set_token None s
    end in
  if pos s1 =? p then s1
  else
    let s2 := set_pos p s1 in
    let s3 :=
      if (chunkPos s2 <=? p) && (p <? chunkPos s2 + Js.len (chunk s2))
      then set_chunkOff (p - chunkPos s2) s2
      else set_chunkOff 0 (set_chunk [] s2) in
    readNext s3.

(** The gap removal of [read], one gap at a time. *)
Definition cut_gap (from_ to_ : Z) (val : list Z) (g : InputGap) : list Z :=
  if (from_ <? to g) && (from g <? to_) then
    Js.slice val 0 (Z.max 0 (from g - from_))
      ++ Js.slice_from val (Z.min (Js.len val) (to g - from_))
  else val.

Definition read (s : InputStream) (from_ to_ : Z) : list Z :=
  let val :=
    if (chunkPos s <=? from_) && (to_ <=? chunkPos s + Js.len (chunk s))
    then Js.slice (chunk s) (from_ - chunkPos s) (to_ - chunkPos s)
    else input_read (input s) from_ to_ in
  match gaps s with
  | Some gs => fold_left (cut_gap from_ to_) (rev gs) val
  | None => val
  end.

(** The constructor. *)
Definition new_InputStream (nullTok : CachedToken) (inp : Input)
    (start_ end' : Z) (gs : option (list InputGap)) : InputStream :=
  readNext
    {| chunk := []; chunkOff := 0; chunkPos := start_; chunk2 := [];
       chunk2Pos := 0; next := Some (-1);
       gaps := match gs with
               | Some (g :: gs') => Some (g :: gs')
               | _ => None
               end;
       token := None; nullToken := nullTok; pos := start_; input := inp;
       start := start_; end_ := end' |}.

(** A string as an [Input]: chunks run to the end of the string. *)
Definition StringInput (text : list Z) : Input :=
  {| input_chunk := fun p => Js.slice_from text p;
     input_read := fun a b => Js.slice text a b |}.

(** *** The tokenizer interpreter, [readToken] *)

(** The binary search over the edges of a state.  [accEnd] is
    [data[state + 1]], the index of the first edge; [next] is
    [input.next].  The result is [None] when the loop ends without a
    match and [Some t] when it leaves through the last branch with
    [state = t], where [t] is whatever [data[index + 2]] holds. *)
Equations? edge_search (data : list Z) (accEnd next : option Z) (low high : Z)
    : option (option Z) by wf (Z.to_nat (high - low)) lt :=
  edge_search data accEnd next low high with Z_lt_dec low high := {
    | left _ =>
        let mid := Z.shiftr (low + high) 1 in
        let index := Js.add accEnd (Some (mid + Z.shiftl mid 1)) in
        let from_ := Js.index_opt data index in
        let to_ := Js.index_opt data (Js.add index (Some 1)) in
        if Js.lt next from_ then edge_search data accEnd next low mid
        else if Js.ge next to_ then edge_search data accEnd next (mid + 1) high
        else Some (Js.index_opt data (Js.add index (Some 2)))
    | right _ => None }.
Proof.
  all: assert (low <= mid < high)
    by (subst mid; rewrite Z.shiftr_div_pow2 by lia; change (2 ^ 1) with 2;
        split; [apply Z.div_le_lower_bound | apply Z.div_lt_upper_bound]; lia).
  all: lia.
Qed.

(** The grammar side of [readToken]: [dialect.allows] and
    [parser.overrides] live in the parser. *)
Record Grammar := {
  allows : Z -> bool;
  overrides : Z -> Z -> bool
}.

(** The loop over the accepting tokens of a state, [n] rounds at
    most, from index [i] in steps of two. *)
Fixpoint accept_loop (p : Grammar) (data : list Z) (groupMask : Z)
    (n : nat) (i accEnd : Z) (inp : InputStream) : InputStream :=
  match n with
  | O => inp
  | S n' =>
      if i <? accEnd then
        match Js.index data (i + 1), Js.index data i with
        | Some m, Some term =>
            if (0 <? Z.land m groupMask) && allows p term
               && ((value (the_token inp) =? -1)
                   || (value (the_token inp) =? term)
                   || overrides p term (value (the_token inp)))
            then acceptToken inp term 0
            else accept_loop p data groupMask n' (i + 2) accEnd inp
        | _, _ => accept_loop p data groupMask n' (i + 2) accEnd inp
        end
      else inp
  end.

(** One round of the [scan] loop: [inl] when it breaks, [inr] when it
    continues with a new state and the input advanced. *)
Definition scan_step (p : Grammar) (data : list Z) (groupMask : Z)
    (state : Z) (inp : InputStream) : InputStream + (option Z * InputStream) :=
  match Js.index data state with
  | None => inl inp
  | Some m =>
      if Z.land groupMask m =? 0 then inl inp
      else
        let accEnd := Js.index data (state + 1) in
        let inp1 :=
          match accEnd with
          | Some e =>
              accept_loop p data groupMask (Z.to_nat (e - (state + 3)))
                (state + 3) e inp
          | None => inp
          end in
        match Js.index data (state + 2) with
        | None => inl inp1
        | Some high =>
            match edge_search data accEnd (next inp1) 0 high with
            | Some t => inr (t, snd (advance inp1 1))
            | None => inl inp1
            end
        end
  end.

(** [readToken]: the [scan] loop runs until a round breaks; [fuel]
    bounds the number of rounds. *)
Fixpoint readToken_fuel (fuel : nat) (p : Grammar) (data : list Z)
    (groupMask : Z) (state : option Z) (inp : InputStream)
    : option InputStream :=
  match fuel with
  | O => None
  | S fuel' =>
      match state with
      | None => Some inp
      | Some st =>
          match scan_step p data groupMask st inp with
          | inl inp' => Some inp'
          | inr (t, inp') => readToken_fuel fuel' p data groupMask t inp'
          end
      end
  end.

Definition readToken (fuel : nat) (p : Grammar) (data : list Z)
    (inp : InputStream) (group : Z) : option InputStream :=
  readToken_fuel fuel p data (Js.shl 1 group) (Some 0) inp.

End Token.

(** ** tree.ts *)

Module Trees.

Record ChangedRange := { fromA : Z; toA : Z; fromB : Z; toB : Z }.

(** What a [children] array holds: a [Node], with its tag, its
    explicit length and its own children and positions, or a
    [TreeBuffer] over a packed [Uint16Array]. *)
Inductive Child :=
| Node (tag _length : Z) (children : list Child) (positions : list Z)
| TreeBuffer (buffer : list Z).

(** A [Tree] object is a plain tree or, by inheritance, a node. *)
Inductive Tree :=
| PlainTree (children : list Child) (positions : list Z)
| NodeTree (tag _length : Z) (children : list Child) (positions : list Z).

Definition children_of (t : Tree) : list Child :=
  match t with PlainTree cs _ | NodeTree _ _ cs _ => cs end.

Definition positions_of (t : Tree) : list Z :=
  match t with PlainTree _ ps | NodeTree _ _ _ ps => ps end.

(** [TreeBuffer.length] is [buffer[buffer.length - 2]], [undefined]
    on a buffer of fewer than two cells. *)
Definition TreeBuffer_length (buffer : list Z) : option Z :=
  Js.index buffer (Js.len buffer - 2).

Definition Child_length (c : Child) : option Z :=
  match c with
  | Node _ l _ _ => Some l
  | TreeBuffer buffer => TreeBuffer_length buffer
  end.

Definition Tree_length (t : Tree) : option Z :=
  match t with
  | NodeTree _ l _ _ => Some l
  | PlainTree cs ps =>
      let last := Js.len cs - 1 in
      if last <? 0 then Some 0
      else Js.add (Js.index ps last)
             (match Js.index cs last with
              | Some c => Child_length c
              | None => None
              end)
  end.

(** The two output arrays of [partial], pushed to together. *)
Definition Out : Type := list Child * list Z.

Definition push (c : Child) (offset : Z) (out : Out) : Out :=
  (fst out ++ [c], snd out ++ [offset]).

(** [Tree.partial], given the [partial] of the children.  Child [i]
    sits at [positions[i]]; once the positions run out, [from] is
    [undefined], no test succeeds and nothing more is pushed. *)
Definition Tree_partial_with (child_partial : Child -> Z -> Z -> Z -> Out -> Out)
    : list Child -> list Z -> Z -> Z -> Z -> Out -> Out :=
  fix loop (cs : list Child) (ps : list Z) (start end_ offset : Z) (out : Out)
      {struct cs} : Out :=
    match cs, ps with
    | child :: cs', from_ :: ps' =>
        if end_ <=? from_ then out
        else
          let to_ := Js.add (Some from_) (Child_length child) in
          loop cs' ps' start end_ offset
            (if Js.gt to_ (Some start)
             then child_partial child (start - from_) (end_ - from_)
                    (offset + from_) out
             else out)
    | _, _ => out
    end.

(** [Node.partial] and [TreeBuffer.partial]. *)
Fixpoint Child_partial (c : Child) (start end_ offset : Z) (out : Out) : Out :=
  match c with
  | Node _ l cs ps =>
      if (start <=? 0) && (l <=? end_) then push c offset out
      else Tree_partial_with Child_partial cs ps start end_ offset out
  | TreeBuffer buffer =>
      if (start <=? 0) && Js.ge (Some end_) (TreeBuffer_length buffer)
      then push c offset out
      else out
  end.

(** [this.partial(...)] on a tree object, by dynamic dispatch. *)
Definition Tree_partial (t : Tree) (start end_ offset : Z) (out : Out) : Out :=
  match t with
  | PlainTree cs ps => Tree_partial_with Child_partial cs ps start end_ offset out
  | NodeTree tag l cs ps => Child_partial (Node tag l cs ps) start end_ offset out
  end.

(** The loop of [Tree.unchanged] over the changes still to come. *)
Fixpoint unchanged_loop (t : Tree) (changes : list ChangedRange)
    (pos off : Z) (out : Out) : Out :=
  match changes with
  | [] =>
      match Tree_length t with
      | Some nextPos =>
          if pos <? nextPos then Tree_partial t pos (nextPos - 1) off out
          else out
      | None => out
      end
  | next :: rest =>
      let nextPos := fromA next in
      unchanged_loop t rest (toA next)
        (off + ((toB next - fromB next) - (toA next - fromA next)))
        (if pos <? nextPos then Tree_partial t pos (nextPos - 1) off out
         else out)
  end.

Definition unchanged (t : Tree) (changes : list ChangedRange) : Tree :=
  match changes with
  | [] => t
  | _ :: _ =>
      let out := unchanged_loop t changes 0 0 ([], []) in
      PlainTree (fst out) (snd out)
  end.

(** *** Contexts *)

Inductive Context :=
| TreeContext (tree : Tree) (start : Z) (parent : option Context)
| BufferContext (buffer : list Z) (bufferStart index : Z)
    (parent : option Context).

Definition Context_type (c : Context) : option Z :=
  match c with
  | TreeContext (NodeTree tag _ _ _) _ _ => Some tag
  | TreeContext (PlainTree _ _) _ _ => Some (-1)
  | BufferContext buffer _ index _ => Js.index buffer index
  end.

Definition Context_start (c : Context) : option Z :=
  match c with
  | TreeContext _ start _ => Some start
  | BufferContext buffer _ index _ => Js.index buffer (index + 1)
  end.

Definition Context_end (c : Context) : option Z :=
  match c with
  | TreeContext tree start _ => Js.add (Some start) (Tree_length tree)
  | BufferContext buffer _ index _ => Js.index buffer (index + 2)
  end.

Definition Context_parent (c : Context) : option Context :=
  match c with
  | TreeContext _ _ parent | BufferContext _ _ _ parent => parent
  end.

(** [count << 2], where an [undefined] count shifts to 0. *)
Definition quads (count : option Z) : Z :=
  match count with Some c => Z.shiftl c 2 | None => 0 end.

(** [BufferContext.resolveIndex]: the body adds [4 + (count << 2)] to
    [i] and the loop header then adds one more. *)
Fixpoint resolveIndex_fuel (fuel : nat) (pos : Z) (buf : list Z)
    (start i to_ : Z) : option Z :=
  match fuel with
  | O => None
  | S fuel' =>
      if i <? to_ then
        let start1 := Js.add (Js.index buf (i + 1)) (Some start) in
        if Js.ge start1 (Some pos) then Some (-1)
        else
          let end1 := Js.add (Js.index buf (i + 2)) (Some start) in
          if Js.gt end1 (Some pos) then Some i
          else
            resolveIndex_fuel fuel' pos buf start
              (i + (4 + quads (Js.index buf (i + 3))) + 1) to_
      else Some (-1)
  end.

Definition resolveIndex (pos : Z) (buf : list Z) (start from_ to_ : Z)
    : option Z :=
  resolveIndex_fuel (S (Z.to_nat (to_ - from_))) pos buf start from_ to_.

Definition BufferContext_endIndex (buffer : list Z) (index : Z) : Z :=
  index + 4 + quads (Js.index buffer (index + 3)).

(** [resolve] on a context.  A context hands a position it does not
    contain to its parent and the parent may descend again, so the
    recursion is bounded by [fuel]; [None] is fuel running out. *)
Fixpoint resolve_fuel (fuel : nat) (ctx : Context) (pos : Z) : option Context :=
  match fuel with
  | O => None
  | S fuel' =>
      if Js.ge (Context_start ctx) (Some pos) || Js.ge (Some pos) (Context_end ctx)
      then
        match Context_parent ctx with
        | Some p => resolve_fuel fuel' p pos
        | None => Some ctx
        end
      else
        match ctx with
        | TreeContext tree start0 _ =>
            (fix scan (cs : list Child) (ps : list Z) : option Context :=
               match cs, ps with
               | child :: cs', p :: ps' =>
                   let start := p + start0 in
                   if pos <=? start then Some ctx
                   else
                     if Js.gt (Js.add (Some start) (Child_length child)) (Some pos)
                     then
                       match child with
                       | Node tag l ccs cps =>
                           resolve_fuel fuel'
                             (TreeContext (NodeTree tag l ccs cps) start (Some ctx))
                             pos
                       | TreeBuffer buffer =>
                           match resolveIndex pos buffer start 0 (Js.len buffer) with
                           | Some found =>
                               if -1 <? found
                               then Some (BufferContext buffer start found (Some ctx))
                               else scan cs' ps'
                           | None => None
                           end
                       end
                     else scan cs' ps'
               | _, _ => Some ctx
               end) (children_of tree) (positions_of tree)
        | BufferContext buffer bufferStart index _ =>
            match resolveIndex pos buffer bufferStart (index + 4)
                    (BufferContext_endIndex buffer index) with
            | Some found =>
                if found <? 0 then Some ctx
                else Some (BufferContext buffer bufferStart found (Some ctx))
            | None => None
            end
        end
  end.

(** [Tree.resolve] *)
Definition resolve (fuel : nat) (t : Tree) (pos : Z) : option Context :=
  resolve_fuel fuel (TreeContext t 0 None) pos.

(** *** TagMap *)

Section TagMap.
Context {T : Type}.
(** [JSON.parse] on a tag name that starts with a double quote: the
    string it denotes, or [None] when it throws a [SyntaxError]. *)
Variable JSON_parse : string -> option string.

(** The [content] array holds a value or [null] ([None]). *)
Record TagMap := { content : list (option T) }.

Definition starts_with_quote (tag : string) : bool :=
  match tag with
  | String c _ => Ascii.eqb c (Ascii.ascii_of_nat 34)
  | EmptyString => false
  end.

(** The value found for one tag name: the outer [None] is the
    exception of [JSON.parse], which is called only for a name that
    [values] does not have and that starts with a double quote. *)
Definition found_for (values : gmap string T) (tag : string)
    : option (option T) :=
  match values !! tag with
  | Some v => Some (Some v)
  | None =>
      if starts_with_quote tag then
        match JSON_parse tag with
        | Some key => Some (values !! key)
        | None => None
        end
      else Some None
  end.

(** The loop of the constructor over the tags of the parser, pushing
    to [content]; it ends at the first exception. *)
Fixpoint fill (values : gmap string T) (tags : list string)
    (content : list (option T)) : option (list (option T)) :=
  match tags with
  | [] => Some content
  | tag :: rest =>
      match found_for values tag with
      | Some found => fill values rest (content ++ [found])
      | None => None
      end
  end.

(** The constructor: [None] when it throws. *)
Definition new_TagMap (tags : list string) (values : gmap string T)
    : option TagMap :=
  match fill values tags [] with
  | Some content => Some {| content := content |}
  | None => None
  end.

(** [get]: the outer [None] is [undefined] (an index outside
    [content]), [Some None] is [null]. *)
Definition TagMap_get (m : TagMap) (tag : Z) : option (option T) :=
  if Js.band tag 1 =? 0 then Some None
  else Js.index (content m) (Js.sar tag 1).

(** [TagMap.empty], made from no tags and no values. *)
Definition TagMap_empty : option TagMap := new_TagMap [] ∅.
End TagMap.

End Trees.

(** * Properties of the embedded code *)

(** ** state.ts: [anyReduce] *)

Section AnyReduce.
Import State.

(** Induction over an array two cells at a time. *)
Lemma pairwise_ind (P : list Z -> Prop) :
  P [] -> (forall x, P [x]) -> (forall x y l, P l -> P (x :: y :: l)) ->
  forall l, P l.
Proof.
  intros H0 H1 H2 l.
  enough (P l /\ forall x, P (x :: l)) by tauto.
  induction l as [|y l [IH1 IH2]]; split; auto.
Qed.

Lemma anyReduce_scan_first (acts : list Z) (k : nat) (a : Z) :
  acts !! (2 * k + 1)%nat = Some a -> 0 < a ->
  (forall j b, (j < k)%nat -> acts !! (2 * j + 1)%nat = Some b -> b <= 0) ->
  anyReduce_scan acts = a.
Proof.
  revert k. induction acts as [| x | x y l IH] using pairwise_ind;
    intros k Hk Ha Hbefore.
  - destruct k; discriminate.
  - destruct k; discriminate.
  - destruct k as [|k].
    + simpl in Hk. injection Hk as ->. simpl.
      destruct (Z.ltb_spec 0 a); [reflexivity | lia].
    + simpl. specialize (Hbefore O y ltac:(lia) eq_refl) as Hy.
      destruct (Z.ltb_spec 0 y); [lia|].
      apply (IH k); auto.
      * replace (2 * S k + 1)%nat with (S (S (2 * k + 1))) in Hk by lia.
        exact Hk.
      * intros j b Hj Hb. apply (Hbefore (S j) b); [lia|].
        replace (2 * S j + 1)%nat with (S (S (2 * j + 1))) by lia.
        exact Hb.
Qed.

Lemma anyReduce_scan_none (acts : list Z) :
  (forall k a, acts !! (2 * k + 1)%nat = Some a -> a <= 0) ->
  anyReduce_scan acts = 0.
Proof.
  induction acts as [| x | x y l IH] using pairwise_ind; intros Hall;
    try reflexivity.
  simpl. specialize (Hall O y eq_refl) as Hy.
  destruct (Z.ltb_spec 0 y); [lia|].
  apply IH. intros k a Hk. apply (Hall (S k) a).
  replace (2 * S k + 1)%nat with (S (S (2 * k + 1))) by lia. exact Hk.
Qed.

(** C8. [anyReduce] returns [alwaysReduce] when that is non-negative;
    otherwise it returns the action of the first (terminal, action)
    pair of [actions] whose action is positive (cell [2k+1] holds the
    action of pair [k]), and 0 when no pair has a positive action. *)
Theorem anyReduce_spec (st : ParseState) :
  (0 <= alwaysReduce st -> anyReduce st = alwaysReduce st) /\
  (alwaysReduce st < 0 ->
     (forall (k : nat) (a : Z),
         actions st !! (2 * k + 1)%nat = Some a -> 0 < a ->
         (forall j b, (j < k)%nat ->
                      actions st !! (2 * j + 1)%nat = Some b -> b <= 0) ->
         anyReduce st = a) /\
     ((forall (k : nat) (a : Z),
          actions st !! (2 * k + 1)%nat = Some a -> a <= 0) ->
      anyReduce st = 0)).
Proof.
  unfold anyReduce. split; [|split].
  - intros H. destruct (Z.leb_spec 0 (alwaysReduce st)); [reflexivity | lia].
  - intros k a Hk Ha Hb.
    destruct (Z.leb_spec 0 (alwaysReduce st)); [lia|].
    eapply anyReduce_scan_first; eauto.
  - intros Hall.
    destruct (Z.leb_spec 0 (alwaysReduce st)); [lia|].
    apply anyReduce_scan_none; auto.
Qed.

End AnyReduce.

(** ** tree.ts: [TagMap] *)

Section TagMapFacts.
Import Trees.
Context {T : Type} (JSON_parse : string -> option string).








(** The constructor throws exactly when [JSON.parse] does, on a tag
    that [values] does not have and that starts with a double quote. *)
Lemma fill_throws (values : gmap string T) (tags : list string) :
  forall content,
    fill JSON_parse values tags content = None <->
    exists name, name ∈ tags /\ found_for JSON_parse values name = None.
Proof.
  induction tags as [|tag rest IH]; intros content; simpl.
  - split; [discriminate|]. intros (name & Hin & _). inversion Hin.
  - destruct (found_for JSON_parse values tag) as [found|] eqn:Hfound.
    + rewrite IH. split; intros (name & Hin & Hnone); exists name.
      * split; [right; exact Hin | exact Hnone].
      * apply elem_of_cons in Hin. destruct Hin as [->|Hin]; [congruence|].
        split; assumption.
    + split; [|reflexivity]. intros _. exists tag. split; [left | exact Hfound].
Qed.


(** Runs: an even id on a map with a value for every tag; an odd id
    on the empty map, whose [content] has no cell to read; an id beyond
    32 bits, of which only the low bits count; and a constructor that
    throws. *)
Example TagMap_get_even :
  option_map (fun m : @TagMap Z => TagMap_get m 2)
    (new_TagMap JSON_parse ["a"%string] {["a"%string := 7]})
  = Some (Some None).
Proof. reflexivity. Qed.

Example TagMap_get_empty :
  option_map (fun m : @TagMap Z => TagMap_get m 1) (TagMap_empty JSON_parse)
  = Some None.
Proof. reflexivity. Qed.

Example TagMap_get_wraps :
  TagMap_get {| content := [Some 7] |} (2 ^ 32 + 1) = Some (Some 7%Z).
Proof. reflexivity. Qed.

Example new_TagMap_throws :
  new_TagMap (fun _ => None) [String (Ascii.ascii_of_nat 34) EmptyString]
    (∅ : gmap string Z)
  = None.
Proof. reflexivity. Qed.

End TagMapFacts.

(** ** token.ts: the edge search of [readToken] *)

Section EdgeSearch.
Import Token.

(** An edge [(from, toExclusive, nextState)]. *)
Definition Edge : Type := Z * Z * Z.
Definition edge_from (e : Edge) : Z := e.1.1.
Definition edge_to (e : Edge) : Z := e.1.2.
Definition edge_target (e : Edge) : Z := e.2.

(** The linear scan the search is compared with: the target of the
    first edge whose range holds the character. *)
Fixpoint linear_scan (edges : list Edge) (c : Z) : option Z :=
  match edges with
  | [] => None
  | e :: rest =>
      if (edge_from e <=? c) && (c <? edge_to e) then Some (edge_target e)
      else linear_scan rest c
  end.

(** Edge [k] occupies the three cells of [data] from [accEnd + 3k]. *)
Definition edges_at (data : list Z) (accEnd : Z) (edges : list Edge) : Prop :=
  forall (k : nat) (e : Edge), edges !! k = Some e ->
    Js.index data (accEnd + 3 * Z.of_nat k) = Some (edge_from e) /\
    Js.index data (accEnd + 3 * Z.of_nat k + 1) = Some (edge_to e) /\
    Js.index data (accEnd + 3 * Z.of_nat k + 2) = Some (edge_target e).

(** Sorted by [from] and non-overlapping: every edge ends where or
    before the next one starts, and no range is reversed. *)
Fixpoint edges_sorted (edges : list Edge) : Prop :=
  match edges with
  | [] => True
  | e :: rest =>
      edge_from e <= edge_to e /\
      match rest with
      | [] => True
      | e' :: _ => edge_to e <= edge_from e'
      end /\ edges_sorted rest
  end.

Lemma edge_search_unfold data accEnd next low high :
  edge_search data accEnd next low high =
  if Z_lt_dec low high then
    let mid := Z.shiftr (low + high) 1 in
    let index := Js.add accEnd (Some (mid + Z.shiftl mid 1)) in
    let from_ := Js.index_opt data index in
    let to_ := Js.index_opt data (Js.add index (Some 1)) in
    if Js.lt next from_ then edge_search data accEnd next low mid
    else if Js.ge next to_ then edge_search data accEnd next (mid + 1) high
    else Some (Js.index_opt data (Js.add index (Some 2)))
  else None.
Proof.
  simp edge_search. destruct (Z_lt_dec low high); reflexivity.
Qed.

Definition edge_matches (e : Edge) (c : Z) : Prop :=
  edge_from e <= c < edge_to e.

Lemma edges_sorted_tail e rest : edges_sorted (e :: rest) -> edges_sorted rest.
Proof. simpl. tauto. Qed.

Lemma edges_sorted_head_before e rest :
  edges_sorted (e :: rest) ->
  Forall (fun e' => edge_to e <= edge_from e') rest.
Proof.
  revert e. induction rest as [|e' rest IH]; intros e Hs; [constructor|].
  destruct Hs as (Hle & Hnext & Hrest).
  constructor; [exact Hnext|].
  specialize (IH e' Hrest). destruct Hrest as (Hle' & _ & _).
  eapply Forall_impl; [exact IH|]. simpl. intros x Hx. lia.
Qed.

Lemma edges_sorted_range edges (k : nat) e :
  edges_sorted edges -> edges !! k = Some e -> edge_from e <= edge_to e.
Proof.
  revert k. induction edges as [|e0 rest IH]; intros k Hs Hk; [discriminate|].
  destruct k as [|k].
  - injection Hk as <-. destruct Hs; assumption.
  - apply (IH k); [eapply edges_sorted_tail; eauto | exact Hk].
Qed.

Lemma edges_sorted_before edges (i j : nat) ei ej :
  edges_sorted edges -> (i < j)%nat ->
  edges !! i = Some ei -> edges !! j = Some ej ->
  edge_to ei <= edge_from ej.
Proof.
  revert i j. induction edges as [|e0 rest IH]; intros i j Hs Hij Hi Hj;
    [discriminate|].
  destruct j as [|j]; [lia|]. destruct i as [|i].
  - injection Hi as <-. simpl in Hj.
    pose proof (edges_sorted_head_before _ _ Hs) as Hall.
    rewrite Forall_forall in Hall. apply Hall.
    eapply list_elem_of_lookup_2; eauto.
  - apply (IH i j); [eapply edges_sorted_tail; eauto | lia | exact Hi | exact Hj].
Qed.

(** Over sorted edges at most one range holds a given character. *)
Lemma edge_match_unique edges (i j : nat) ei ej c :
  edges_sorted edges ->
  edges !! i = Some ei -> edges !! j = Some ej ->
  edge_matches ei c -> edge_matches ej c -> i = j.
Proof.
  intros Hs Hi Hj Mi Mj. unfold edge_matches in *.
  destruct (lt_eq_lt_dec i j) as [[Hlt|Heq]|Hgt]; [|exact Heq|].
  - pose proof (edges_sorted_before _ _ _ _ _ Hs Hlt Hi Hj). lia.
  - pose proof (edges_sorted_before _ _ _ _ _ Hs Hgt Hj Hi). lia.
Qed.

Lemma edge_matches_dec e c :
  ((edge_from e <=? c) && (c <? edge_to e) = true /\ edge_matches e c) \/
  ((edge_from e <=? c) && (c <? edge_to e) = false /\ ~ edge_matches e c).
Proof.
  unfold edge_matches.
  destruct (Z.leb_spec (edge_from e) c), (Z.ltb_spec c (edge_to e)); simpl;
    [left | right ..]; split; auto; lia.
Qed.

Lemma linear_scan_some edges c t :
  linear_scan edges c = Some t ->
  exists (k : nat) e, edges !! k = Some e /\ edge_matches e c /\ edge_target e = t.
Proof.
  induction edges as [|e rest IH]; [discriminate|]. simpl.
  destruct (edge_matches_dec e c) as [[-> Hm]|[-> Hm]].
  - intros [= <-]. exists O, e. auto.
  - intros H. destruct (IH H) as (k & e' & Hk & Hm' & Ht).
    exists (S k), e'. auto.
Qed.

Lemma linear_scan_none edges c (k : nat) e :
  linear_scan edges c = None -> edges !! k = Some e -> ~ edge_matches e c.
Proof.
  revert k. induction edges as [|e0 rest IH]; intros k; [discriminate|]. simpl.
  destruct (edge_matches_dec e0 c) as [[-> Hm]|[-> Hm]]; [discriminate|].
  intros H Hk. destruct k as [|k].
  - injection Hk as <-. exact Hm.
  - eapply IH; eauto.
Qed.

Section Search.
Variables (data : list Z) (accEnd : Z) (edges : list Edge) (c : Z).
Hypothesis Hat : edges_at data accEnd edges.
Hypothesis Hsorted : edges_sorted edges.

Lemma edge_cells (mid : Z) :
  0 <= mid < Js.len edges ->
  exists e, edges !! Z.to_nat mid = Some e /\
    Js.index_opt data (Js.add (Some accEnd) (Some (mid + Z.shiftl mid 1)))
      = Some (edge_from e) /\
    Js.index_opt data
      (Js.add (Js.add (Some accEnd) (Some (mid + Z.shiftl mid 1))) (Some 1))
      = Some (edge_to e) /\
    Js.index_opt data
      (Js.add (Js.add (Some accEnd) (Some (mid + Z.shiftl mid 1))) (Some 2))
      = Some (edge_target e).
Proof.
  unfold Js.len. intros Hmid.
  destruct (lookup_lt_is_Some_2 edges (Z.to_nat mid)) as [e He]; [lia|].
  exists e. split; [exact He|].
  destruct (Hat _ _ He) as (H1 & H2 & H3).
  rewrite Z2Nat.id in H1, H2, H3 by lia.
  rewrite Z.shiftl_mul_pow2 by lia. change (2 ^ 1) with 2. simpl.
  replace (accEnd + (mid + mid * 2)) with (accEnd + 3 * mid) by lia.
  auto.
Qed.

(** The invariant of the search: inside the window [low, high) it
    finds the edge that holds [c], and reports none when the window
    has none. *)
Lemma edge_search_window (n : nat) : forall low high,
  Z.to_nat (high - low) = n -> 0 <= low -> high <= Js.len edges ->
  (forall (k : nat) e, edges !! k = Some e -> edge_matches e c ->
     low <= Z.of_nat k < high ->
     edge_search data (Some accEnd) (Some c) low high
       = Some (Some (edge_target e))) /\
  ((forall (k : nat) e, edges !! k = Some e ->
      low <= Z.of_nat k < high -> ~ edge_matches e c) ->
   edge_search data (Some accEnd) (Some c) low high = None).
Proof.
  induction n as [n IH] using lt_wf_ind. intros low high Hn Hlow Hhigh.
  rewrite edge_search_unfold.
  destruct (Z_lt_dec low high) as [Hlt|Hge]; [|split; [lia | reflexivity]].
  cbv zeta.
  assert (Hmid : low <= Z.shiftr (low + high) 1 < high).
  { rewrite Z.shiftr_div_pow2 by lia. change (2 ^ 1) with 2.
    split; [apply Z.div_le_lower_bound | apply Z.div_lt_upper_bound]; lia. }
  set (mid := Z.shiftr (low + high) 1) in *.
  destruct (edge_cells mid) as (em & Hem & -> & -> & ->); [lia|].
  simpl.
  destruct (Z.ltb_spec c (edge_from em)) as [Hc|Hc].
  - (* the character is below edge [mid] *)
    destruct (IH (Z.to_nat (mid - low)) ltac:(lia) low mid eq_refl Hlow
               ltac:(lia)) as [IH1 IH2].
    split.
    + intros k e Hk Hm Hin. apply (IH1 k e Hk Hm).
      destruct (Z_lt_dec (Z.of_nat k) mid); [lia|]. exfalso.
      destruct (Z.eq_dec (Z.of_nat k) mid) as [Heq|Hne].
      * assert (k = Z.to_nat mid) by lia. subst k.
        rewrite Hem in Hk. injection Hk as <-. unfold edge_matches in Hm. lia.
      * pose proof (edges_sorted_before edges (Z.to_nat mid) k em e Hsorted
                      ltac:(lia) Hem Hk).
        pose proof (edges_sorted_range _ _ _ Hsorted Hem).
        unfold edge_matches in Hm. lia.
    + intros Hnone. apply IH2. intros k e Hk Hin. apply (Hnone k e Hk). lia.
  - destruct (Z.leb_spec (edge_to em) c) as [Hc'|Hc'].
    + (* the character is at or above the end of edge [mid] *)
      destruct (IH (Z.to_nat (high - (mid + 1))) ltac:(lia) (mid + 1) high
                  eq_refl ltac:(lia) Hhigh) as [IH1 IH2].
      split.
      * intros k e Hk Hm Hin. apply (IH1 k e Hk Hm).
        destruct (Z_lt_dec mid (Z.of_nat k)); [lia|]. exfalso.
        destruct (Z.eq_dec (Z.of_nat k) mid) as [Heq|Hne].
        -- assert (k = Z.to_nat mid) by lia. subst k.
           rewrite Hem in Hk. injection Hk as <-.
           unfold edge_matches in Hm. lia.
        -- pose proof (edges_sorted_before edges k (Z.to_nat mid) e em Hsorted
                         ltac:(lia) Hk Hem).
           pose proof (edges_sorted_range _ _ _ Hsorted Hem).
           unfold edge_matches in Hm. lia.
      * intros Hnone. apply IH2. intros k e Hk Hin. apply (Hnone k e Hk). lia.
    + (* edge [mid] holds the character *)
      assert (Hm : edge_matches em c) by (unfold edge_matches; lia).
      split.
      * intros k e Hk Hm' Hin.
        assert (k = Z.to_nat mid)
          by (eapply edge_match_unique; eauto).
        subst k. rewrite Hem in Hk. injection Hk as <-. reflexivity.
      * intros Hnone. exfalso. apply (Hnone (Z.to_nat mid) em Hem); [lia|].
        exact Hm.
Qed.

(** The binary search agrees with the linear scan. *)
Lemma edge_search_linear :
  edge_search data (Some accEnd) (Some c) 0 (Js.len edges)
  = option_map Some (linear_scan edges c).
Proof.
  destruct (edge_search_window _ 0 (Js.len edges) eq_refl ltac:(lia) ltac:(lia))
    as [H1 H2].
  destruct (linear_scan edges c) as [t|] eqn:Hscan; simpl.
  - destruct (linear_scan_some _ _ _ Hscan) as (k & e & Hk & Hm & <-).
    apply (H1 k e Hk Hm). apply lookup_lt_Some in Hk. unfold Js.len. lia.
  - apply H2. intros k e Hk _. eapply linear_scan_none; eauto.
Qed.
End Search.

Lemma next_write_token t s : next (write_token t s) = next s.
Proof. unfold write_token. destruct (token s); reflexivity. Qed.

Lemma next_accept_loop p data groupMask n : forall i accEnd inp,
  next (accept_loop p data groupMask n i accEnd inp) = next inp.
Proof.
  induction n as [|n IH]; intros i accEnd inp; simpl; [reflexivity|].
  destruct (i <? accEnd); [|reflexivity].
  destruct (Js.index data (i + 1)), (Js.index data i); try apply IH.
  match goal with |- context [if ?b then _ else _] => destruct b end;
    [apply next_write_token | apply IH].
Qed.

(** C9. In a state whose edges are sorted by [from] and do not
    overlap, the binary search of [readToken] gives what a linear scan
    of the edge list gives.  The round continues with state [t] exactly
    when some edge holds the next character and leads to [t], and it
    then has advanced the input by one; when no edge holds the
    character the round breaks and [readToken] returns. *)
Theorem readToken_binary_search (p : Grammar) (data : list Z)
    (groupMask st m accEnd : Z) (edges : list Edge) (inp : InputStream) (c : Z) :
  Js.index data st = Some m -> Z.land groupMask m <> 0 ->
  Js.index data (st + 1) = Some accEnd ->
  Js.index data (st + 2) = Some (Js.len edges) ->
  edges_at data accEnd edges -> edges_sorted edges ->
  next inp = Some c ->
  let inp1 :=
    accept_loop p data groupMask (Z.to_nat (accEnd - (st + 3))) (st + 3)
      accEnd inp in
  edge_search data (Some accEnd) (Some c) 0 (Js.len edges)
    = option_map Some (linear_scan edges c) /\
  (forall t,
      (exists inp', scan_step p data groupMask st inp = inr (Some t, inp')) <->
      (exists e, e ∈ edges /\ edge_matches e c /\ edge_target e = t)) /\
  (forall t inp', scan_step p data groupMask st inp = inr (t, inp') ->
                  inp' = snd (advance inp1 1)) /\
  ((forall e, e ∈ edges -> ~ edge_matches e c) ->
   scan_step p data groupMask st inp = inl inp1 /\
   forall fuel,
     readToken_fuel (S fuel) p data groupMask (Some st) inp = Some inp1).
Proof.
  intros Hm Hmask HaccEnd Hhigh Hat Hsorted Hnext inp1.
  pose proof (edge_search_linear data accEnd edges c Hat Hsorted) as Hlin.
  assert (Hstep : scan_step p data groupMask st inp =
                  match linear_scan edges c with
                  | Some t => inr (Some t, snd (advance inp1 1))
                  | None => inl inp1
                  end).
  { unfold scan_step. rewrite Hm.
    destruct (Z.eqb_spec (Z.land groupMask m) 0) as [|_]; [contradiction|].
    rewrite HaccEnd, Hhigh. fold inp1.
    unfold inp1 at 1. rewrite next_accept_loop, Hnext, Hlin.
    destruct (linear_scan edges c); reflexivity. }
  split; [exact Hlin|]. split; [|split].
  - intros t. rewrite Hstep. split.
    + intros [inp' H]. destruct (linear_scan edges c) as [t'|] eqn:Hscan;
        [|discriminate].
      injection H as <- _.
      destruct (linear_scan_some _ _ _ Hscan) as (k & e & Hk & Hmt & Ht).
      exists e. split; [eapply list_elem_of_lookup_2; eauto | auto].
    + intros (e & Hin & Hmt & <-).
      apply list_elem_of_lookup_1 in Hin as [k Hk].
      destruct (linear_scan edges c) as [t'|] eqn:Hscan.
      * destruct (linear_scan_some _ _ _ Hscan) as (k' & e' & Hk' & Hmt' & <-).
        assert (k' = k) by (eapply edge_match_unique; eauto). subst k'.
        rewrite Hk in Hk'. injection Hk' as <-. eauto.
      * exfalso. eapply linear_scan_none; eauto.
  - intros t inp'. rewrite Hstep.
    destruct (linear_scan edges c); [|discriminate].
    intros [= _ <-]. reflexivity.
  - intros Hnone.
    assert (Hscan : linear_scan edges c = None).
    { destruct (linear_scan edges c) as [t|] eqn:Hscan; [|reflexivity].
      destruct (linear_scan_some _ _ _ Hscan) as (k & e & Hk & Hmt & _).
      exfalso. apply (Hnone e); [eapply list_elem_of_lookup_2; eauto | auto]. }
    rewrite Hscan in Hstep. split; [exact Hstep|].
    intros fuel. simpl. rewrite Hstep. reflexivity.
Qed.

End EdgeSearch.

(** ** token.ts: [InputStream] *)

(** *** Strings and slices *)

Section Slices.
Context {A : Type}.
Implicit Types s t : list A.

Lemma len_nonneg s : 0 <= Js.len s.
Proof. unfold Js.len. lia. Qed.

Lemma len_app s t : Js.len (s ++ t) = Js.len s + Js.len t.
Proof. unfold Js.len. rewrite length_app. lia. Qed.

Lemma clamp_in n i : 0 <= i <= n -> Js.clamp n i = i.
Proof.
  intros H. unfold Js.clamp. destruct (Z.ltb_spec i 0); lia.
Qed.

(** Within the string, [slice] is [take] after [drop]. *)
Lemma slice_in t a b :
  0 <= a <= b -> b <= Js.len t ->
  Js.slice t a b = take (Z.to_nat (b - a)) (drop (Z.to_nat a) t).
Proof.
  intros H1 H2. unfold Js.slice. rewrite !clamp_in by lia. reflexivity.
Qed.

Lemma slice_len t a b :
  0 <= a <= b -> b <= Js.len t -> Js.len (Js.slice t a b) = b - a.
Proof.
  intros H1 H2. rewrite slice_in by lia. unfold Js.len in *.
  rewrite length_take, length_drop. lia.
Qed.

Lemma slice_empty t a : 0 <= a <= Js.len t -> Js.slice t a a = [].
Proof.
  intros H. rewrite slice_in by lia. rewrite Z.sub_diag. reflexivity.
Qed.

Lemma slice_index t a b i :
  0 <= a <= b -> b <= Js.len t -> 0 <= i < b - a ->
  Js.index (Js.slice t a b) i = Js.index t (a + i).
Proof.
  intros H1 H2 H3. rewrite slice_in by lia. unfold Js.index.
  destruct (Z.ltb_spec i 0); [lia|]. destruct (Z.ltb_spec (a + i) 0); [lia|].
  rewrite lookup_take_lt by lia. rewrite lookup_drop.
  f_equal. lia.
Qed.

(** A slice of a slice, a prefix of a slice, and what is left after
    a prefix. *)
Lemma slice_inner t a b i j :
  0 <= a <= b -> b <= Js.len t -> 0 <= i <= j -> j <= b - a ->
  Js.slice (Js.slice t a b) i j = Js.slice t (a + i) (a + j).
Proof.
  intros H1 H2 H3 H4.
  rewrite (slice_in (Js.slice t a b)) by (rewrite ?slice_len; lia).
  rewrite !slice_in by lia.
  rewrite skipn_firstn_comm, take_take, drop_drop.
  f_equal; [lia | f_equal; lia].
Qed.

Lemma slice_prefix t a b k :
  0 <= a <= b -> b <= Js.len t -> 0 <= k <= b - a ->
  Js.slice (Js.slice t a b) 0 k = Js.slice t a (a + k).
Proof.
  intros H1 H2 H3. rewrite slice_inner by lia. f_equal. lia.
Qed.

Lemma slice_suffix t a b k :
  0 <= a <= b -> b <= Js.len t -> 0 <= k <= b - a ->
  Js.slice_from (Js.slice t a b) k = Js.slice t (a + k) b.
Proof.
  intros H1 H2 H3. unfold Js.slice_from.
  rewrite slice_len by lia. rewrite slice_inner by lia. f_equal. lia.
Qed.

Lemma slice_app t a b c :
  0 <= a <= b -> b <= c -> c <= Js.len t ->
  Js.slice t a b ++ Js.slice t b c = Js.slice t a c.
Proof.
  intros H1 H2 H3. rewrite !slice_in by lia.
  replace (Z.to_nat (c - a)) with (Z.to_nat (b - a) + Z.to_nat (c - b))%nat by lia.
  rewrite <- take_take_drop. rewrite drop_drop.
  do 3 f_equal. lia.
Qed.
End Slices.

(** *** [getChunk] always returns *)

Section GetChunkTotal.
Import Token.

Definition gap_list (s : InputStream) : list InputGap :=
  match gaps s with Some gs => gs | None => [] end.

(** The gaps that end after position [p]. *)
Definition gaps_after (p : Z) (gs : list InputGap) : nat :=
  length (List.filter (fun g => p <? to g) gs).

Lemma gaps_after_le_length p gs : (gaps_after p gs <= length gs)%nat.
Proof. apply List.filter_length_le. Qed.

Lemma gaps_after_mono p q gs : p <= q -> (gaps_after q gs <= gaps_after p gs)%nat.
Proof.
  intros Hpq. unfold gaps_after. induction gs as [|g gs IH]; simpl; [lia|].
  destruct (Z.ltb_spec q (to g)), (Z.ltb_spec p (to g)); simpl; lia.
Qed.

Lemma gaps_after_jump p g gs :
  g ∈ gs -> p < to g -> (gaps_after (to g) gs < gaps_after p gs)%nat.
Proof.
  intros Hin Hp. unfold gaps_after.
  induction gs as [|g0 gs IH]; [inversion Hin|].
  apply elem_of_cons in Hin as [<-|Hin]; simpl.
  - destruct (Z.ltb_spec (to g) (to g)); [lia|].
    destruct (Z.ltb_spec p (to g)); [|lia]. simpl.
    pose proof (gaps_after_mono p (to g) gs ltac:(lia)). unfold gaps_after in *.
    lia.
  - specialize (IH Hin).
    destruct (Z.ltb_spec (to g) (to g0)), (Z.ltb_spec p (to g0)); simpl; lia.
Qed.

Lemma removeGaps_loop_total refetch (fuel : nat) (all : list InputGap) :
  (forall s, gap_list s = all -> (gaps_after (pos s) all < fuel)%nat ->
             is_Some (refetch s)) ->
  forall gs from_ to_ s,
    gap_list s = all -> (forall g, g ∈ gs -> g ∈ all) ->
    (gaps_after from_ all <= fuel)%nat ->
    is_Some (removeGaps_loop refetch gs from_ to_ s).
Proof.
  intros Hre gs. induction gs as [|g gs IH]; intros from_ to_ s Hall Hsub Hfuel;
    simpl; [eauto|].
  destruct (to_ <=? from g); [eauto|].
  destruct (Z.ltb_spec from_ (to g)) as [Hlt|Hge].
  - destruct (from_ <? from g); [eauto|].
    destruct (to g <? to_).
    + apply IH; [exact Hall | intros g' Hg'; apply Hsub; right; exact Hg' |].
      pose proof (gaps_after_mono from_ (to g) all ltac:(lia)). lia.
    + apply Hre; [exact Hall|]. cbn.
      pose proof (gaps_after_jump from_ g all (Hsub g ltac:(left)) Hlt). lia.
  - apply IH; [exact Hall | intros g' Hg'; apply Hsub; right; exact Hg' | exact Hfuel].
Qed.

Lemma getChunk_fuel_total (fuel : nat) : forall s,
  (gaps_after (pos s) (gap_list s) < fuel)%nat -> is_Some (getChunk_fuel fuel s).
Proof.
  induction fuel as [|fuel IH]; intros s Hfuel; [lia|]. simpl.
  destruct (_ && _); [eauto|].
  destruct (end_ s <=? pos s); [eauto|].
  cbn. destruct (gaps s) as [gs|] eqn:Hgaps; [|eauto].
  apply (removeGaps_loop_total _ fuel gs).
  - intros s' Hs' Hlt. apply IH. rewrite Hs'. exact Hlt.
  - unfold gap_list. cbn. rewrite Hgaps. reflexivity.
  - auto.
  - cbn. unfold gap_list in Hfuel. rewrite Hgaps in Hfuel. lia.
Qed.

(** One unit of fuel per gap, plus one, is enough in every state. *)
Lemma getChunk_total (s : InputStream) :
  getChunk_fuel (S (gap_count s)) s = Some (getChunk s).
Proof.
  unfold getChunk.
  destruct (getChunk_fuel_total (S (gap_count s)) s) as [r Hr].
  - pose proof (gaps_after_le_length (pos s) (gap_list s)).
    unfold gap_count, gap_list in *. destruct (gaps s); simpl in *; lia.
  - rewrite Hr. reflexivity.
Qed.
End GetChunkTotal.

(** *** The invariant of the stream *)

Section Stream.
Import Token.

(** The document the input serves. *)
Variable text : list Z.

#[local] Arguments gap_list : simpl never.

(** Setters leave the gaps alone; [ss] reads fields through them. *)
Ltac norm_gaps :=
  repeat match goal with
    | |- context [gap_list (?f ?v ?s)] =>
        change (gap_list (f v s)) with (gap_list s)
    | H : context [gap_list (?f ?v ?s)] |- _ =>
        change (gap_list (f v s)) with (gap_list s) in H
    end.
Ltac ss := norm_gaps; cbn.

Definition in_gap (gs : list InputGap) (p : Z) : Prop :=
  exists g, g ∈ gs /\ from g <= p < to g.

Definition gap_free (gs : list InputGap) (a b : Z) : Prop :=
  forall g, g ∈ gs -> to g <= a \/ b <= from g.

(** Gaps are non-empty, in order and disjoint, from [lo] on. *)
Fixpoint gaps_sorted (lo : Z) (gs : list InputGap) : Prop :=
  match gs with
  | [] => True
  | g :: rest => lo <= from g /\ from g < to g /\ gaps_sorted (to g) rest
  end.

(** What the stream expects of its [Input]: [chunk] hands out a
    non-empty piece of the document that starts at the position asked
    for, [read] the exact range. *)
Definition InputOK (inp : Input) : Prop :=
  (forall p, 0 <= p < Js.len text ->
     exists n, 0 < n /\ p + n <= Js.len text /\
               input_chunk inp p = Js.slice text p (p + n)) /\
  (forall a b, 0 <= a <= b -> b <= Js.len text ->
     input_read inp a b = Js.slice text a b).

Record Frame (s : InputStream) : Prop := {
  frame_input : InputOK (input s);
  frame_units : Forall (fun c => 0 <= c) text;
  frame_start : 0 <= start s <= end_ s;
  frame_end : end_ s <= Js.len text;
  frame_gaps : gaps_sorted 0 (gap_list s)
}.

(** A cached chunk is empty, or a piece of the document inside
    [start, end) that no gap touches. *)
Definition chunk_ok (s : InputStream) (c : list Z) (cp : Z) : Prop :=
  c = [] \/
  (start s <= cp /\ cp + Js.len c <= end_ s /\
   c = Js.slice text cp (cp + Js.len c) /\
   gap_free (gap_list s) cp (cp + Js.len c)).

Record Cached (s : InputStream) : Prop := {
  cached_frame : Frame s;
  cached_chunk : chunk_ok s (chunk s) (chunkPos s);
  cached_chunk2 : chunk_ok s (chunk2 s) (chunk2Pos s);
  cached_pos : start s <= pos s
}.

Definition at_end (s : InputStream) : Prop :=
  chunk s = [] /\ chunkOff s = 0 /\ next s = Some (-1) /\ end_ s <= pos s.

Definition in_chunk (s : InputStream) : Prop :=
  0 <= chunkOff s < Js.len (chunk s) /\
  chunkOff s = pos s - chunkPos s /\
  next s = Js.charCodeAt (chunk s) (chunkOff s).

(** The invariant: between two calls the stream is at the end of the
    input with no chunk, or inside its current chunk with [next] the
    code unit under [pos]. *)
Record Inv (s : InputStream) : Prop := {
  inv_cached : Cached s;
  inv_pos : at_end s \/ in_chunk s
}.

(** Two states of one stream over the same input, range, gaps and
    token. *)
Definition same_frame (s s' : InputStream) : Prop :=
  input s' = input s /\ start s' = start s /\ end_ s' = end_ s /\
  gaps s' = gaps s /\ token s' = token s /\ nullToken s' = nullToken s.

Lemma same_frame_refl s : same_frame s s.
Proof. repeat split. Qed.

Lemma same_frame_trans s1 s2 s3 :
  same_frame s1 s2 -> same_frame s2 s3 -> same_frame s1 s3.
Proof.
  unfold same_frame. intros (?&?&?&?&?&?) (?&?&?&?&?&?).
  repeat split; congruence.
Qed.

Lemma same_frame_gap_list s s' : gaps s' = gaps s -> gap_list s' = gap_list s.
Proof. unfold gap_list. intros ->. reflexivity. Qed.

Lemma Frame_same s s' :
  input s' = input s -> start s' = start s -> end_ s' = end_ s ->
  gaps s' = gaps s -> Frame s -> Frame s'.
Proof.
  intros Hi Hs He Hg [F1 F2 F3 F4 F5].
  pose proof (same_frame_gap_list _ _ Hg) as Hgl.
  constructor; rewrite ?Hi, ?Hs, ?He, ?Hgl; auto.
Qed.

Lemma chunk_ok_same s s' c cp :
  start s' = start s -> end_ s' = end_ s -> gaps s' = gaps s ->
  chunk_ok s c cp -> chunk_ok s' c cp.
Proof.
  intros Hs He Hg. unfold chunk_ok.
  pose proof (same_frame_gap_list _ _ Hg) as Hgl.
  rewrite Hs, He, Hgl. auto.
Qed.

Lemma chunk_ok_nil s cp : chunk_ok s [] cp.
Proof. left. reflexivity. Qed.

(** *** Sorted gaps *)

Lemma gaps_sorted_lower lo gs :
  gaps_sorted lo gs -> Forall (fun g => lo <= from g /\ from g < to g) gs.
Proof.
  revert lo. induction gs as [|g gs IH]; intros lo; simpl; [constructor|].
  intros (H1 & H2 & H3). constructor; [auto|].
  eapply Forall_impl; [apply (IH _ H3)|]. simpl. intros g' [? ?]. lia.
Qed.

Lemma gaps_sorted_split lo pre g gs :
  gaps_sorted lo (pre ++ g :: gs) ->
  from g < to g /\ gaps_sorted (to g) gs /\
  Forall (fun g' => to g' <= from g) pre.
Proof.
  revert lo. induction pre as [|g0 pre IH]; intros lo; simpl.
  - intros (H1 & H2 & H3). auto.
  - intros (H1 & H2 & H3). destruct (IH _ H3) as (I1 & I2 & I3).
    repeat split; auto. constructor; [|exact I3].
    apply gaps_sorted_lower in H3. rewrite Forall_app, Forall_cons in H3.
    lia.
Qed.

Lemma gaps_sorted_nonempty lo gs g :
  gaps_sorted lo gs -> g ∈ gs -> from g < to g.
Proof.
  intros Hs Hin. apply gaps_sorted_lower in Hs.
  rewrite Forall_forall in Hs. apply Hs in Hin. lia.
Qed.

(** *** What [getChunk] establishes *)

(** The state [s'] and answer [ok] of [getChunk] on [s], from
    position [p]: the caches are sound, the position has moved forward
    only across gaps, and the stream is inside its chunk ([ok]) or at
    the end of the input. *)
Record Post (p : Z) (s : InputStream) (ok : bool) (s' : InputStream) : Prop := {
  post_frame : same_frame s s';
  post_chunk : chunk_ok s' (chunk s') (chunkPos s');
  post_chunk2 : chunk_ok s' (chunk2 s') (chunk2Pos s');
  post_pos : p <= pos s';
  post_skipped : forall q, p <= q < pos s' -> in_gap (gap_list s) q;
  post_state :
    if ok then 0 <= chunkOff s' < Js.len (chunk s') /\
               chunkOff s' = pos s' - chunkPos s'
    else at_end s'
}.

Lemma Post_step p p1 s s1 ok s' :
  same_frame s s1 -> p <= p1 ->
  (forall q, p <= q < p1 -> in_gap (gap_list s) q) ->
  Post p1 s1 ok s' -> Post p s ok s'.
Proof.
  intros Hsf Hp Hskip [P1 P2 P3 P4 P5 P6].
  assert (Hgl : gap_list s1 = gap_list s)
    by (apply same_frame_gap_list; apply Hsf).
  constructor; auto.
  - eapply same_frame_trans; eauto.
  - lia.
  - intros q Hq. destruct (Z_lt_dec q p1); [apply Hskip; lia|].
    rewrite <- Hgl. apply P5. lia.
Qed.

Lemma removeGaps_loop_spec refetch :
  (forall s1 ok s', refetch s1 = Some (ok, s') -> Cached s1 ->
                    Post (pos s1) s1 ok s') ->
  forall gs pre from_ to_ s ok s',
    removeGaps_loop refetch gs from_ to_ s = Some (ok, s') ->
    Frame s -> gap_list s = pre ++ gs ->
    Forall (fun g => to g <= from_) pre ->
    pos s = from_ -> chunkPos s = from_ -> chunkOff s = 0 ->
    start s <= from_ -> from_ < to_ -> to_ <= end_ s ->
    chunk s = Js.slice text from_ to_ ->
    chunk_ok s (chunk2 s) (chunk2Pos s) ->
    Post from_ s ok s'.
Proof.
  intros Hre gs.
  induction gs as [|g gs IH];
    intros pre from_ to_ s ok s' Hrun HF Hgl Hpre Hpos Hcp Hoff Hstart Hlt Hend
           Hchunk Hc2;
    pose proof (frame_start _ HF) as Hs0; pose proof (frame_end _ HF) as He0;
    pose proof (frame_gaps _ HF) as Hsorted;
    assert (Hlen : Js.len (chunk s) = to_ - from_)
      by (rewrite Hchunk; apply slice_len; lia);
    simpl in Hrun.
  - (* no gap left: the chunk stands *)
    injection Hrun as <- <-.
    constructor;
      [apply same_frame_refl | | exact Hc2 | lia | intros q Hq; lia | lia].
    right. rewrite Hcp, Hlen.
    replace (from_ + (to_ - from_)) with to_ by lia.
    repeat split; auto; try lia.
    intros g Hg. rewrite Hgl, app_nil_r in Hg.
    rewrite Forall_forall in Hpre. left. auto.
  - rewrite Hgl in Hsorted.
    destruct (gaps_sorted_split _ _ _ _ Hsorted) as (Hg & Hrest & Hbefore).
    pose proof (gaps_sorted_lower _ _ Hrest) as Hafter.
    rewrite Forall_forall in Hpre, Hbefore, Hafter.
    destruct (Z.leb_spec to_ (from g)) as [Hbrk|Hin].
    + (* the gap starts after the chunk *)
      injection Hrun as <- <-.
      constructor;
        [apply same_frame_refl | | exact Hc2 | lia | intros q Hq; lia | lia].
      right. rewrite Hcp, Hlen.
      replace (from_ + (to_ - from_)) with to_ by lia.
      repeat split; auto; try lia.
      intros g' Hg'. rewrite Hgl in Hg'.
      apply elem_of_app in Hg' as [Hg'|Hg']; [left; auto|].
      apply elem_of_cons in Hg' as [->|Hg']; [right; lia|].
      apply Hafter in Hg'. right. lia.
    + destruct (Z.ltb_spec from_ (to g)) as [Hov|Hpast].
      * destruct (Z.ltb_spec from_ (from g)) as [Hcut|Hinside].
        -- (* the gap starts inside the chunk: cut the chunk there *)
           injection Hrun as <- <-.
           assert (Hnew : Js.slice (chunk s) 0 (from g - from_)
                          = Js.slice text from_ (from g)).
           { rewrite Hchunk, slice_prefix by lia. f_equal. lia. }
           assert (Hnewlen : Js.len (Js.slice (chunk s) 0 (from g - from_))
                             = from g - from_).
           { rewrite Hnew. apply slice_len; lia. }
           constructor; cbn;
             [repeat split | | exact Hc2 | lia | intros q Hq; lia | lia].
           right. ss. rewrite Hcp, Hnewlen.
           replace (from_ + (from g - from_)) with (from g) by lia.
           repeat split; auto; try lia.
           intros g' Hg'. rewrite Hgl in Hg'.
           apply elem_of_app in Hg' as [Hg'|Hg']; [left; auto|].
           apply elem_of_cons in Hg' as [->|Hg']; [right; lia|].
           apply Hafter in Hg'. right. lia.
        -- (* the chunk starts inside the gap: jump to its end *)
           assert (Hjump : forall q, from_ <= q < to g -> in_gap (gap_list s) q).
           { intros q Hq. exists g. split; [|lia].
             rewrite Hgl. apply elem_of_app. right. left. }
           destruct (Z.ltb_spec (to g) to_) as [Hmore|Hnone].
           ++ eapply (Post_step from_ (to g) s); [| lia | exact Hjump |].
              2: { eapply (IH (pre ++ [g]) (to g) to_ _ ok s' Hrun); cbn; auto;
                   try lia.
                   - eapply Frame_same; [..|exact HF]; reflexivity.
                   - ss. rewrite Hgl, <- app_assoc. reflexivity.
                   - apply Forall_app. split.
                     + apply Forall_forall. intros g' Hg'. apply Hpre in Hg'. lia.
                     + repeat constructor. lia.
                   - rewrite Hchunk, slice_suffix by lia. f_equal. lia. }
              repeat split.
           ++ eapply (Post_step from_ (to g) s); [| lia | exact Hjump |].
              2: { pose proof (Hre _ ok s' Hrun) as Hpost. cbn in Hpost.
                   apply Hpost. constructor; cbn; auto using chunk_ok_nil; try lia.
                   eapply Frame_same; [..|exact HF]; reflexivity. }
              repeat split.
      * (* the gap ends before the chunk *)
        eapply (IH (pre ++ [g]) from_ to_ s ok s' Hrun); auto.
        -- rewrite Hgl, <- app_assoc. reflexivity.
        -- apply Forall_app. split; [apply Forall_forall; auto|].
           repeat constructor. lia.
Qed.


Lemma getChunk_fuel_spec (fuel : nat) : forall s ok s',
  getChunk_fuel fuel s = Some (ok, s') -> Cached s -> Post (pos s) s ok s'.
Proof.
  induction fuel as [|fuel IH]; intros s ok s' Hrun [HF Hc Hc2 Hpos];
    [discriminate|].
  pose proof (frame_start _ HF) as Hs0. pose proof (frame_end _ HF) as He0.
  simpl in Hrun.
  destruct ((chunk2Pos s <=? pos s)
            && (pos s <? chunk2Pos s + Js.len (chunk2 s))) eqn:Hswap.
  { (* the position is in the backup chunk: swap the chunks *)
    apply andb_true_iff in Hswap as [Hlo Hhi].
    apply Z.leb_le in Hlo. apply Z.ltb_lt in Hhi.
    injection Hrun as <- <-.
    constructor; cbn;
      [repeat split | | | lia | intros q Hq; lia | lia].
    - eapply chunk_ok_same; [..|exact Hc2]; reflexivity.
    - eapply chunk_ok_same; [..|exact Hc]; reflexivity. }
  clear Hswap.
  destruct (Z.leb_spec (end_ s) (pos s)) as [Hend|Hend].
  { (* at the end of the input *)
    injection Hrun as <- <-.
    constructor; cbn;
      [repeat split | apply chunk_ok_nil | | lia | intros q Hq; lia
      | repeat split; auto ].
    eapply chunk_ok_same; [..|exact Hc2]; reflexivity. }
  (* fetch a chunk *)
  cbn in Hrun.
  destruct (frame_input _ HF) as [Hchunkfn _].
  destruct (Hchunkfn (pos s) ltac:(lia)) as (n & Hn & Hfit & Hfetch).
  rewrite Hfetch in Hrun.
  rewrite (slice_len text (pos s) (pos s + n)) in Hrun by lia.
  set (c := if end_ s <? pos s + (pos s + n - pos s)
            then Js.slice (Js.slice text (pos s) (pos s + n)) 0 (end_ s - pos s)
            else Js.slice text (pos s) (pos s + n)) in *.
  assert (Hc' : exists to_, pos s < to_ /\ to_ <= end_ s /\
                            c = Js.slice text (pos s) to_).
  { subst c. destruct (Z.ltb_spec (end_ s) (pos s + (pos s + n - pos s))).
    - exists (end_ s). rewrite slice_prefix by lia.
      repeat split; [lia | lia | f_equal; lia].
    - exists (pos s + n). repeat split; lia. }
  destruct Hc' as (to_ & Hto1 & Hto2 & Hceq).
  assert (Hclen : Js.len c = to_ - pos s)
    by (rewrite Hceq; apply slice_len; lia).
  clearbody c.
  destruct (gaps s) as [gs|] eqn:Hgaps.
  - rewrite Hclen in Hrun.
    replace (pos s + (to_ - pos s)) with to_ in Hrun by lia.
    eapply (Post_step (pos s) (pos s) s);
      [| lia | intros q Hq; lia
       | eapply (removeGaps_loop_spec _ (IH) gs [] (pos s) to_ _ ok s' Hrun);
         cbn; auto; try lia ].
    + repeat split.
    + eapply Frame_same; [..|exact HF]; reflexivity.
    + unfold gap_list; cbn; rewrite Hgaps; reflexivity.
  - injection Hrun as <- <-.
    constructor; cbn;
      [repeat split | | | lia | intros q Hq; lia | lia].
    + right; ss; rewrite Hclen.
      replace (pos s + (to_ - pos s)) with to_ by lia.
      repeat split; auto; try lia.
      intros g Hg; unfold gap_list in Hg; rewrite Hgaps in Hg; inversion Hg.
    + eapply chunk_ok_same; [..|exact Hc]; reflexivity.
Qed.

Lemma getChunk_spec (s : InputStream) :
  Cached s -> Post (pos s) s (getChunk s).1 (getChunk s).2.
Proof.
  intros HC. pose proof (getChunk_total s) as Hrun.
  destruct (getChunk s) as [ok s']. simpl.
  eapply getChunk_fuel_spec; eauto.
Qed.


(** *** The invariant is kept *)

(** Two states that differ at most in the token objects. *)
Definition same_cache (s s' : InputStream) : Prop :=
  chunk s' = chunk s /\ chunkOff s' = chunkOff s /\ chunkPos s' = chunkPos s /\
  chunk2 s' = chunk2 s /\ chunk2Pos s' = chunk2Pos s /\ next s' = next s /\
  pos s' = pos s /\ input s' = input s /\ start s' = start s /\
  end_ s' = end_ s /\ gaps s' = gaps s.

Lemma same_cache_refl s : same_cache s s.
Proof. repeat split. Qed.

Lemma Cached_same s s' :
  chunk s' = chunk s -> chunkPos s' = chunkPos s ->
  chunk2 s' = chunk2 s -> chunk2Pos s' = chunk2Pos s ->
  pos s' = pos s -> input s' = input s -> start s' = start s ->
  end_ s' = end_ s -> gaps s' = gaps s ->
  Cached s -> Cached s'.
Proof.
  intros E1 E3 E4 E5 E7 E8 E9 E10 E11 [HF Hc Hc2 Hp].
  constructor.
  - eapply Frame_same; [..|exact HF]; auto.
  - rewrite E1, E3. eapply chunk_ok_same; [..|exact Hc]; auto.
  - rewrite E4, E5. eapply chunk_ok_same; [..|exact Hc2]; auto.
  - rewrite E7, E9. exact Hp.
Qed.

Lemma Cached_same_cache s s' : same_cache s s' -> Cached s -> Cached s'.
Proof.
  intros (E1&E2&E3&E4&E5&E6&E7&E8&E9&E10&E11). apply Cached_same; auto.
Qed.

Lemma Inv_same_cache s s' : same_cache s s' -> Inv s -> Inv s'.
Proof.
  intros Hsc [HC Hpos]. constructor; [eapply Cached_same_cache; eauto|].
  destruct Hsc as (E1&E2&E3&E4&E5&E6&E7&E8&E9&E10&E11).
  unfold at_end, in_chunk in *. rewrite E1, E2, E3, E6, E7, E10. exact Hpos.
Qed.

Lemma same_cache_write_token t s : same_cache s (write_token t s).
Proof. unfold write_token. destruct (token s); repeat split. Qed.

Lemma same_cache_note_lookAhead p s : same_cache s (note_lookAhead p s).
Proof.
  unfold note_lookAhead. destruct (_ <? _);
    [apply same_cache_write_token | apply same_cache_refl].
Qed.

(** A state [readNext] may be called in: the caches are sound and
    the chunk is used up or holds the position. *)
Definition Ready (s : InputStream) : Prop :=
  Cached s /\
  (chunkOff s = Js.len (chunk s) \/
   (0 <= chunkOff s < Js.len (chunk s) /\ chunkOff s = pos s - chunkPos s)).

Lemma Cached_of_Post p s ok s' :
  Cached s -> pos s <= p -> Post p s ok s' -> Cached s'.
Proof.
  intros [HF Hc Hc2 Hp] Hle [(E1&E2&E3&E4&E5&E6) P2 P3 P4 P5 P6].
  constructor; auto.
  - eapply Frame_same; [..|exact HF]; auto.
  - rewrite E2. lia.
Qed.

Lemma readNext_spec (s : InputStream) :
  Ready s ->
  Inv (readNext s) /\ same_frame s (readNext s) /\
  pos s <= pos (readNext s) /\
  (forall q, pos s <= q < pos (readNext s) -> in_gap (gap_list s) q).
Proof.
  intros [HC Hoff]. unfold readNext.
  destruct (Z.eqb_spec (chunkOff s) (Js.len (chunk s))) as [Heq|Hne].
  - pose proof (getChunk_spec s HC) as HP.
    pose proof (Cached_of_Post (pos s) s _ _ HC (Z.le_refl _) HP) as HC'.
    destruct (getChunk s) as [ok s']. simpl in HP, HC'.
    destruct HP as [Hsf P2 P3 P4 P5 P6]. destruct ok.
    + split; [|split; [|split]]; cbn; auto.
      * constructor.
        -- eapply Cached_same; [..|exact HC']; reflexivity.
        -- right. unfold in_chunk. cbn. tauto.
    + split; [|split; [|split]]; auto.
      constructor; auto.
  - destruct Hoff as [Hoff|[Hoff1 Hoff2]]; [contradiction|].
    split; [|split; [|split]].
    + constructor.
      * eapply Cached_same; [..|exact HC]; reflexivity.
      * right. unfold in_chunk. cbn. tauto.
    + repeat split.
    + cbn. lia.
    + cbn. intros q Hq. lia.
Qed.

(** What the stream is looking at when it is inside its chunk. *)
Lemma in_chunk_next (s : InputStream) :
  Cached s ->
  0 <= chunkOff s < Js.len (chunk s) -> chunkOff s = pos s - chunkPos s ->
  exists c, Js.charCodeAt (chunk s) (chunkOff s) = Some c /\ 0 <= c /\
            Js.index text (pos s) = Some c /\
            pos s < end_ s /\ ~ in_gap (gap_list s) (pos s).
Proof.
  intros [HF Hc _ _] Hoff Hpos.
  pose proof (frame_start _ HF). pose proof (frame_end _ HF).
  destruct Hc as [Hnil|(Hcp & Hfit & Hceq & Hfree)];
    [rewrite Hnil in Hoff; unfold Js.len in Hoff; simpl in Hoff; lia|].
  assert (Hidx : Js.charCodeAt (chunk s) (chunkOff s) = Js.index text (pos s)).
  { unfold Js.charCodeAt. rewrite Hceq at 1.
    rewrite slice_index by lia. f_equal. lia. }
  assert (Hin : is_Some (Js.index text (pos s))).
  { unfold Js.index. destruct (Z.ltb_spec (pos s) 0); [lia|].
    apply lookup_lt_is_Some_2. unfold Js.len in *. lia. }
  destruct Hin as [c Hcval]. exists c. rewrite Hidx.
  repeat split; auto; try lia.
  - pose proof (frame_units _ HF) as Hu. rewrite Forall_forall in Hu.
    apply Hu. unfold Js.index in Hcval.
    destruct (pos s <? 0); [discriminate|].
    eapply list_elem_of_lookup_2; eauto.
  - intros (g & Hg & Hrange). destruct (Hfree g Hg); lia.
Qed.

Lemma advance_step_spec (s : InputStream) :
  Inv s -> in_chunk s ->
  Inv (advance_step s) /\
  (input (advance_step s) = input s /\ start (advance_step s) = start s /\
   end_ (advance_step s) = end_ s /\ gaps (advance_step s) = gaps s) /\
  pos s + 1 <= pos (advance_step s) /\
  (forall q, pos s + 1 <= q < pos (advance_step s) -> in_gap (gap_list s) q).
Proof.
  intros [HC _] (Hoff & Hpos & _). unfold advance_step.
  set (s1 := set_pos (pos s + 1) (set_chunkOff (chunkOff s + 1) s)).
  set (s2 := note_lookAhead (pos s1) s1).
  pose proof (same_cache_note_lookAhead (pos s1) s1) as Hsc. fold s2 in Hsc.
  assert (HR : Ready s2).
  { split.
    - eapply Cached_same_cache; [exact Hsc|].
      destruct HC as [HF Hc Hc2 Hp]. constructor; cbn; auto; try lia.
      eapply Frame_same; [..|exact HF]; reflexivity.
    - destruct Hsc as (E1&E2&E3&E4&E5&E6&E7&E8&E9&E10&E11).
      rewrite E1, E2, E3, E7. cbn. lia. }
  destruct (readNext_spec s2 HR) as (HI & Hsf & Hle & Hskip).
  destruct Hsc as (E1&E2&E3&E4&E5&E6&E7&E8&E9&E10&E11).
  destruct Hsf as (F1&F2&F3&F4&F5&F6).
  cbn in E7, E8, E9, E10, E11.
  split; [exact HI|]. split; [|split].
  - repeat split; congruence.
  - lia.
  - intros q Hq.
    assert (Hgl : gap_list s2 = gap_list s)
      by (apply same_frame_gap_list; exact E11).
    rewrite <- Hgl. apply Hskip. lia.
Qed.


Lemma reset_spec (s : InputStream) (p : Z) (tok : option CachedToken) :
  Inv s -> start s <= p ->
  Inv (reset s p tok) /\
  (input (reset s p tok) = input s /\ start (reset s p tok) = start s /\
   end_ (reset s p tok) = end_ s /\ gaps (reset s p tok) = gaps s) /\
  p <= pos (reset s p tok) /\
  (forall q, p <= q < pos (reset s p tok) -> in_gap (gap_list s) q).
Proof.
  intros HI Hp. unfold reset.
  set (s1 := match tok with Some t => _ | None => _ end).
  assert (Hsc : same_cache s s1) by (subst s1; destruct tok; repeat split).
  pose proof (Inv_same_cache _ _ Hsc HI) as HI1.
  destruct Hsc as (E1&E2&E3&E4&E5&E6&E7&E8&E9&E10&E11).
  destruct (Z.eqb_spec (pos s1) p) as [Heq|Hne].
  - split; [exact HI1|]. split; [auto|]. split; [lia|]. intros q Hq. lia.
  - destruct HI1 as [[HF Hc Hc2 Hpos] _].
    match goal with |- context [readNext ?x] => set (s3 := x) end.
    assert (HR : Ready s3).
    { subst s3. cbn.
      destruct (Z.leb_spec (chunkPos s1) p) as [Hlo|Hlo];
        [destruct (Z.ltb_spec p (chunkPos s1 + Js.len (chunk s1))) as [Hhi|Hhi]|];
        cbn.
      - split; [|right; cbn; lia].
        constructor; cbn; auto; try lia.
        eapply Frame_same; [..|exact HF]; reflexivity.
      - split; [|left; reflexivity].
        constructor; cbn; auto using chunk_ok_nil; try lia.
        eapply Frame_same; [..|exact HF]; reflexivity.
      - split; [|left; reflexivity].
        constructor; cbn; auto using chunk_ok_nil; try lia.
        eapply Frame_same; [..|exact HF]; reflexivity. }
    destruct (readNext_spec s3 HR) as (HI3 & (F1&F2&F3&F4&F5&F6) & Hle & Hskip).
    assert (Hs3 : input s3 = input s /\ start s3 = start s /\
                  end_ s3 = end_ s /\ gaps s3 = gaps s /\ pos s3 = p).
    { subst s3. destruct (_ && _); cbn; auto. }
    destruct Hs3 as (G1&G2&G3&G4&G5).
    split; [exact HI3|]. split; [|split].
    + repeat split; congruence.
    + lia.
    + intros q Hq.
      rewrite <- (same_frame_gap_list s s3 G4). apply Hskip. lia.
Qed.

Lemma new_InputStream_Inv (nullTok : CachedToken) (inp : Input)
    (start_ end' : Z) (gs : option (list InputGap)) :
  InputOK inp -> Forall (fun c => 0 <= c) text ->
  0 <= start_ <= end' -> end' <= Js.len text ->
  gaps_sorted 0 (match gs with Some l => l | None => [] end) ->
  Inv (new_InputStream nullTok inp start_ end' gs) /\
  start_ <= pos (new_InputStream nullTok inp start_ end' gs).
Proof.
  intros Hin Hu Hr He Hg. unfold new_InputStream.
  match goal with |- context [readNext ?x] => set (s0 := x) end.
  assert (HR : Ready s0).
  { split; [|left; reflexivity].
    constructor; cbn; auto using chunk_ok_nil; try lia.
    constructor; cbn; auto.
    unfold gap_list. cbn. destruct gs as [[|g l]|]; auto. }
  destruct (readNext_spec s0 HR) as (HI & _ & Hle & _).
  split; [exact HI | exact Hle].
Qed.

Lemma peek_Inv (s : InputStream) (k : Z) : Inv s -> Inv (peek s k).2.
Proof.
  intros HI. unfold peek. destruct (peek_at s k) as [p r]. simpl.
  eapply Inv_same_cache; [apply same_cache_note_lookAhead | exact HI].
Qed.

Lemma acceptToken_Inv (s : InputStream) (t e : Z) :
  Inv s -> Inv (acceptToken s t e).
Proof.
  intros HI. unfold acceptToken.
  eapply Inv_same_cache; [apply same_cache_write_token | exact HI].
Qed.

Lemma advance_loop_Inv (n : nat) : forall s,
  Inv s -> Inv (advance_loop n s).2.
Proof.
  induction n as [|n IH]; intros s HI; simpl; [exact HI|].
  destruct (Js.lt (next s) (Some 0)) eqn:Hlt; [exact HI|].
  apply IH. apply advance_step_spec; [exact HI|].
  destruct (inv_pos _ HI) as [(_&_&Hnext&_)|Hin]; [|exact Hin].
  rewrite Hnext in Hlt. discriminate.
Qed.

Lemma advance_Inv (s : InputStream) (n : Z) : Inv s -> Inv (advance s n).2.
Proof. apply advance_loop_Inv. Qed.


(** *** [resolvePos] *)

(** The backward loop never changes the offset: once a gap ends at
    or before [pos], it also ends before [pos - offset], and the loop
    has already stopped. *)
Lemma resolve_backward_same (rgs : list InputGap) (p offset : Z) :
  offset < 0 -> resolve_backward rgs p offset = offset.
Proof.
  intros Hneg. induction rgs as [|g rgs IH]; simpl; [reflexivity|].
  destruct (Z.leb_spec (to g) (p - offset)); [reflexivity|].
  destruct (Z.leb_spec (to g) p); [lia | exact IH].
Qed.

Lemma resolve_forward_spec (p : Z) (gs : list InputGap) : forall lo offset,
  gaps_sorted lo gs ->
  (forall g, g ∈ gs -> ~ (from g <= p < to g)) ->
  0 <= offset ->
  offset <= resolve_forward gs p offset /\
  forall g, g ∈ gs -> ~ (from g <= p + resolve_forward gs p offset < to g).
Proof.
  induction gs as [|g gs IH]; intros lo offset Hs Hp Hoff; simpl.
  - split; [lia|]. intros g Hg. inversion Hg.
  - destruct Hs as (Hlo & Hg & Hrest).
    pose proof (gaps_sorted_lower _ _ Hrest) as Hafter.
    rewrite Forall_forall in Hafter.
    destruct (Z.ltb_spec (p + offset) (from g)) as [Hstop|Hgo].
    + split; [lia|]. intros g' Hg'.
      apply elem_of_cons in Hg' as [->|Hg']; [lia|].
      apply Hafter in Hg'. lia.
    + assert (Hrestp : forall g', g' ∈ gs -> ~ (from g' <= p < to g'))
        by (intros g' Hg'; apply Hp; right; exact Hg').
      pose proof (Hp g ltac:(left)) as Hpg.
      destruct (Z.ltb_spec p (from g)) as [Hbefore|Hpast].
      * destruct (IH (to g) (offset + (to g - from g)) Hrest Hrestp ltac:(lia))
          as [Hle Hnot].
        split; [lia|]. intros g' Hg'.
        apply elem_of_cons in Hg' as [->|Hg']; [lia | auto].
      * destruct (IH (to g) offset Hrest Hrestp Hoff) as [Hle Hnot].
        split; [lia|]. intros g' Hg'.
        apply elem_of_cons in Hg' as [->|Hg']; [lia | auto].
Qed.

(** Inside a stretch that no gap touches the forward loop adds
    nothing. *)
Lemma resolve_forward_free (p hi cp : Z) (gs : list InputGap) : forall offset,
  (forall g, g ∈ gs -> from g < to g /\ (to g <= cp \/ hi <= from g)) ->
  cp <= p -> p + offset < hi ->
  resolve_forward gs p offset = offset.
Proof.
  induction gs as [|g gs IH]; intros offset Hfree Hcp Hhi; simpl; [reflexivity|].
  destruct (Z.ltb_spec (p + offset) (from g)); [reflexivity|].
  destruct (Hfree g ltac:(left)) as [Hne Hside].
  destruct (Z.ltb_spec p (from g)); [lia|].
  apply IH; auto. intros g' Hg'. apply Hfree. right. exact Hg'.
Qed.

(** In a stream that satisfies the invariant, [peek] looks at the
    position [resolvePos] gives, also when it reads from the chunk. *)
Lemma peek_at_resolved (s : InputStream) (k : Z) :
  Inv s -> (peek_at s k).1 = resolvePos s (pos s) k.
Proof.
  intros [[HF Hc _ _] Hpos]. unfold peek_at.
  destruct ((0 <=? chunkOff s + k) && (chunkOff s + k <? Js.len (chunk s)))
    eqn:Hidx; [|reflexivity].
  apply andb_true_iff in Hidx as [H0 H1].
  apply Z.leb_le in H0. apply Z.ltb_lt in H1. simpl.
  destruct Hpos as [(Hnil&_)|(Hoff & Hrel & _)];
    [rewrite Hnil in H1; unfold Js.len in H1; simpl in H1; lia|].
  destruct Hc as [Hnil|(Hcp & Hfit & Hceq & Hfree)];
    [rewrite Hnil in H1; unfold Js.len in H1; simpl in H1; lia|].
  unfold resolvePos. pose proof (frame_gaps _ HF) as Hsorted.
  unfold gap_list in *. destruct (gaps s) as [gs|]; [|reflexivity].
  destruct (Z.eqb_spec k 0); [reflexivity|].
  destruct (Z.ltb_spec k 0).
  - rewrite resolve_backward_same by lia. reflexivity.
  - rewrite (resolve_forward_free (pos s) (chunkPos s + Js.len (chunk s))
               (chunkPos s)); [reflexivity | | lia | lia].
    intros g Hg. split; [eapply gaps_sorted_nonempty; eauto | auto].
Qed.

(** *** Where the stream is *)

Lemma Inv_at_end (s : InputStream) :
  Inv s -> end_ s <= pos s -> at_end s.
Proof.
  intros [HC [Hend|(Hoff & Hrel & Hnext)]] Hge; [exact Hend|].
  destruct (in_chunk_next s HC Hoff Hrel) as (c & _ & _ & _ & Hlt & _). lia.
Qed.

Lemma Inv_inside (s : InputStream) :
  Inv s -> pos s < end_ s ->
  exists c, next s = Some c /\ 0 <= c /\ Js.index text (pos s) = Some c /\
            ~ in_gap (gap_list s) (pos s).
Proof.
  intros [HC [(_&_&_&Hend)|(Hoff & Hrel & Hnext)]] Hlt; [lia|].
  destruct (in_chunk_next s HC Hoff Hrel) as (c & Hc & H0 & Hidx & _ & Hgap).
  exists c. rewrite Hnext. auto.
Qed.



(** *** What [peek] returns *)

Lemma resolve_forward_ge (p : Z) (gs : list InputGap) : forall lo offset,
  gaps_sorted lo gs -> offset <= resolve_forward gs p offset.
Proof.
  induction gs as [|g gs IH]; intros lo offset Hs; simpl; [lia|].
  destruct Hs as (Hlo & Hg & Hrest).
  destruct (p + offset <? from g); [lia|].
  destruct (p <? from g).
  - pose proof (IH _ (offset + (to g - from g)) Hrest). lia.
  - apply (IH _ _ Hrest).
Qed.

(** A cell of the current chunk is the code unit of the document at
    its position, inside [start, end) and outside every gap. *)
Lemma chunk_cell (s : InputStream) (k : Z) :
  Inv s -> 0 <= chunkOff s + k < Js.len (chunk s) ->
  start s <= pos s + k < end_ s /\
  Js.charCodeAt (chunk s) (chunkOff s + k) = Js.index text (pos s + k) /\
  ~ in_gap (gap_list s) (pos s + k).
Proof.
  intros [[HF Hc _ _] Hpos] Hidx.
  pose proof (frame_start _ HF). pose proof (frame_end _ HF).
  destruct Hpos as [(Hnil&_)|(Hoff & Hrel & _)];
    [rewrite Hnil in Hidx; unfold Js.len in Hidx; simpl in Hidx; lia|].
  destruct Hc as [Hnil|(Hcp & Hfit & Hceq & Hfree)];
    [rewrite Hnil in Hidx; unfold Js.len in Hidx; simpl in Hidx; lia|].
  split; [lia|]. split.
  - unfold Js.charCodeAt. rewrite Hceq at 1.
    rewrite slice_index by lia. f_equal. lia.
  - intros (g & Hg & Hrange). destruct (Hfree g Hg); lia.
Qed.

Lemma peek_value (s : InputStream) (k : Z) :
  Inv s -> start s <= resolvePos s (pos s) k ->
  (peek s k).1 =
  if end_ s <=? resolvePos s (pos s) k then Some (-1)
  else Js.index text (resolvePos s (pos s) k).
Proof.
  intros HI Hstart. rewrite <- (peek_at_resolved s k HI) in *.
  unfold peek. destruct (peek_at s k) as [p r] eqn:Hat. simpl in *.
  unfold peek_at in Hat.
  destruct ((0 <=? chunkOff s + k) && (chunkOff s + k <? Js.len (chunk s)))
    eqn:Hidx.
  - apply andb_true_iff in Hidx as [H0 H1].
    apply Z.leb_le in H0. apply Z.ltb_lt in H1.
    injection Hat as <- <-.
    destruct (chunk_cell s k HI ltac:(lia)) as (Hin & Hcell & _).
    destruct (Z.leb_spec (end_ s) (pos s + k)); [lia | exact Hcell].
  - injection Hat as Hp <-. rewrite Hp.
    destruct (Z.ltb_spec p (start s)); [lia|]. simpl.
    destruct (Z.leb_spec (end_ s) p); [reflexivity|].
    destruct HI as [[HF _ _ _] _].
    pose proof (frame_start _ HF). pose proof (frame_end _ HF).
    destruct (frame_input _ HF) as [_ Hread].
    rewrite Hread by lia. unfold Js.charCodeAt.
    rewrite slice_index by lia. f_equal. lia.
Qed.

Lemma peek_outside (s : InputStream) (k : Z) :
  Inv s ->
  resolvePos s (pos s) k < start s \/ end_ s <= resolvePos s (pos s) k ->
  (peek s k).1 = Some (-1).
Proof.
  intros HI Hout. rewrite <- (peek_at_resolved s k HI) in Hout.
  unfold peek. destruct (peek_at s k) as [p r] eqn:Hat. simpl in *.
  unfold peek_at in Hat.
  destruct ((0 <=? chunkOff s + k) && (chunkOff s + k <? Js.len (chunk s)))
    eqn:Hidx.
  - apply andb_true_iff in Hidx as [H0 H1].
    apply Z.leb_le in H0. apply Z.ltb_lt in H1.
    injection Hat as <- <-.
    destruct (chunk_cell s k HI ltac:(lia)) as (Hin & _). lia.
  - injection Hat as Hp <-. rewrite Hp.
    destruct (Z.ltb_spec p (start s)); [reflexivity|].
    destruct (Z.leb_spec (end_ s) p); [reflexivity | lia].
Qed.

Lemma advance_at_end (s : InputStream) (n : Z) :
  Inv s -> end_ s <= pos s -> advance s n = (Some (-1), s).
Proof.
  intros HI Hend. destruct (Inv_at_end s HI Hend) as (_ & _ & Hnext & _).
  unfold advance. destruct (Z.to_nat n); simpl; rewrite Hnext; reflexivity.
Qed.

(** C5. The operations of the stream are total functions: the one
    recursion that is not structural, between [getChunk] and
    [removeGapsFromChunk], always ends.  In a stream that satisfies
    the invariant, [next] is -1 once the position has reached [end],
    [peek] returns -1 when the position it resolves lies outside
    [start, end), and [advance] at the end of the input returns -1 and
    leaves the stream as it is. *)
Theorem stream_out_of_range (s : InputStream) :
  Inv s ->
  getChunk_fuel (S (gap_count s)) s = Some (getChunk s) /\
  (end_ s <= pos s -> next s = Some (-1)) /\
  (forall k,
      resolvePos s (pos s) k < start s \/ end_ s <= resolvePos s (pos s) k ->
      (peek s k).1 = Some (-1)) /\
  (end_ s <= pos s -> forall n, advance s n = (Some (-1), s)).
Proof.
  intros HI. split; [apply getChunk_total|]. split; [|split].
  - intros Hend. apply (Inv_at_end s HI Hend).
  - intros k. apply peek_outside. exact HI.
  - intros Hend n. apply advance_at_end; assumption.
Qed.



(** *** The document with the gaps left out *)

Definition in_gapb (gs : list InputGap) (p : Z) : bool :=
  existsb (fun g => (from g <=? p) && (p <? to g)) gs.

(** The code units at the positions of [a, b) that lie in no gap. *)
Definition visible (gs : list InputGap) (a b : Z) : list Z :=
  omap (Js.index text)
    (List.filter (fun p => negb (in_gapb gs p)) (seqZ a (b - a))).

Lemma in_gapb_spec gs p : in_gapb gs p = true <-> in_gap gs p.
Proof.
  unfold in_gapb, in_gap. rewrite existsb_exists. split.
  - intros (g & Hg & Hr). exists g. apply list_elem_of_In in Hg.
    apply andb_true_iff in Hr as [H1 H2].
    apply Z.leb_le in H1. apply Z.ltb_lt in H2. auto.
  - intros (g & Hg & Hr). exists g. apply list_elem_of_In in Hg.
    split; [exact Hg|]. apply andb_true_iff.
    split; [apply Z.leb_le | apply Z.ltb_lt]; lia.
Qed.

Lemma in_gapb_false gs p : in_gapb gs p = false <-> ~ in_gap gs p.
Proof.
  rewrite <- in_gapb_spec. destruct (in_gapb gs p); split; congruence.
Qed.

Lemma visible_nil gs a b : b <= a -> visible gs a b = [].
Proof. intros H. unfold visible. rewrite seqZ_nil by lia. reflexivity. Qed.

Lemma visible_keep gs a b c :
  a < b -> ~ in_gap gs a -> Js.index text a = Some c ->
  visible gs a b = c :: visible gs (a + 1) b.
Proof.
  intros Hlt Hfree Hc. unfold visible. rewrite seqZ_cons by lia. simpl.
  apply in_gapb_false in Hfree. rewrite Hfree. simpl. rewrite Hc. simpl.
  replace (seqZ (Z.succ a) (Z.pred (b - a))) with (seqZ (a + 1) (b - (a + 1)))
    by (f_equal; lia).
  reflexivity.
Qed.

Lemma visible_drop gs a b :
  a < b -> in_gap gs a -> visible gs a b = visible gs (a + 1) b.
Proof.
  intros Hlt Hin. unfold visible. rewrite seqZ_cons by lia. simpl.
  apply in_gapb_spec in Hin. rewrite Hin. simpl.
  replace (seqZ (Z.succ a) (Z.pred (b - a))) with (seqZ (a + 1) (b - (a + 1)))
    by (f_equal; lia).
  reflexivity.
Qed.

(** Positions inside gaps contribute nothing. *)
Lemma visible_skip gs a a' b :
  a <= a' -> (forall q, a <= q < a' -> in_gap gs q) ->
  visible gs a b = visible gs a' b.
Proof.
  intros Hle. remember (Z.to_nat (a' - a)) as n eqn:Hn.
  revert a Hle Hn. induction n as [|n IH]; intros a Hle Hn Hall.
  - replace a' with a by lia. reflexivity.
  - destruct (Z_lt_dec a b) as [Hlt|Hge].
    + rewrite visible_drop by (auto; apply Hall; lia).
      apply IH; [lia | lia |]. intros q Hq. apply Hall. lia.
    + rewrite !visible_nil by lia. reflexivity.
Qed.

Lemma visible_app gs a m b :
  a <= m <= b -> visible gs a b = visible gs a m ++ visible gs m b.
Proof.
  intros H. unfold visible.
  replace (b - a) with ((m - a) + (b - m)) by lia.
  rewrite seqZ_app by lia. rewrite List.filter_app, omap_app.
  do 4 f_equal. lia.
Qed.

(** Only the gaps that reach into [a, b) matter. *)
Lemma visible_ext gs gs' a b :
  (forall q, a <= q < b -> in_gapb gs q = in_gapb gs' q) ->
  visible gs a b = visible gs' a b.
Proof.
  intros Hext. unfold visible. f_equal.
  apply List.filter_ext_in. intros q Hq.
  apply list_elem_of_In, elem_of_seqZ in Hq. rewrite Hext by lia. reflexivity.
Qed.

Lemma slice_cons (a b c : Z) :
  0 <= a < b -> b <= Js.len text -> Js.index text a = Some c ->
  Js.slice text a b = c :: Js.slice text (a + 1) b.
Proof.
  intros H1 H2 Hc. rewrite !slice_in by lia.
  unfold Js.index in Hc. destruct (Z.ltb_spec a 0); [lia|].
  replace (Z.to_nat (b - a)) with (S (Z.to_nat (b - (a + 1)))) by lia.
  rewrite (drop_S _ _ _ Hc). simpl.
  replace (S (Z.to_nat a)) with (Z.to_nat (a + 1)) by lia. reflexivity.
Qed.

(** A stretch without gaps is a slice of the document. *)
Lemma visible_free gs a b :
  0 <= a <= b -> b <= Js.len text ->
  (forall q, a <= q < b -> ~ in_gap gs q) ->
  visible gs a b = Js.slice text a b.
Proof.
  intros Hab Hb. remember (Z.to_nat (b - a)) as n eqn:Hn.
  revert a Hab Hn. induction n as [|n IH]; intros a Hab Hn Hall.
  - replace b with a by lia. rewrite visible_nil by lia.
    rewrite slice_empty by lia. reflexivity.
  - assert (Hc : is_Some (Js.index text a)).
    { unfold Js.index. destruct (Z.ltb_spec a 0); [lia|].
      apply lookup_lt_is_Some_2. unfold Js.len in *. lia. }
    destruct Hc as [c Hc].
    rewrite (visible_keep gs a b c) by (auto; try lia; apply Hall; lia).
    rewrite (slice_cons a b c) by (auto; lia).
    f_equal. apply IH; [lia | lia |]. intros q Hq. apply Hall. lia.
Qed.

(** *** [read] *)

Lemma slice_app_l {A} (s1 s2 : list A) i j :
  0 <= i <= j -> j <= Js.len s1 ->
  Js.slice (s1 ++ s2) i j = Js.slice s1 i j.
Proof.
  intros H1 H2. pose proof (len_app s1 s2). pose proof (len_nonneg s2).
  rewrite !slice_in by lia.
  rewrite drop_app_le by (unfold Js.len in *; lia).
  rewrite take_app_le; [reflexivity|].
  rewrite length_drop. unfold Js.len in *. lia.
Qed.

Lemma slice_from_app_r {A} (s1 s2 : list A) :
  Js.slice_from (s1 ++ s2) (Js.len s1) = s2.
Proof.
  unfold Js.slice_from. pose proof (len_app s1 s2).
  pose proof (len_nonneg s1). pose proof (len_nonneg s2).
  rewrite slice_in by lia. unfold Js.len in *.
  rewrite Nat2Z.id, drop_app_length.
  apply take_ge. lia.
Qed.

Lemma slice_from_end {A} (s : list A) : Js.slice_from s (Js.len s) = [].
Proof.
  unfold Js.slice_from. apply slice_empty. pose proof (len_nonneg s). lia.
Qed.


Lemma in_gapb_cons g gs q :
  in_gapb (g :: gs) q = ((from g <=? q) && (q <? to g)) || in_gapb gs q.
Proof. reflexivity. Qed.

(** Cutting the gaps out of the text of [a, b), last gap first.  After
    the gaps from [lo] on have been cut, the text up to [lo] is still
    whole and the rest has lost what lies in those gaps. *)
Lemma cut_gaps_spec (a b : Z) :
  0 <= a <= b -> b <= Js.len text ->
  forall gs lo, gaps_sorted lo gs ->
    foldr (fun g v => cut_gap a b v g) (Js.slice text a b) gs
    = Js.slice text a (Z.max a (Z.min lo b))
        ++ visible gs (Z.max a (Z.min lo b)) b.
Proof.
  intros Hab Hb gs. induction gs as [|g gs IH]; intros lo Hs; simpl.
  - rewrite visible_free; [| lia | lia |].
    + rewrite slice_app by lia. reflexivity.
    + intros q _ (g & Hg & _). inversion Hg.
  - destruct Hs as (Hlo & Hg & Hrest).
    pose proof (gaps_sorted_lower _ _ Hrest) as Hafter.
    rewrite Forall_forall in Hafter.
    rewrite (IH _ Hrest).
    set (c := Z.max a (Z.min lo b)).
    set (cf := Z.max a (Z.min (from g) b)).
    set (c' := Z.max a (Z.min (to g) b)).
    assert (Horder : a <= c /\ c <= cf /\ cf <= c' /\ c' <= b) by lia.
    (* the goal, with the three stretches of [c, b) told apart *)
    assert (Hgoal : Js.slice text a c ++ visible (g :: gs) c b
                    = Js.slice text a cf ++ visible gs c' b).
    { rewrite (visible_app (g :: gs) c cf b) by lia.
      rewrite (visible_free (g :: gs) c cf); [| lia | lia |].
      - rewrite app_assoc, slice_app by lia. f_equal.
        rewrite (visible_skip (g :: gs) cf c' b); [| lia |].
        + apply visible_ext. intros q Hq. rewrite in_gapb_cons.
          destruct (Z.leb_spec (from g) q), (Z.ltb_spec q (to g)); simpl;
            try reflexivity; lia.
        + intros q Hq. exists g. split; [left | lia].
      - intros q Hq (g' & Hg' & Hr).
        apply elem_of_cons in Hg' as [->|Hg']; [lia|].
        apply Hafter in Hg'. lia. }
    rewrite Hgoal. unfold cut_gap.
    assert (Hlen1 : Js.len (Js.slice text a c') = c' - a)
      by (apply slice_len; lia).
    destruct (Z.ltb_spec a (to g)) as [Hov1|Hno];
      [destruct (Z.ltb_spec (from g) b) as [Hov2|Hno]|]; simpl.
    + (* the gap reaches into [a, b) *)
      f_equal.
      * replace (Z.max 0 (from g - a)) with (cf - a) by lia.
        rewrite slice_app_l by lia. rewrite slice_prefix by lia.
        f_equal. lia.
      * destruct (Z_le_dec (to g) b) as [Hin|Hout].
        -- rewrite len_app, Hlen1.
           pose proof (len_nonneg (visible gs c' b)).
           replace (Z.min (c' - a + Js.len (visible gs c' b)) (to g - a))
             with (Js.len (Js.slice text a c')) by lia.
           apply slice_from_app_r.
        -- assert (Hnil : visible gs c' b = []) by (apply visible_nil; lia).
           rewrite Hnil, app_nil_r, Hlen1.
           replace (Z.min (c' - a) (to g - a))
             with (Js.len (Js.slice text a c')) by lia.
           apply slice_from_end.
    + f_equal. f_equal. lia.
    + f_equal. f_equal. lia.
Qed.

(** C7. For [0 <= from <= to] inside the document, [read] returns
    the text of [from, to) without the code units that lie in a gap. *)
Theorem read_removes_gaps (s : InputStream) (from_ to_ : Z) :
  Inv s -> 0 <= from_ <= to_ -> to_ <= Js.len text ->
  read s from_ to_ = visible (gap_list s) from_ to_.
Proof.
  intros [[HF Hc _ _] _] Hft Hto. unfold read.
  assert (Hval : (if (chunkPos s <=? from_)
                      && (to_ <=? chunkPos s + Js.len (chunk s))
                  then Js.slice (chunk s) (from_ - chunkPos s) (to_ - chunkPos s)
                  else input_read (input s) from_ to_)
                 = Js.slice text from_ to_).
  { destruct (Z.leb_spec (chunkPos s) from_) as [Hlo|Hlo];
      [destruct (Z.leb_spec to_ (chunkPos s + Js.len (chunk s))) as [Hhi|Hhi]|];
      simpl; try (apply (frame_input _ HF); lia).
    pose proof (frame_start _ HF). pose proof (frame_end _ HF).
    destruct Hc as [Hnil|(Hcp & Hfit & Hceq & Hfree)].
    - rewrite Hnil in *. unfold Js.len in Hhi. simpl in Hhi.
      assert (from_ = to_) by lia. subst to_.
      replace (from_ - chunkPos s) with 0 by lia.
      rewrite (slice_empty text) by lia. reflexivity.
    - rewrite Hceq. rewrite slice_inner by lia. f_equal; lia. }
  rewrite Hval.
  pose proof (frame_gaps _ HF) as Hsorted. unfold gap_list in *.
  destruct (gaps s) as [gs|].
  - rewrite <- (rev_involutive gs) at 2.
    rewrite <- (fold_left_rev_right (fun g v => cut_gap from_ to_ v g)).
    rewrite rev_involutive.
    rewrite (cut_gaps_spec from_ to_ Hft Hto gs 0 Hsorted).
    replace (Z.max from_ (Z.min 0 to_)) with from_ by lia.
    rewrite slice_empty by lia. reflexivity.
  - symmetry. apply visible_free; [lia | lia |].
    intros q _ (g & Hg & _). inversion Hg.
Qed.


(** *** The position never rests inside a gap *)

(** Every gap ends at or before the end of the range of the stream. *)
Definition gaps_within (s : InputStream) : Prop :=
  Forall (fun g => to g <= end_ s) (gap_list s).

Lemma chunk_gap_free (s : InputStream) (c : list Z) (cp i : Z) :
  chunk_ok s c cp -> 0 <= i < Js.len c -> ~ in_gap (gap_list s) (cp + i).
Proof.
  intros [Hnil|(_ & _ & _ & Hfree)] Hi.
  - rewrite Hnil in Hi. unfold Js.len in Hi. simpl in Hi. lia.
  - intros (g & Hg & Hr). destruct (Hfree g Hg); lia.
Qed.

Lemma past_end_no_gap (s : InputStream) (p : Z) :
  gaps_within s -> end_ s <= p -> ~ in_gap (gap_list s) p.
Proof.
  unfold gaps_within. rewrite Forall_forall.
  intros Hw Hp (g & Hg & Hr). apply Hw in Hg. lia.
Qed.

Lemma Inv_not_in_gap (s : InputStream) :
  Inv s -> gaps_within s -> ~ in_gap (gap_list s) (pos s).
Proof.
  intros HI Hw. destruct (Z_lt_dec (pos s) (end_ s)) as [Hlt|Hge].
  - destruct (Inv_inside s HI Hlt) as (c & _ & _ & _ & Hfree). exact Hfree.
  - apply past_end_no_gap; [exact Hw | lia].
Qed.

(** [next] is the first code unit that is left of the document from
    [pos] on once the gaps are taken out, and one [advance] moves on
    to the rest. *)
Lemma advance_visible (s : InputStream) :
  Inv s ->
  next s = Some (hd (-1) (visible (gap_list s) (pos s) (end_ s))) /\
  visible (gap_list s) (pos (advance s 1).2) (end_ s)
  = tl (visible (gap_list s) (pos s) (end_ s)).
Proof.
  intros HI. unfold advance. simpl.
  destruct (Z_lt_dec (pos s) (end_ s)) as [Hlt|Hge].
  - destruct (Inv_inside s HI Hlt) as (c & Hn & Hc & Hidx & Hfree).
    rewrite (visible_keep _ _ _ c) by auto. simpl.
    split; [exact Hn|]. rewrite Hn. simpl.
    destruct (Z.ltb_spec c 0); [lia|]. simpl.
    assert (Hin : in_chunk s).
    { destruct (inv_pos _ HI) as [(_&_&_&Hend)|Hin]; [lia | exact Hin]. }
    destruct (advance_step_spec s HI Hin) as (_ & _ & Hle & Hskip).
    symmetry. apply visible_skip; [exact Hle | exact Hskip].
  - destruct (Inv_at_end s HI ltac:(lia)) as (_ & _ & Hn & _).
    rewrite visible_nil by lia. simpl. split; [exact Hn|].
    rewrite Hn. simpl. rewrite visible_nil by lia. reflexivity.
Qed.

(** C6. With gaps that are in order, disjoint and inside the range
    of the stream: after a chunk fetch the position lies in no gap and
    neither does any cell of the chunk; a fetch that starts inside a
    gap leaves the position at or after the end of that gap, and at
    its end exactly unless another gap starts there.  After [advance]
    the invariant holds again, the position and the chunk lie in no
    gap, and [next] runs through the document with the gaps left out. *)
Theorem position_never_in_gap (s0 s : InputStream) :
  Cached s0 -> gaps_within s0 -> Inv s -> gaps_within s ->
  let s1 := (getChunk s0).2 in
  let s' := (advance s 1).2 in
  (~ in_gap (gap_list s0) (pos s1) /\
   (forall i, 0 <= i < Js.len (chunk s1) ->
              ~ in_gap (gap_list s0) (chunkPos s1 + i)) /\
   (forall g, g ∈ gap_list s0 -> from g <= pos s0 < to g ->
              pos s0 < end_ s0 ->
              to g <= pos s1 /\
              (~ in_gap (gap_list s0) (to g) -> pos s1 = to g))) /\
  (Inv s' /\
   ~ in_gap (gap_list s) (pos s') /\
   (forall i, 0 <= i < Js.len (chunk s') ->
              ~ in_gap (gap_list s) (chunkPos s' + i)) /\
   next s = Some (hd (-1) (visible (gap_list s) (pos s) (end_ s))) /\
   visible (gap_list s) (pos s') (end_ s)
   = tl (visible (gap_list s) (pos s) (end_ s))).
Proof.
  intros HC0 Hw0 HI Hw s1 s'. split.
  - pose proof (getChunk_spec s0 HC0) as HP.
    pose proof (Cached_of_Post (pos s0) s0 _ _ HC0 (Z.le_refl _) HP) as HC1.
    fold s1 in HP, HC1.
    destruct HP as [(E1&E2&E3&E4&E5&E6) P2 P3 P4 P5 P6].
    assert (Hgl : gap_list s1 = gap_list s0)
      by (apply same_frame_gap_list; exact E4).
    assert (Hnot : ~ in_gap (gap_list s0) (pos s1)).
    { destruct (getChunk s0).1.
      - destruct P6 as [Hoff Hrel].
        destruct (in_chunk_next s1 HC1 Hoff Hrel) as (c & _ & _ & _ & _ & Hfree).
        rewrite <- Hgl. exact Hfree.
      - destruct P6 as (_ & _ & _ & Hend).
        apply past_end_no_gap; [exact Hw0 | lia]. }
    split; [exact Hnot|]. split.
    + intros i Hi. rewrite <- Hgl. eapply chunk_gap_free; eauto.
    + intros g Hg Hr Hlt.
      assert (Hto : to g <= pos s1).
      { destruct (Z_le_dec (to g) (pos s1)); [assumption|].
        exfalso. apply Hnot. exists g. split; [exact Hg | lia]. }
      split; [exact Hto|]. intros Hfree.
      destruct (Z.eq_dec (pos s1) (to g)); [assumption|].
      exfalso. apply Hfree. apply P5. lia.
  - pose proof (advance_Inv s 1 HI) as HI'. fold s' in HI'.
    assert (He : gaps s' = gaps s /\ end_ s' = end_ s).
    { subst s'. unfold advance. simpl.
      destruct (Js.lt (next s) (Some 0)) eqn:Hlt; [auto|]. simpl.
      assert (Hin : in_chunk s).
      { destruct (inv_pos _ HI) as [(_&_&Hn&_)|Hin]; [|exact Hin].
        rewrite Hn in Hlt. discriminate. }
      destruct (advance_step_spec s HI Hin) as (_ & (?&?&?&?) & _). auto. }
    destruct He as [Eg Ee].
    assert (Hgl : gap_list s' = gap_list s)
      by (apply same_frame_gap_list; exact Eg).
    assert (Hw' : gaps_within s')
      by (unfold gaps_within; rewrite Hgl, Ee; exact Hw).
    split; [exact HI'|]. split; [|split].
    + rewrite <- Hgl. apply Inv_not_in_gap; assumption.
    + intros i Hi. rewrite <- Hgl.
      eapply chunk_gap_free; [apply HI' | exact Hi].
    + apply advance_visible. exact HI.
Qed.


(** *** [lookAhead] *)

Lemma the_token_write_token t s : the_token (write_token t s) = t.
Proof.
  unfold the_token, write_token.
  destruct (token s) eqn:E; cbn; rewrite ?E; reflexivity.
Qed.

Lemma lookAhead_note (p : Z) (s : InputStream) :
  lookAhead (the_token (note_lookAhead p s)) = Z.max (lookAhead (the_token s)) p.
Proof.
  unfold note_lookAhead.
  destruct (Z.ltb_spec (lookAhead (the_token s)) p).
  - rewrite the_token_write_token. simpl. lia.
  - lia.
Qed.

Lemma the_token_same_frame s s' : same_frame s s' -> the_token s' = the_token s.
Proof.
  intros (_&_&_&_&Ht&Hn). unfold the_token. rewrite Ht, Hn. reflexivity.
Qed.

(** [peek] raises [lookAhead] to the position it looks at. *)
Lemma lookAhead_peek (s : InputStream) (k : Z) :
  Inv s ->
  lookAhead (the_token (peek s k).2)
  = Z.max (lookAhead (the_token s)) (resolvePos s (pos s) k).
Proof.
  intros HI. rewrite <- (peek_at_resolved s k HI).
  unfold peek. destruct (peek_at s k) as [p r]. simpl.
  apply lookAhead_note.
Qed.

(** One step of [advance] raises [lookAhead] to [pos + 1], the
    position before [readNext] has skipped any gap. *)
Lemma lookAhead_advance_step (s : InputStream) :
  Inv s -> in_chunk s ->
  lookAhead (the_token (advance_step s))
  = Z.max (lookAhead (the_token s)) (pos s + 1).
Proof.
  intros [HC _] (Hoff & Hpos & _). unfold advance_step.
  set (s1 := set_pos (pos s + 1) (set_chunkOff (chunkOff s + 1) s)).
  set (s2 := note_lookAhead (pos s1) s1).
  pose proof (same_cache_note_lookAhead (pos s1) s1) as Hsc. fold s2 in Hsc.
  assert (HR : Ready s2).
  { split.
    - eapply Cached_same_cache; [exact Hsc|].
      destruct HC as [HF Hc Hc2 Hp]. constructor; cbn; auto; try lia.
      eapply Frame_same; [..|exact HF]; reflexivity.
    - destruct Hsc as (E1&E2&E3&E4&E5&E6&E7&E8&E9&E10&E11).
      rewrite E1, E2, E3, E7. cbn. lia. }
  destruct (readNext_spec s2 HR) as (_ & Hsf & _).
  rewrite (the_token_same_frame _ _ Hsf). subst s2.
  rewrite lookAhead_note. reflexivity.
Qed.


(** *** The states a stream can reach *)

(** A stream is built by the constructor over a sound input and sorted
gaps, and then driven by [peek], [advance], [acceptToken] and
[reset] to positions at or after its start. *)
Inductive reachable : InputStream -> Prop :=
| reach_new nullTok inp start_ end' gs :
    InputOK inp -> Forall (fun c => 0 <= c) text ->
    0 <= start_ <= end' -> end' <= Js.len text ->
    gaps_sorted 0 (match gs with Some l => l | None => [] end) ->
    reachable (new_InputStream nullTok inp start_ end' gs)
| reach_peek s k : reachable s -> reachable (peek s k).2
| reach_advance s n : reachable s -> reachable (advance s n).2
| reach_acceptToken s t e : reachable s -> reachable (acceptToken s t e)
| reach_reset s p tok :
    reachable s -> start s <= p -> reachable (reset s p tok).

Lemma reachable_Inv (s : InputStream) : reachable s -> Inv s.
Proof.
  induction 1.
  - apply new_InputStream_Inv; assumption.
  - apply peek_Inv; assumption.
  - apply advance_Inv; assumption.
  - apply acceptToken_Inv; assumption.
  - apply reset_spec; assumption.
Qed.

Lemma lookAhead_advance_loop (n : nat) : forall s,
  Inv s -> lookAhead (the_token s) <= lookAhead (the_token (advance_loop n s).2).
Proof.
  induction n as [|n IH]; intros s HI; simpl; [lia|].
  destruct (Js.lt (next s) (Some 0)) eqn:Hlt; simpl; [lia|].
  assert (Hin : in_chunk s).
  { destruct (inv_pos _ HI) as [(_&_&Hn&_)|Hin]; [|exact Hin].
    rewrite Hn in Hlt. discriminate. }
  pose proof (lookAhead_advance_step s HI Hin) as Hstep.
  destruct (advance_step_spec s HI Hin) as (HI' & _).
  specialize (IH _ HI'). lia.
Qed.

(** How [peek] and [advance] move [lookAhead]: [peek] raises it to the
position it resolves, one [advance] to the position after the old
one, before [readNext] skips any gap; no call of either lowers it. *)
Theorem lookAhead_after_call (s : InputStream) :
  Inv s ->
  (forall k, lookAhead (the_token (peek s k).2)
             = Z.max (lookAhead (the_token s)) (resolvePos s (pos s) k)) /\
  lookAhead (the_token (advance s 1).2)
  = (if Js.lt (next s) (Some 0) then lookAhead (the_token s)
     else Z.max (lookAhead (the_token s)) (pos s + 1)) /\
  (forall n, lookAhead (the_token s) <= lookAhead (the_token (advance s n).2)).
Proof.
  intros HI. split; [|split].
  - intros k. apply lookAhead_peek. exact HI.
  - unfold advance. simpl.
    destruct (Js.lt (next s) (Some 0)) eqn:Hlt; simpl; [reflexivity|].
    apply lookAhead_advance_step; [exact HI|].
    destruct (inv_pos _ HI) as [(_&_&Hn&_)|Hin]; [|exact Hin].
    rewrite Hn in Hlt. discriminate.
  - intros n. apply lookAhead_advance_loop. exact HI.
Qed.

End Stream.

Section StringInputs.
Import Token.

Lemma StringInput_ok (text : list Z) : InputOK text (StringInput text).
Proof.
  split; cbn.
  - intros p Hp. exists (Js.len text - p).
    split; [lia|]. split; [lia|].
    unfold Js.slice_from. f_equal. lia.
  - reflexivity.
Qed.
End StringInputs.

(** ** Streams to run the code on *)

Section Runs.
Import Token.

(** The document [ab###cd] and the gap [2, 5) over its middle. *)
Definition abcd_text : list Z := [97; 98; 35; 35; 35; 99; 100].
Definition abcd_gap : InputGap := {| from := 2; to := 5 |}.

Definition abcd_stream : InputStream :=
  new_InputStream newCachedToken (StringInput abcd_text) 0 7 (Some [abcd_gap]).


Lemma abcd_stream_Inv : Inv abcd_text abcd_stream.
Proof.
  apply new_InputStream_Inv.
  - apply StringInput_ok.
  - repeat constructor; lia.
  - lia.
  - vm_compute. discriminate.
  - simpl. lia.
Qed.


Example abcd_stream_next : next abcd_stream = Some 97.
Proof. reflexivity. Qed.

(** The stream walks over [a], [b], [c], [d] at 0, 1, 5 and 6. *)
Example abcd_stream_walk :
  let s1 := (advance abcd_stream 1).2 in
  let s2 := (advance s1 1).2 in
  let s3 := (advance s2 1).2 in
  let s4 := (advance s3 1).2 in
  (pos s1, next s1) = (1, Some 98) /\ (pos s2, next s2) = (5, Some 99) /\
  (pos s3, next s3) = (6, Some 100) /\ (pos s4, next s4) = (7, Some (-1)).
Proof. vm_compute. repeat split. Qed.

(** C4, on the code. A token bound at 0 in the stream over [ab###cd]:
    the second [advance] steps to position 2, which starts the gap,
    and [readNext] moves on to 5.  [advance] returns the code unit at
    5, yet [lookAhead] stays at 2; a [peek 0] at the same place does
    raise it to 5. *)
Theorem lookAhead_misses_gap_jump :
  let s0 := reset abcd_stream 0 (Some newCachedToken) in
  let s1 := (advance s0 1).2 in
  let s2 := (advance s1 1).2 in
  lookAhead (the_token s0) = 0 /\
  (pos s1, lookAhead (the_token s1)) = (1, 1) /\
  (advance s1 1).1 = Some 99 /\
  Js.index abcd_text 5 = Some 99 /\
  pos s2 = 5 /\
  lookAhead (the_token s2) = 2 /\
  lookAhead (the_token (peek s2 0).2) = 5.
Proof. vm_compute. repeat split. Qed.
End Runs.

(** ** tree.ts: reuse of unchanged subtrees *)

Section Reuse.
Import Trees.

(** Induction over a child and the children below it. *)
Lemma Child_rect_nested (P : Child -> Prop) :
  (forall tag l cs ps, Forall P cs -> P (Node tag l cs ps)) ->
  (forall buffer, P (TreeBuffer buffer)) ->
  forall c, P c.
Proof.
  intros HNode HBuf. fix IH 1. intros [tag l cs ps|buffer].
  - apply HNode. induction cs as [|c cs IHcs]; constructor.
    + apply IH.
    + exact IHcs.
  - apply HBuf.
Qed.

(** [occurs c c' x]: the subtree [c'] is [c] itself ([x = 0]) or lies
    below it, [x] code units after the start of [c]. *)
Inductive occurs : Child -> Child -> Z -> Prop :=
| occurs_self c : occurs c c 0
| occurs_below tag l cs ps c' x :
    occurs_in cs ps c' x -> occurs (Node tag l cs ps) c' x
with occurs_in : list Child -> list Z -> Child -> Z -> Prop :=
| occurs_head child cs from_ ps c' x :
    occurs child c' x -> occurs_in (child :: cs) (from_ :: ps) c' (from_ + x)
| occurs_tail child cs from_ ps c' x :
    occurs_in cs ps c' x -> occurs_in (child :: cs) (from_ :: ps) c' x.

Definition occurs_in_tree (t : Tree) (c' : Child) (x : Z) : Prop :=
  match t with
  | PlainTree cs ps => occurs_in cs ps c' x
  | NodeTree tag l cs ps => occurs (Node tag l cs ps) c' x
  end.

(** The subtrees an output holds, each with its position. *)
Definition entries (out : Out) : list (Child * Z) := zip out.1 out.2.

(** Both arrays grow together and every entry satisfies [P]. *)
Definition Out_ok (P : Child -> Z -> Prop) (out : Out) : Prop :=
  length out.1 = length out.2 /\
  forall c p, (c, p) ∈ entries out -> P c p.

Lemma Out_ok_push P c offset out :
  Out_ok P out -> P c offset -> Out_ok P (push c offset out).
Proof.
  intros [Hlen Hall] Hc. unfold Out_ok, entries, push. simpl. split.
  - rewrite !length_app. simpl. lia.
  - intros c' p'. rewrite zip_with_app by exact Hlen. simpl.
    rewrite elem_of_app, list_elem_of_singleton.
    intros [Hin|[= -> ->]]; auto.
Qed.

Section Partial.
Variable P : Child -> Z -> Prop.

(** What one call of [partial] on [c] may push: subtrees of [c]
    whose range lies inside the window [start, end). *)
Definition pushes_within (c : Child) : Prop :=
  forall start end_ offset out,
    Out_ok P out ->
    (forall c' x l, occurs c c' x -> Child_length c' = Some l ->
                    start <= x -> x + l <= end_ -> P c' (offset + x)) ->
    Out_ok P (Child_partial c start end_ offset out).

Lemma Tree_partial_with_ok (cs : list Child) :
  Forall pushes_within cs ->
  forall ps start end_ offset out,
    Out_ok P out ->
    (forall c' x l, occurs_in cs ps c' x -> Child_length c' = Some l ->
                    start <= x -> x + l <= end_ -> P c' (offset + x)) ->
    Out_ok P (Tree_partial_with Child_partial cs ps start end_ offset out).
Proof.
  induction 1 as [|child cs Hchild _ IH]; intros ps start end_ offset out Hout Hwin;
    simpl; [exact Hout|].
  destruct ps as [|from_ ps]; [exact Hout|].
  destruct (end_ <=? from_); [exact Hout|].
  apply IH.
  - match goal with |- context [if ?b then _ else _] => destruct b end;
      [|exact Hout].
    apply Hchild; [exact Hout|].
    intros c' x l Hocc Hl Hs He.
    replace (offset + from_ + x) with (offset + (from_ + x)) by lia.
    apply (Hwin c' (from_ + x) l); [constructor; exact Hocc | exact Hl | lia | lia].
  - intros c' x l Hocc. apply Hwin. apply occurs_tail. exact Hocc.
Qed.

Lemma Child_partial_ok (c : Child) : pushes_within c.
Proof.
  induction c as [tag l cs ps IH|buffer] using Child_rect_nested;
    intros start end_ offset out Hout Hwin; simpl.
  - destruct (Z.leb_spec start 0) as [Hs|Hs];
      [destruct (Z.leb_spec l end_) as [He|He]|]; simpl.
    + apply Out_ok_push; [exact Hout|].
      pose proof (Hwin _ 0 l (occurs_self _) eq_refl ltac:(lia) ltac:(lia)) as H.
      rewrite Z.add_0_r in H. exact H.
    + apply Tree_partial_with_ok; auto.
      intros c' x l' Hocc. apply Hwin. constructor. exact Hocc.
    + apply Tree_partial_with_ok; auto.
      intros c' x l' Hocc. apply Hwin. constructor. exact Hocc.
  - destruct (Z.leb_spec start 0) as [Hs|Hs]; simpl; [|exact Hout].
    destruct (TreeBuffer_length buffer) as [l|] eqn:Hl; simpl; [|exact Hout].
    destruct (Z.leb_spec l end_) as [He|He]; [|exact Hout].
    apply Out_ok_push; [exact Hout|].
    pose proof (Hwin _ 0 l (occurs_self _) Hl ltac:(lia) ltac:(lia)) as H.
    rewrite Z.add_0_r in H. exact H.
Qed.

Lemma Tree_partial_ok (t : Tree) start end_ offset out :
  Out_ok P out ->
  (forall c' x l, occurs_in_tree t c' x -> Child_length c' = Some l ->
                  start <= x -> x + l <= end_ -> P c' (offset + x)) ->
  Out_ok P (Tree_partial t start end_ offset out).
Proof.
  intros Hout Hwin. destruct t as [cs ps|tag l cs ps]; unfold Tree_partial.
  - apply Tree_partial_with_ok; auto.
    apply Forall_forall. intros c _. apply Child_partial_ok.
  - apply (Child_partial_ok (Node tag l cs ps)); auto.
Qed.
End Partial.

(** The unchanged spans a list of changes leaves, in pre-edit
    coordinates, each with the offset to add for post-edit
    coordinates: from the end of one change to the start of the next,
    and from the last change to the end of the tree. *)
Fixpoint spans (changes : list ChangedRange) (pos off : Z) (len : option Z)
    : list (Z * Z * Z) :=
  match changes with
  | [] => match len with Some n => [(pos, n, off)] | None => [] end
  | next :: rest =>
      (pos, fromA next, off)
        :: spans rest (toA next)
             (off + ((toB next - fromB next) - (toA next - fromA next))) len
  end.

(** A retained subtree: it lies below the prior tree at a pre-edit
    position inside one unchanged span, ends at least one code unit
    before the end of that span, and is placed at its position plus
    the offset of the span. *)
Definition reusable (t : Tree) (all : list (Z * Z * Z)) (c : Child) (p : Z)
    : Prop :=
  exists a b off l,
    (a, b, off) ∈ all /\ Child_length c = Some l /\
    occurs_in_tree t c (p - off) /\ a <= p - off /\ (p - off) + l <= b - 1.

Lemma unchanged_loop_ok (t : Tree) (all : list (Z * Z * Z))
    (changes : list ChangedRange) : forall pos off out,
  (forall sp, sp ∈ spans changes pos off (Tree_length t) -> sp ∈ all) ->
  Out_ok (reusable t all) out ->
  Out_ok (reusable t all) (unchanged_loop t changes pos off out).
Proof.
  assert (Hcall : forall pos nextPos off out,
             (pos, nextPos, off) ∈ all -> Out_ok (reusable t all) out ->
             Out_ok (reusable t all)
               (if pos <? nextPos then Tree_partial t pos (nextPos - 1) off out
                else out)).
  { intros pos nextPos off out Hsp Hout.
    destruct (pos <? nextPos); [|exact Hout].
    apply Tree_partial_ok; [exact Hout|].
    intros c' x l Hocc Hl Hs He.
    exists pos, nextPos, off, l.
    replace (off + x - off) with x by lia. auto. }
  induction changes as [|next rest IH]; intros pos off out Hsub Hout; simpl.
  - destruct (Tree_length t) as [n|] eqn:Hn; [|exact Hout].
    apply Hcall; [|exact Hout]. apply Hsub. simpl. left.
  - apply IH.
    + intros sp Hsp. apply Hsub. simpl. right. exact Hsp.
    + apply Hcall; [|exact Hout]. apply Hsub. simpl. left.
Qed.

(** What [unchanged] keeps, for a non-empty list of changes: every
    subtree of the result is a subtree of the prior tree whose pre-edit
    range lies inside an unchanged span, short of its end, moved by the
    offset of that span. *)
Theorem unchanged_keeps_unchanged (t : Tree) (ch : ChangedRange)
    (rest : list ChangedRange) :
  let result := unchanged t (ch :: rest) in
  length (children_of result) = length (positions_of result) /\
  forall c p, (c, p) ∈ zip (children_of result) (positions_of result) ->
              reusable t (spans (ch :: rest) 0 0 (Tree_length t)) c p.
Proof.
  apply (unchanged_loop_ok t _ (ch :: rest) 0 0 ([], [])).
  - auto.
  - split; [reflexivity|]. intros c p Hin. inversion Hin.
Qed.

(** *** A run of [unchanged] *)

(** The tree of three one-unit tokens at 0, 1 and 2, and the change
    that replaces the code unit at 2. *)
Definition abd_tree : Tree :=
  PlainTree [Node 1 1 [] []; Node 3 1 [] []; Node 5 1 [] []] [0; 1; 2].

Definition change_at_2 : ChangedRange :=
  {| fromA := 2; toA := 3; fromB := 2; toB := 3 |}.

(** C1, on the code. [unchanged] keeps the token at [0, 1) when the
    code unit at 2 changes: [partial] is called with the window
    [0, 1) and compares it with the range of the node alone.  A node
    has a tag, a length, children and positions, and no lookahead; a
    token at 0 that was recognised by looking at positions 1 and 2 is
    kept like any other. *)
Theorem unchanged_ignores_lookahead :
  unchanged abd_tree [change_at_2] = PlainTree [Node 1 1 [] []] [0] /\
  Tree_partial abd_tree 0 (fromA change_at_2 - 1) 0 ([], [])
    = ([Node 1 1 [] []], [0]) /\
  (forall tag l cs ps,
      Child_partial (Node tag l cs ps) 0 l 0 ([], [])
      = ([Node tag l cs ps], [0])).
Proof.
  split; [reflexivity|]. split; [reflexivity|].
  intros tag l cs ps. simpl. rewrite Z.leb_refl. reflexivity.
Qed.

End Reuse.

(** ** tree.ts: [resolve] *)

Section Resolve.
Import Trees.

(** The cells of a [Uint16Array] are not negative, so every round of
    [resolveIndex] moves [i] forward and the loop ends within its fuel. *)
Lemma resolveIndex_fuel_total (pos : Z) (buf : list Z) (start to_ : Z) :
  Forall (fun c => 0 <= c) buf ->
  forall fuel i, (Z.to_nat (to_ - i) < fuel)%nat ->
                 is_Some (resolveIndex_fuel fuel pos buf start i to_).
Proof.
  intros Hbuf. induction fuel as [|fuel IH]; intros i Hfuel; [lia|]. simpl.
  destruct (Z.ltb_spec i to_); [|eauto].
  do 2 (match goal with |- context [if ?b then _ else _] => destruct b end;
        [eauto|]).
  apply IH.
  assert (0 <= quads (Js.index buf (i + 3))).
  { unfold quads, Js.index. destruct (i + 3 <? 0); [lia|].
    destruct (buf !! Z.to_nat (i + 3)) as [c|] eqn:Hc; [|lia].
    rewrite Forall_forall in Hbuf.
    apply list_elem_of_lookup_2, Hbuf in Hc.
    rewrite Z.shiftl_mul_pow2 by lia. lia. }
  lia.
Qed.

Lemma resolveIndex_total (pos : Z) (buf : list Z) (start from_ to_ : Z) :
  Forall (fun c => 0 <= c) buf ->
  is_Some (resolveIndex pos buf start from_ to_).
Proof.
  intros Hbuf. apply resolveIndex_fuel_total; [exact Hbuf | lia].
Qed.

(** A buffer of two sibling nodes, tags 1 and 3, over [0, 2) and
    [2, 4), as the only child of a tree. *)
Definition two_quads : list Z := [1; 0; 2; 0; 3; 2; 4; 0].
Definition two_quads_tree : Tree := PlainTree [TreeBuffer two_quads] [0].

Example resolve_first_quad :
  resolve 1 two_quads_tree 1
  = Some (BufferContext two_quads 0 0 (Some (TreeContext two_quads_tree 0 None))).
Proof. reflexivity. Qed.

(** C2, on the code. Position 3 lies inside the second node of the
    buffer, the quad at index 4.  [resolveIndex] steps from index 0 to
    index 5: the body adds 4 and the loop header one more.  It reads
    the cells from 5 on as a node that starts at 4, gives up, and
    [resolve] answers with the context of the whole tree. *)
Theorem resolve_misses_second_quad :
  (Js.index two_quads 4, Js.index two_quads 5, Js.index two_quads 6)
    = (Some 3, Some 2, Some 4) /\
  resolveIndex 3 two_quads 0 0 (Js.len two_quads) = Some (-1) /\
  forall fuel,
    resolve (S fuel) two_quads_tree 3 = Some (TreeContext two_quads_tree 0 None).
Proof.
  split; [reflexivity|]. split; [reflexivity|]. intros fuel. reflexivity.
Qed.

(** Two more runs.  A context inside a buffer reports the start and
    end cells of its quad as they are, relative to the buffer, also
    when the buffer does not start at 0; and a node whose tag has the
    low bit clear gets a context like any other node. *)
Example resolve_buffer_offset :
  let t := PlainTree [Node 1 10 [] []; TreeBuffer [3; 0; 4; 0]] [0; 10] in
  exists ctx, resolve 1 t 12 = Some ctx /\
              ctx = BufferContext [3; 0; 4; 0] 10 0 (Some (TreeContext t 0 None)) /\
              Context_start ctx = Some 0 /\ Context_end ctx = Some 4.
Proof. eexists. repeat split. Qed.

Example resolve_untagged_node :
  let t := PlainTree [Node 2 4 [] []] [0] in
  resolve 2 t 2
  = Some (TreeContext (NodeTree 2 4 [] []) 0 (Some (TreeContext t 0 None))).
Proof. reflexivity. Qed.
End Resolve.

(** ** Runs of the stream theorems *)

Section StreamRuns.
Import Token.

Example abcd_read : read abcd_stream 0 7 = [97; 98; 99; 100].
Proof. reflexivity. Qed.

Example abcd_peek_over_gap : (peek abcd_stream 2).1 = Some 99.
Proof. reflexivity. Qed.

(** The stream over [ab###cd] after two calls of [advance], at 5. *)
Definition abcd_at_5 : InputStream := (advance (advance abcd_stream 1).2 1).2.




(** What the amended claim leaves out.  The backward loop of
    [resolvePos] never changes the offset, so in the stream with the
    gap, at 5, [peek (-1)] resolves to 4 and returns the [#] inside the
    gap, where the code unit before the position, as the stream shows
    the document, is the [b] at 1. *)
Example peek_back_reads_gap :
  resolvePos abcd_at_5 (pos abcd_at_5) (-1) = 4 /\
  (peek abcd_at_5 (-1)).1 = Some 35 /\
  read abcd_at_5 0 5 = [97; 98].
Proof. repeat split; reflexivity. Qed.


Lemma stream_out_of_range_witness :
  (end_ abcd_stream <= pos abcd_stream -> next abcd_stream = Some (-1)) /\
  (peek abcd_stream 7).1 = Some (-1).
Proof.
  destruct (stream_out_of_range abcd_text abcd_stream abcd_stream_Inv)
    as (_ & Hnext & Hpeek & _).
  split; [exact Hnext|]. apply Hpeek. right. vm_compute. discriminate.
Defined.

(** The state of the stream over [ab###cd] when [advance] has just
    stepped to 2, the start of the gap, with the chunk used up. *)
Definition abcd_in_gap : InputStream :=
  set_pos 2 (set_chunkOff 0 (set_chunk [] abcd_stream)).

Lemma abcd_in_gap_Cached : Cached abcd_text abcd_in_gap.
Proof.
  pose proof (inv_cached _ _ abcd_stream_Inv) as [HF _ Hc2 _].
  constructor.
  - eapply Frame_same; [..|exact HF]; reflexivity.
  - left. reflexivity.
  - eapply chunk_ok_same; [..|exact Hc2]; reflexivity.
  - vm_compute. discriminate.
Qed.

Lemma abcd_gaps_within : gaps_within abcd_stream.
Proof. repeat constructor. vm_compute. discriminate. Qed.

Lemma position_never_in_gap_witness :
  pos (getChunk abcd_in_gap).2 = 5 /\
  ~ in_gap (gap_list abcd_stream) (pos (advance abcd_stream 1).2).
Proof.
  split; [reflexivity|].
  destruct (position_never_in_gap abcd_text abcd_in_gap abcd_stream
              abcd_in_gap_Cached abcd_gaps_within abcd_stream_Inv
              abcd_gaps_within) as (_ & _ & Hnot & _).
  exact Hnot.
Defined.

Lemma read_removes_gaps_witness :
  read abcd_stream 0 7 = visible abcd_text (gap_list abcd_stream) 0 7.
Proof.
  apply (read_removes_gaps abcd_text abcd_stream 0 7 abcd_stream_Inv);
    [lia | vm_compute; discriminate].
Defined.

Lemma lookAhead_after_call_witness :
  lookAhead (the_token (peek abcd_stream 2).2) = 5 /\
  lookAhead (the_token (advance abcd_stream 1).2) = 1.
Proof.
  destruct (lookAhead_after_call abcd_text abcd_stream abcd_stream_Inv)
    as (Hpeek & Hadv & _).
  split; [rewrite Hpeek | rewrite Hadv]; reflexivity.
Defined.

(** A tokenizer table with one state at 0, whose edges lead [a] and
    [c .. d] to the state at 9, which belongs to no group. *)
Definition two_edges_data : list Z :=
  [1; 3; 2; 97; 98; 9; 99; 101; 9; 0; 12; 0].
Definition two_edges : list Edge := [(97, 98, 9); (99, 101, 9)].
Definition any_grammar : Grammar :=
  {| allows := fun _ => true; overrides := fun _ _ => false |}.

Example two_edges_readToken :
  exists inp, readToken 3 any_grammar two_edges_data abcd_stream 0 = Some inp /\
              pos inp = 1.
Proof. eexists. split; reflexivity. Qed.

Lemma readToken_binary_search_witness :
  edge_search two_edges_data (Some 3) (Some 97) 0 (Js.len two_edges)
  = option_map Some (linear_scan two_edges 97).
Proof.
  apply (readToken_binary_search any_grammar two_edges_data 1 0 1 3 two_edges
           abcd_stream 97);
    [reflexivity | vm_compute; discriminate | reflexivity | reflexivity
    | | cbv [edges_sorted two_edges edge_from edge_to fst snd]; lia
    | reflexivity].
  intros k e. destruct k as [|[|k]]; simpl; intros [= <-]; repeat split.
Defined.
End StreamRuns.

(** * More of the stream *)

(** ** The token through a chunk fetch *)

Section TokenKept.
Import Token.

Lemma removeGaps_loop_token refetch (tk : option CachedToken) (nt : CachedToken) :
  (forall s r, refetch s = Some r -> token s = tk -> nullToken s = nt ->
               token r.2 = tk /\ nullToken r.2 = nt) ->
  forall gs from_ to_ s r,
    removeGaps_loop refetch gs from_ to_ s = Some r ->
    token s = tk -> nullToken s = nt ->
    token r.2 = tk /\ nullToken r.2 = nt.
Proof.
  intros Hre gs. induction gs as [|g gs IH]; intros from_ to_ s r Hrun Ht Hn;
    simpl in Hrun.
  - injection Hrun as <-. auto.
  - destruct (to_ <=? from g); [injection Hrun as <-; auto|].
    destruct (from_ <? to g); [|eapply IH; eauto].
    destruct (from_ <? from g); [injection Hrun as <-; auto|].
    destruct (to g <? to_).
    + eapply IH; eauto.
    + eapply Hre; eauto.
Qed.

Lemma getChunk_fuel_token (fuel : nat) : forall s r,
  getChunk_fuel fuel s = Some r ->
  token r.2 = token s /\ nullToken r.2 = nullToken s.
Proof.
  induction fuel as [|fuel IH]; intros s r Hrun; [discriminate|].
  simpl in Hrun.
  destruct (_ && _); [injection Hrun as <-; auto|].
  destruct (end_ s <=? pos s); [injection Hrun as <-; auto|].
  cbn in Hrun. destruct (gaps s); [|injection Hrun as <-; auto].
  eapply (removeGaps_loop_token _ (token s) (nullToken s)) in Hrun; auto.
  intros s' r' Hr' <- <-. apply IH. exact Hr'.
Qed.

(** [readNext] leaves the token objects alone. *)
Lemma readNext_token (s : InputStream) :
  token (readNext s) = token s /\ nullToken (readNext s) = nullToken s.
Proof.
  unfold readNext. destruct (chunkOff s =? Js.len (chunk s)); [|auto].
  pose proof (getChunk_total s) as Hrun.
  apply getChunk_fuel_token in Hrun.
  destruct (getChunk s) as [[|] s']; simpl in *; auto.
Qed.

Lemma the_token_readNext (s : InputStream) : the_token (readNext s) = the_token s.
Proof.
  destruct (readNext_token s) as [Ht Hn]. unfold the_token. rewrite Ht, Hn.
  reflexivity.
Qed.
End TokenKept.

(** ** Laws of the stream *)

Section StreamLaws.
Import Token.
Variable text : list Z.

(** What [reset] does.  The stream lands on the position asked for, or
    on the first position after it that lies in no gap; [next] is the
    code unit there, or -1 from [end] on; a token that was passed in is
    bound with [start] and [lookAhead] at the position asked for and
    [value] and [extended] at -1, and without one the stream writes to
    [nullToken] again. *)
Theorem reset_lands (s : InputStream) (p : Z) (tok : option CachedToken) :
  Inv text s -> start s <= p ->
  let s' := reset s p tok in
  Inv text s' /\
  p <= pos s' /\
  (forall q, p <= q < pos s' -> in_gap (gap_list s) q) /\
  (p < end_ s -> ~ in_gap (gap_list s) p -> pos s' = p) /\
  next s' = (if end_ s <=? pos s' then Some (-1) else Js.index text (pos s')) /\
  the_token s' =
    match tok with
    | Some t => {| tok_start := p; value := -1; tok_end := tok_end t;
                   extended := -1; lookAhead := p; mask := mask t;
                   context := context t |}
    | None => nullToken s
    end.
Proof.
  intros HI Hp s'.
  destruct (reset_spec text s p tok HI Hp) as (HI' & (E1&E2&E3&E4) & Hle & Hskip).
  fold s' in HI', E1, E2, E3, E4, Hle, Hskip.
  split; [exact HI'|]. split; [exact Hle|]. split; [exact Hskip|].
  split; [|split].
  - intros Hlt Hfree. destruct (Z.eq_dec (pos s') p) as [|Hne]; [assumption|].
    exfalso. apply Hfree. apply Hskip. lia.
  - rewrite <- E3. destruct (Z.leb_spec (end_ s') (pos s')) as [Hend|Hin].
    + apply (Inv_at_end text s' HI' Hend).
    + destruct (Inv_inside text s' HI' Hin) as (c & Hn & _ & Hidx & _).
      rewrite Hn, Hidx. reflexivity.
  - subst s'. unfold reset.
    destruct tok as [t|]; cbn;
      match goal with |- context [if ?b then _ else _] => destruct b end;
      rewrite ?the_token_readNext;
      try match goal with |- context [if ?b then _ else _] => destruct b end;
      reflexivity.
Qed.


(** *** Counting the positions outside the gaps *)

(** The number of positions of [a, b) that lie in no gap. *)
Definition free_count (gs : list InputGap) (a b : Z) : Z :=
  Js.len (List.filter (fun p => negb (in_gapb gs p)) (seqZ a (b - a))).

Lemma free_count_nonneg gs a b : 0 <= free_count gs a b.
Proof. apply len_nonneg. Qed.

Lemma free_count_nil gs a b : b <= a -> free_count gs a b = 0.
Proof. intros H. unfold free_count. rewrite seqZ_nil by lia. reflexivity. Qed.

Lemma free_count_keep gs a b :
  a < b -> ~ in_gap gs a -> free_count gs a b = 1 + free_count gs (a + 1) b.
Proof.
  intros Hlt Hfree. unfold free_count. rewrite seqZ_cons by lia. simpl.
  apply in_gapb_false in Hfree. rewrite Hfree. simpl.
  replace (seqZ (Z.succ a) (Z.pred (b - a))) with (seqZ (a + 1) (b - (a + 1)))
    by (f_equal; lia).
  unfold Js.len. simpl. lia.
Qed.

Lemma free_count_drop gs a b :
  a < b -> in_gap gs a -> free_count gs a b = free_count gs (a + 1) b.
Proof.
  intros Hlt Hin. unfold free_count. rewrite seqZ_cons by lia. simpl.
  apply in_gapb_spec in Hin. rewrite Hin. simpl.
  replace (seqZ (Z.succ a) (Z.pred (b - a))) with (seqZ (a + 1) (b - (a + 1)))
    by (f_equal; lia).
  reflexivity.
Qed.

Lemma free_count_app gs a m b :
  a <= m <= b -> free_count gs a b = free_count gs a m + free_count gs m b.
Proof.
  intros H. unfold free_count.
  replace (b - a) with ((m - a) + (b - m)) by lia.
  rewrite seqZ_app by lia. rewrite List.filter_app, len_app.
  do 4 f_equal. lia.
Qed.

Lemma free_count_free gs a b :
  a <= b -> (forall q, a <= q < b -> ~ in_gap gs q) -> free_count gs a b = b - a.
Proof.
  intros Hab. remember (Z.to_nat (b - a)) as n eqn:Hn.
  revert a Hab Hn. induction n as [|n IH]; intros a Hab Hn Hall.
  - rewrite free_count_nil by lia. lia.
  - rewrite free_count_keep by (try lia; apply Hall; lia).
    rewrite IH; [lia | lia | lia |]. intros q Hq. apply Hall. lia.
Qed.

Lemma free_count_gap gs a b :
  (forall q, a <= q < b -> in_gap gs q) -> free_count gs a b = 0.
Proof.
  remember (Z.to_nat (b - a)) as n eqn:Hn.
  revert a Hn. induction n as [|n IH]; intros a Hn Hall.
  - apply free_count_nil. lia.
  - rewrite free_count_drop by (try lia; apply Hall; lia).
    apply IH; [lia|]. intros q Hq. apply Hall. lia.
Qed.

Lemma free_count_ext gs gs' a b :
  (forall q, a <= q < b -> in_gapb gs q = in_gapb gs' q) ->
  free_count gs a b = free_count gs' a b.
Proof.
  intros Hext. unfold free_count. f_equal.
  apply List.filter_ext_in. intros q Hq.
  apply list_elem_of_In, elem_of_seqZ in Hq. rewrite Hext by lia. reflexivity.
Qed.

(** Two positions outside the gaps with the same count from [p] are
    the same position. *)
Lemma free_count_inj gs p q1 q2 :
  p <= q1 -> p <= q2 -> ~ in_gap gs q1 -> ~ in_gap gs q2 ->
  free_count gs p q1 = free_count gs p q2 -> q1 = q2.
Proof.
  intros H1 H2 F1 F2 Heq.
  destruct (Z.lt_trichotomy q1 q2) as [Hlt|[|Hlt]]; [|assumption|]; exfalso.
  - rewrite (free_count_app gs p q1 q2) in Heq by lia.
    rewrite (free_count_keep gs q1 q2) in Heq by auto.
    pose proof (free_count_nonneg gs (q1 + 1) q2). lia.
  - rewrite (free_count_app gs p q2 q1) in Heq by lia.
    rewrite (free_count_keep gs q2 q1) in Heq by auto.
    pose proof (free_count_nonneg gs (q2 + 1) q1). lia.
Qed.

Lemma resolve_forward_count (p : Z) (gs : list InputGap) : forall lo offset,
  gaps_sorted lo gs ->
  (forall g, g ∈ gs -> ~ (from g <= p < to g)) ->
  0 <= offset ->
  free_count gs p (p + resolve_forward gs p offset) = offset.
Proof.
  induction gs as [|g gs IH]; intros lo offset Hs Hp Hoff; simpl.
  - rewrite free_count_free; [lia | lia |]. intros q _ (g & Hg & _). inversion Hg.
  - destruct Hs as (Hlo & Hg & Hrest).
    pose proof (gaps_sorted_lower _ _ Hrest) as Hafter.
    rewrite Forall_forall in Hafter.
    assert (Hrestp : forall g', g' ∈ gs -> ~ (from g' <= p < to g'))
      by (intros g' Hg'; apply Hp; right; exact Hg').
    pose proof (Hp g ltac:(left)) as Hpg.
    destruct (Z.ltb_spec (p + offset) (from g)) as [Hstop|Hgo].
    + rewrite free_count_free; [lia | lia |].
      intros q Hq (g' & Hg' & Hr).
      apply elem_of_cons in Hg' as [->|Hg']; [lia|].
      apply Hafter in Hg'. lia.
    + destruct (Z.ltb_spec p (from g)) as [Hbefore|Hpast].
      * set (offset' := offset + (to g - from g)).
        pose proof (resolve_forward_ge p gs (to g) offset' Hrest) as Hge.
        pose proof (IH (to g) offset' Hrest Hrestp ltac:(lia)) as Hcount.
        set (r := resolve_forward gs p offset') in *.
        assert (Hsplit : forall l,
                   free_count l p (p + r)
                   = free_count l p (from g) + free_count l (from g) (to g)
                     + free_count l (to g) (p + r)).
        { intros l. rewrite (free_count_app l p (from g) (p + r)) by lia.
          rewrite (free_count_app l (from g) (to g) (p + r)) by lia. lia. }
        rewrite Hsplit in Hcount |- *.
        rewrite (free_count_ext (g :: gs) gs p (from g)).
        2: { intros q Hq. rewrite in_gapb_cons.
             destruct (Z.leb_spec (from g) q); [lia | reflexivity]. }
        rewrite (free_count_ext (g :: gs) gs (to g) (p + r)).
        2: { intros q Hq. rewrite in_gapb_cons.
             destruct (Z.leb_spec (from g) q), (Z.ltb_spec q (to g)); simpl;
               try reflexivity; lia. }
        rewrite (free_count_gap (g :: gs) (from g) (to g)).
        2: { intros q Hq. exists g. split; [left | lia]. }
        rewrite (free_count_free gs (from g) (to g)) in Hcount; [lia | lia |].
        intros q Hq (g' & Hg' & Hr). apply Hafter in Hg'. lia.
      * rewrite (free_count_ext (g :: gs) gs).
        -- apply (IH (to g) offset Hrest Hrestp Hoff).
        -- intros q Hq. rewrite in_gapb_cons.
           destruct (Z.leb_spec (from g) q), (Z.ltb_spec q (to g)); simpl;
             try reflexivity; lia.
Qed.

(** For a negative offset [resolvePos] adds the offset as it is,
    whatever the gaps: a gap that ends at or before [pos] also ends
    before [pos - offset], where the backward loop has already stopped. *)
Lemma resolvePos_back (s : InputStream) (p k : Z) :
  k <= 0 -> resolvePos s p k = p + k.
Proof.
  intros Hk. unfold resolvePos. destruct (gaps s) as [gs|]; [|reflexivity].
  destruct (Z.eqb_spec k 0); [reflexivity|].
  destruct (Z.ltb_spec k 0); [|lia].
  rewrite resolve_backward_same by lia. reflexivity.
Qed.

(** For an offset [k >= 0], from a position outside the gaps,
    [resolvePos] gives the position that has exactly [k] positions
    outside the gaps before it, counted from [pos], and that lies in no
    gap itself. *)
Lemma resolvePos_fwd (s : InputStream) (p k : Z) :
  gaps_sorted 0 (gap_list s) -> ~ in_gap (gap_list s) p -> 0 <= k ->
  p + k <= resolvePos s p k /\
  ~ in_gap (gap_list s) (resolvePos s p k) /\
  free_count (gap_list s) p (resolvePos s p k) = k.
Proof.
  intros Hs Hp Hk. unfold resolvePos, gap_list in *.
  destruct (gaps s) as [gs|].
  - assert (Hp' : forall g, g ∈ gs -> ~ (from g <= p < to g))
      by (intros g Hg Hr; apply Hp; exists g; auto).
    destruct (Z.eqb_spec k 0) as [->|Hne].
    + rewrite Z.add_0_r. split; [lia|]. split; [exact Hp|].
      apply free_count_nil. lia.
    + destruct (Z.ltb_spec k 0); [lia|].
      destruct (resolve_forward_spec p gs 0 k Hs Hp' Hk) as [Hge Hnot].
      split; [lia|]. split.
      * intros (g & Hg & Hr). exact (Hnot g Hg Hr).
      * apply (resolve_forward_count p gs 0 k Hs Hp' Hk).
  - split; [lia|]. split; [intros (g & Hg & _); inversion Hg|].
    rewrite free_count_free; [lia | lia |]. intros q _ (g & Hg & _). inversion Hg.
Qed.


(** [resolvePos] as a whole.  An offset [k >= 0] from a position outside
    the gaps gives the position that lies in no gap and has exactly [k]
    positions outside the gaps between [pos] and itself.  A negative or
    zero offset is added as it is, whatever the gaps. *)
Theorem resolvePos_spec (s : InputStream) (p k : Z) :
  gaps_sorted 0 (gap_list s) -> ~ in_gap (gap_list s) p ->
  (0 <= k ->
   p + k <= resolvePos s p k /\
   ~ in_gap (gap_list s) (resolvePos s p k) /\
   free_count (gap_list s) p (resolvePos s p k) = k) /\
  (k <= 0 -> resolvePos s p k = p + k).
Proof.
  intros Hs Hp. split.
  - apply resolvePos_fwd; assumption.
  - apply resolvePos_back.
Qed.

(** *** [peek], [advance] and [next] *)

Lemma resolvePos_zero (s : InputStream) (p : Z) : resolvePos s p 0 = p.
Proof. rewrite resolvePos_back by lia. lia. Qed.

Lemma peek_zero (s : InputStream) : Inv text s -> (peek s 0).1 = next s.
Proof.
  intros HI. destruct (Z_lt_dec (pos s) (end_ s)) as [Hlt|Hge].
  - destruct (Inv_inside text s HI Hlt) as (c & Hn & _ & Hidx & _).
    pose proof (cached_pos _ _ (inv_cached _ _ HI)) as Hstart.
    rewrite (peek_value text s 0 HI) by (rewrite resolvePos_zero; exact Hstart).
    rewrite resolvePos_zero.
    destruct (Z.leb_spec (end_ s) (pos s)); [lia|]. congruence.
  - rewrite (peek_outside text s 0 HI) by (rewrite resolvePos_zero; lia).
    symmetry. apply (Inv_at_end text s HI). lia.
Qed.

Lemma advance_one (s : InputStream) :
  Inv text s -> pos s < end_ s -> (advance s 1).2 = advance_step s.
Proof.
  intros HI Hlt. destruct (Inv_inside text s HI Hlt) as (c & Hn & Hc & _).
  unfold advance. simpl. rewrite Hn. simpl.
  destruct (Z.ltb_spec c 0); [lia | reflexivity].
Qed.

Lemma Inv_in_chunk (s : InputStream) :
  Inv text s -> pos s < end_ s -> in_chunk s.
Proof.
  intros HI Hlt. destruct (inv_pos _ _ HI) as [(_&_&_&Hend)|Hin]; [lia | exact Hin].
Qed.

(** As the source says of [peek]: [peek 0] is [next], and after an
    [advance] that moved the position by one, [peek (-1)] is the code
    unit the stream was on before. *)
Theorem peek_zero_and_back (s : InputStream) :
  Inv text s ->
  (peek s 0).1 = next s /\
  (pos s < end_ s -> pos (advance s 1).2 = pos s + 1 ->
   (peek (advance s 1).2 (-1)).1 = next s).
Proof.
  intros HI. split; [apply peek_zero; exact HI|].
  intros Hlt Hstep.
  destruct (Inv_inside text s HI Hlt) as (c & Hn & _ & Hidx & _).
  pose proof (advance_Inv text s 1 HI) as HI1.
  rewrite (advance_one s HI Hlt) in *.
  destruct (advance_step_spec text s HI (Inv_in_chunk s HI Hlt))
    as (_ & (E1&E2&E3&E4) & _).
  pose proof (cached_pos _ _ (inv_cached _ _ HI)) as Hstart.
  assert (Hres : resolvePos (advance_step s) (pos (advance_step s)) (-1) = pos s)
    by (rewrite resolvePos_back by lia; lia).
  rewrite (peek_value text _ (-1) HI1) by (rewrite Hres, E2; exact Hstart).
  rewrite Hres, E3.
  destruct (Z.leb_spec (end_ s) (pos s)); [lia|]. congruence.
Qed.

(** [advance k] and [peek k] agree with [resolvePos]: as long as the
    resolved position is before [end], [k] steps take the stream there,
    and what [advance] returns is what [peek k] returned before. *)
Theorem advance_reaches_resolved (k : Z) : forall s : InputStream,
  Inv text s -> 0 <= k -> resolvePos s (pos s) k < end_ s ->
  pos (advance s k).2 = resolvePos s (pos s) k /\
  (advance s k).1 = (peek s k).1.
Proof.
  unfold advance. remember (Z.to_nat k) as n eqn:Hn.
  revert k Hn. induction n as [|n IH]; intros k Hn s HI Hk Hres.
  - replace k with 0 in * by lia. simpl.
    rewrite resolvePos_zero, peek_zero by exact HI. auto.
  - pose proof (frame_gaps _ _ (cached_frame _ _ (inv_cached _ _ HI))) as Hsorted.
    assert (Hlt : pos s < end_ s).
    { destruct (Z_lt_dec (pos s) (end_ s)) as [|Hge]; [assumption|].
      exfalso. unfold resolvePos, gap_list in *. destruct (gaps s) as [gs|]; [|lia].
      destruct (Z.eqb_spec k 0); [lia|]. destruct (Z.ltb_spec k 0); [lia|].
      pose proof (resolve_forward_ge (pos s) gs 0 k Hsorted). lia. }
    destruct (Inv_inside text s HI Hlt) as (c & Hnext & Hc & Hidx & Hfree).
    destruct (resolvePos_fwd s (pos s) k Hsorted Hfree Hk)
      as (Hq1 & Hq2 & Hq3).
    set (q := resolvePos s (pos s) k) in *.
    destruct (advance_step_spec text s HI (Inv_in_chunk s HI Hlt))
      as (HI1 & (E1&E2&E3&E4) & Hle & Hskip).
    set (s1 := advance_step s) in *.
    assert (Hgl : gap_list s1 = gap_list s)
      by (apply same_frame_gap_list; exact E4).
    assert (Hp1 : pos s1 <= q).
    { destruct (Z_le_dec (pos s1) q); [assumption|].
      exfalso. apply Hq2. apply Hskip. lia. }
    destruct (Inv_inside text s1 HI1 ltac:(lia)) as (c1 & _ & _ & _ & Hfree1).
    assert (Hsorted1 : gaps_sorted 0 (gap_list s1)) by (rewrite Hgl; exact Hsorted).
    destruct (resolvePos_fwd s1 (pos s1) (k - 1) Hsorted1 Hfree1 ltac:(lia))
      as (Hr1 & Hr2 & Hr3).
    rewrite Hgl in Hr2, Hr3, Hfree1.
    assert (Hsame : resolvePos s1 (pos s1) (k - 1) = q).
    { apply (free_count_inj (gap_list s) (pos s)); auto; try lia.
      rewrite Hq3.
      rewrite (free_count_app _ (pos s) (pos s + 1)) by lia.
      rewrite (free_count_app _ (pos s + 1) (pos s1)) by lia.
      rewrite (free_count_free _ (pos s) (pos s + 1)); [| lia |].
      - rewrite (free_count_gap _ (pos s + 1) (pos s1)) by exact Hskip. lia.
      - intros x Hx. replace x with (pos s) by lia. exact Hfree. }
    destruct (IH (k - 1) ltac:(lia) s1 HI1 ltac:(lia) ltac:(rewrite Hsame, E3; exact Hres))
      as [IHpos IHval].
    simpl. rewrite Hnext. simpl. destruct (Z.ltb_spec c 0); [lia|]. fold s1.
    rewrite IHpos, IHval, Hsame. split; [reflexivity|].
    pose proof (cached_pos _ _ (inv_cached _ _ HI)) as Hstart.
    pose proof (cached_pos _ _ (inv_cached _ _ HI1)) as Hstart1.
    rewrite (peek_value text s1 (k - 1) HI1) by (rewrite Hsame, E2; lia).
    rewrite (peek_value text s k HI) by (fold q; lia).
    fold q. rewrite Hsame, E3. reflexivity.
Qed.


(** In every state that the constructor and the calls of [peek],
    [advance], [acceptToken] and [reset] (to a position at or after
    [start]) can produce, the stream is at or after its start, outside
    every gap as long as it is before [end], and [next] is the code unit
    of the document under [pos], or -1 from [end] on; it is never [NaN]. *)
Theorem reachable_next (s : InputStream) :
  reachable text s ->
  start s <= pos s /\
  (pos s < end_ s -> ~ in_gap (gap_list s) (pos s)) /\
  next s = (if end_ s <=? pos s then Some (-1) else Js.index text (pos s)) /\
  (exists c, next s = Some c /\ -1 <= c).
Proof.
  intros Hr. pose proof (reachable_Inv text s Hr) as HI.
  split; [apply (cached_pos _ _ (inv_cached _ _ HI))|].
  split; [intros Hlt; destruct (Inv_inside text s HI Hlt) as (c & _ & _ & _ & Hfree);
          exact Hfree|].
  destruct (Z.leb_spec (end_ s) (pos s)) as [Hge|Hlt].
  - destruct (Inv_at_end text s HI Hge) as (_ & _ & Hn & _).
    split; [exact Hn|]. exists (-1). split; [exact Hn | lia].
  - destruct (Inv_inside text s HI Hlt) as (c & Hn & Hc & Hidx & _).
    split; [congruence|]. exists c. split; [exact Hn | lia].
Qed.

End StreamLaws.

(** ** [readToken] ends *)

Section ReadTokenLaws.
#[local] Notation edge_search_rounds := edge_search_unfold (only parsing).
Import Token.
Variable text : list Z.
Variable p : Grammar.
Variable data : list Z.
Variable groupMask : Z.

(** What one call of [readToken] may do to the stream it is given:
    it keeps the invariant, the input, the range and the gaps, never
    moves back, and leaves the token as it was or with a value that the
    dialect allows and an end between the two positions. *)
Record Scanned (inp inp' : InputStream) : Prop := {
  scanned_Inv : Inv text inp';
  scanned_pos : pos inp <= pos inp';
  scanned_input : input inp' = input inp;
  scanned_start : start inp' = start inp;
  scanned_end : end_ inp' = end_ inp;
  scanned_gaps : gaps inp' = gaps inp;
  scanned_tok_start : tok_start (the_token inp') = tok_start (the_token inp);
  scanned_token :
    (value (the_token inp') = value (the_token inp) /\
     tok_end (the_token inp') = tok_end (the_token inp)) \/
    (allows p (value (the_token inp')) = true /\
     pos inp <= tok_end (the_token inp') <= pos inp')
}.

Lemma Scanned_refl (inp : InputStream) : Inv text inp -> Scanned inp inp.
Proof. intros HI. constructor; auto; lia. Qed.

Lemma Scanned_trans (a b c : InputStream) :
  Scanned a b -> Scanned b c -> Scanned a c.
Proof.
  intros [A1 A2 A3 A4 A5 A6 A7 A8] [B1 B2 B3 B4 B5 B6 B7 B8].
  constructor; try congruence; try lia.
  destruct B8 as [(Bv & Be)|(Bv & Be)].
  - destruct A8 as [(Av & Ae)|(Av & Ae)].
    + left. split; congruence.
    + right. rewrite Bv, Be. split; [exact Av | lia].
  - right. split; [exact Bv | lia].
Qed.

Lemma accept_loop_cases (n : nat) : forall i accEnd inp,
  accept_loop p data groupMask n i accEnd inp = inp \/
  exists term, allows p term = true /\
               accept_loop p data groupMask n i accEnd inp = acceptToken inp term 0.
Proof.
  induction n as [|n IH]; intros i accEnd inp; simpl; [left; reflexivity|].
  destruct (i <? accEnd); [|left; reflexivity].
  destruct (Js.index data (i + 1)) as [m|], (Js.index data i) as [term|];
    try apply IH.
  destruct (0 <? Z.land m groupMask); simpl; [|apply IH].
  destruct (allows p term) eqn:Hallow; simpl; [|apply IH].
  match goal with |- context [if ?b then _ else _] => destruct b end;
    [|apply IH].
  right. exists term. auto.
Qed.

Lemma Scanned_acceptToken (inp : InputStream) (term : Z) :
  Inv text inp -> allows p term = true -> Scanned inp (acceptToken inp term 0).
Proof.
  intros HI Hallow.
  pose proof (acceptToken_Inv text inp term 0 HI) as HI'.
  unfold acceptToken in *.
  destruct (same_cache_write_token
              (set_tok_value_end term (resolvePos inp (pos inp) 0) (the_token inp))
              inp) as (E1&E2&E3&E4&E5&E6&E7&E8&E9&E10&E11).
  constructor; auto; try lia.
  - rewrite the_token_write_token. reflexivity.
  - right. rewrite the_token_write_token, E7.
    unfold set_tok_value_end, value, tok_end.
    rewrite resolvePos_zero. split; [exact Hallow | lia].
Qed.

Lemma Scanned_accept_loop (n : nat) (i accEnd : Z) (inp : InputStream) :
  Inv text inp -> Scanned inp (accept_loop p data groupMask n i accEnd inp).
Proof.
  intros HI. destruct (accept_loop_cases n i accEnd inp) as [->|(term & Ha & ->)].
  - apply Scanned_refl; exact HI.
  - apply Scanned_acceptToken; assumption.
Qed.

Lemma the_token_note_lookAhead (q : Z) (s : InputStream) :
  the_token (note_lookAhead q s) =
  if lookAhead (the_token s) <? q then set_lookAhead q (the_token s)
  else the_token s.
Proof.
  unfold note_lookAhead. destruct (_ <? _); [|reflexivity].
  apply the_token_write_token.
Qed.

Lemma the_token_advance_step (s : InputStream) :
  tok_start (the_token (advance_step s)) = tok_start (the_token s) /\
  value (the_token (advance_step s)) = value (the_token s) /\
  tok_end (the_token (advance_step s)) = tok_end (the_token s).
Proof.
  unfold advance_step. rewrite the_token_readNext, the_token_note_lookAhead.
  destruct (_ <? _); repeat split.
Qed.

Lemma Scanned_advance_one (inp : InputStream) :
  Inv text inp -> Scanned inp (advance inp 1).2.
Proof.
  intros HI. destruct (Z_lt_dec (pos inp) (end_ inp)) as [Hlt|Hge].
  - rewrite (advance_one text inp HI Hlt).
    destruct (advance_step_spec text inp HI (Inv_in_chunk text inp HI Hlt))
      as (HI1 & (E1&E2&E3&E4) & Hle & _).
    destruct (the_token_advance_step inp) as (T1 & T2 & T3).
    constructor; auto; lia.
  - rewrite (advance_at_end text inp 1 HI) by lia. apply Scanned_refl; exact HI.
Qed.

Lemma advance_one_moves (inp : InputStream) :
  Inv text inp -> pos inp < end_ inp -> pos inp < pos (advance inp 1).2.
Proof.
  intros HI Hlt. rewrite (advance_one text inp HI Hlt).
  destruct (advance_step_spec text inp HI (Inv_in_chunk text inp HI Hlt))
    as (_ & _ & Hle & _). lia.
Qed.

Hypothesis data_unsigned : Forall (fun x => 0 <= x) data.

Lemma data_cell (i x : Z) : Js.index data i = Some x -> 0 <= x.
Proof.
  unfold Js.index. destruct (i <? 0); [discriminate|]. intros Hx.
  pose proof (proj1 (Forall_forall _ _) data_unsigned) as Hall.
  apply Hall. eapply list_elem_of_lookup_2; eauto.
Qed.

Lemma index_beyond (i j : Z) :
  0 <= i <= j -> Js.index data i = None -> Js.index data j = None.
Proof.
  unfold Js.index. intros Hij.
  destruct (Z.ltb_spec i 0); [lia|]. destruct (Z.ltb_spec j 0); [lia|].
  rewrite !lookup_ge_None. lia.
Qed.

(** At the end of the input [next] is -1, below every cell of a
    [Uint16Array]: the search finds no edge, or runs off the array and
    reads [undefined] for the next state. *)
Lemma edge_search_at_end (accEnd : option Z) (n : nat) : forall low high,
  Z.to_nat (high - low) = n -> 0 <= low ->
  (forall e, accEnd = Some e -> 0 <= e) ->
  edge_search data accEnd (Some (-1)) low high = None \/
  edge_search data accEnd (Some (-1)) low high = Some None.
Proof.
  induction n as [n IH] using lt_wf_ind. intros low high Hn Hlow Hacc.
  rewrite edge_search_rounds.
  destruct (Z_lt_dec low high) as [Hlt|Hge]; [|left; reflexivity].
  cbv zeta.
  assert (Hmid : low <= Z.shiftr (low + high) 1 < high).
  { rewrite Z.shiftr_div_pow2 by lia. change (2 ^ 1) with 2.
    split; [apply Z.div_le_lower_bound | apply Z.div_lt_upper_bound]; lia. }
  set (mid := Z.shiftr (low + high) 1) in *.
  destruct accEnd as [e|]; simpl; [|right; reflexivity].
  specialize (Hacc e eq_refl).
  assert (Hsh : 0 <= Z.shiftl mid 1) by (apply Z.shiftl_nonneg; lia).
  destruct (Js.index data (e + (mid + Z.shiftl mid 1))) as [f|] eqn:Hf; simpl.
  - pose proof (data_cell _ _ Hf).
    destruct (Z.ltb_spec (-1) f); [|lia].
    apply (IH (Z.to_nat (mid - low))); auto; try lia.
    intros e' [= <-]. exact Hacc.
  - rewrite (index_beyond (e + (mid + Z.shiftl mid 1))
               (e + (mid + Z.shiftl mid 1) + 1) ltac:(lia) Hf).
    rewrite (index_beyond (e + (mid + Z.shiftl mid 1))
               (e + (mid + Z.shiftl mid 1) + 2) ltac:(lia) Hf).
    simpl. right. reflexivity.
Qed.

Lemma scan_step_Scanned (st : Z) (inp : InputStream) :
  Inv text inp ->
  match scan_step p data groupMask st inp with
  | inl inp' => Scanned inp inp'
  | inr (t, inp') =>
      Scanned inp inp' /\
      (pos inp < end_ inp -> pos inp < pos inp') /\
      (end_ inp <= pos inp -> t = None)
  end.
Proof.
  intros HI. unfold scan_step.
  destruct (Js.index data st) as [m|]; [|apply Scanned_refl; exact HI].
  destruct (Z.land groupMask m =? 0); [apply Scanned_refl; exact HI|].
  cbv zeta.
  set (inp1 := match Js.index data (st + 1) with
               | Some e => accept_loop p data groupMask
                             (Z.to_nat (e - (st + 3))) (st + 3) e inp
               | None => inp
               end).
  assert (H1 : Scanned inp inp1).
  { subst inp1. destruct (Js.index data (st + 1));
      [apply Scanned_accept_loop | apply Scanned_refl]; exact HI. }
  assert (Hnext : next inp1 = next inp).
  { subst inp1. destruct (Js.index data (st + 1));
      [apply next_accept_loop | reflexivity]. }
  assert (Hpos : pos inp1 = pos inp).
  { subst inp1. destruct (Js.index data (st + 1)) as [e|]; [|reflexivity].
    destruct (accept_loop_cases (Z.to_nat (e - (st + 3))) (st + 3) e inp)
      as [->|(term & _ & ->)]; [reflexivity|].
    unfold acceptToken. apply same_cache_write_token. }
  destruct (Js.index data (st + 2)) as [high|]; [|exact H1].
  destruct (edge_search data (Js.index data (st + 1)) (next inp1) 0 high)
    as [t|] eqn:Hsearch; [|exact H1].
  pose proof (scanned_Inv _ _ H1) as HI1.
  pose proof (scanned_end _ _ H1) as Hend.
  split; [|split].
  - eapply Scanned_trans; [exact H1 | apply Scanned_advance_one; exact HI1].
  - intros Hlt. rewrite <- Hpos. apply advance_one_moves; [exact HI1 | lia].
  - intros Hge. destruct (Inv_at_end text inp HI Hge) as (_ & _ & Hn & _).
    rewrite Hnext, Hn in Hsearch.
    destruct (edge_search_at_end (Js.index data (st + 1))
                (Z.to_nat (high - 0)) 0 high eq_refl ltac:(lia)
                (fun e He => data_cell _ _ He)) as [H|H];
      rewrite H in Hsearch; congruence.
Qed.

Lemma readToken_fuel_ends (fuel : nat) : forall (state : option Z) inp,
  Inv text inp ->
  (Z.to_nat (end_ inp - pos inp) + 2 <= fuel)%nat ->
  exists inp', readToken_fuel fuel p data groupMask state inp = Some inp' /\
               Scanned inp inp'.
Proof.
  induction fuel as [|fuel IH]; intros state inp HI Hfuel; [lia|].
  simpl. destruct state as [st|];
    [|exists inp; split; [reflexivity | apply Scanned_refl; exact HI]].
  pose proof (scan_step_Scanned st inp HI) as Hstep.
  destruct (scan_step p data groupMask st inp) as [inp'|[t inp']];
    [exists inp'; auto|].
  destruct Hstep as (Hsc & Hmove & Hstop).
  pose proof (scanned_end _ _ Hsc) as Hend.
  destruct (Z_lt_dec (pos inp) (end_ inp)) as [Hlt|Hge].
  - specialize (Hmove Hlt).
    destruct (IH t inp' (scanned_Inv _ _ Hsc) ltac:(lia)) as (inp'' & Hrun & Hsc').
    exists inp''. split; [exact Hrun | eapply Scanned_trans; eauto].
  - rewrite (Hstop ltac:(lia)). exists inp'. split; [|exact Hsc].
    destruct fuel; [lia | reflexivity].
Qed.

End ReadTokenLaws.

Section ReadTokenEnds.
Import Token.

(** [readToken] ends, on every table with the cells of a
    [Uint16Array], every group and every stream that satisfies the
    invariant: as many rounds as there are positions left before
    [end], and two more, are enough.  The stream
    it leaves satisfies the invariant, over the same input, range and
    gaps, at the same or a later position; the token keeps its start,
    and its value and end are as before or a value that the dialect
    allows and an end between the two positions. *)
Theorem readToken_ends (text : list Z) (p : Grammar) (data : list Z)
    (inp : InputStream) (group : Z) (fuel : nat) :
  Forall (fun x => 0 <= x < 2 ^ 16) data ->
  Inv text inp ->
  (Z.to_nat (end_ inp - pos inp) + 2 <= fuel)%nat ->
  exists inp',
    readToken fuel p data inp group = Some inp' /\
    Inv text inp' /\
    pos inp <= pos inp' /\
    (input inp' = input inp /\ start inp' = start inp /\
     end_ inp' = end_ inp /\ gaps inp' = gaps inp) /\
    tok_start (the_token inp') = tok_start (the_token inp) /\
    ((value (the_token inp') = value (the_token inp) /\
      tok_end (the_token inp') = tok_end (the_token inp)) \/
     (allows p (value (the_token inp')) = true /\
      pos inp <= tok_end (the_token inp') <= pos inp')).
Proof.
  intros Hcells HI Hfuel. unfold readToken.
  assert (Hdata : Forall (fun x => 0 <= x) data)
    by (eapply Forall_impl; [exact Hcells | cbv beta; intros x Hx; lia]).
  destruct (readToken_fuel_ends text p data (Js.shl 1 group) Hdata fuel
              (Some 0) inp HI Hfuel) as (inp' & Hrun & [S1 S2 S3 S4 S5 S6 S7 S8]).
  exists inp'. split; [exact Hrun|]. split; [exact S1|]. split; [exact S2|].
  split; [auto|]. split; [exact S7 | exact S8].
Qed.

(** The mask [1 << group] takes the group modulo 32, and is negative
    for group 31. *)
Example group_mask_wraps :
  Js.shl 1 0 = 1 /\ Js.shl 1 32 = 1 /\ Js.shl 1 3 = 8 /\
  Js.shl 1 31 = - 2 ^ 31 /\ Js.shl 1 (-1) = - 2 ^ 31.
Proof. repeat split; reflexivity. Qed.

End ReadTokenEnds.

(** ** Runs of the stream laws *)

Section LawRuns.
Import Token.

Lemma abcd_at_5_reachable : reachable abcd_text abcd_at_5.
Proof.
  unfold abcd_at_5. do 2 apply reach_advance. apply reach_new.
  - apply StringInput_ok.
  - repeat constructor; lia.
  - lia.
  - vm_compute. discriminate.
  - simpl. unfold abcd_gap. simpl. lia.
Qed.

Lemma reachable_next_witness :
  next abcd_at_5 = Some 99 /\ ~ in_gap (gap_list abcd_at_5) 5.
Proof.
  destruct (reachable_next abcd_text abcd_at_5 abcd_at_5_reachable)
    as (_ & Hfree & Hnext & _).
  split; [exact Hnext|]. apply Hfree. reflexivity.
Defined.

Lemma reset_lands_witness :
  pos (reset abcd_stream 3 None) = 5 /\ next (reset abcd_stream 3 None) = Some 99.
Proof.
  destruct (reset_lands abcd_text abcd_stream 3 None abcd_stream_Inv)
    as (_ & _ & _ & _ & Hnext & _); [vm_compute; discriminate|].
  split; [reflexivity | exact Hnext].
Defined.

Lemma resolvePos_spec_witness :
  resolvePos abcd_stream 1 2 = 6 /\ resolvePos abcd_stream 6 (-2) = 4.
Proof.
  assert (Hsorted : gaps_sorted 0 (gap_list abcd_stream))
    by (simpl; unfold abcd_gap; simpl; lia).
  split.
  - assert (Hfree : ~ in_gap (gap_list abcd_stream) 1).
    { intros (g & Hg & Hin). apply list_elem_of_singleton in Hg. subst g.
      simpl in Hin. lia. }
    destruct (resolvePos_spec abcd_stream 1 2 Hsorted Hfree) as [Hfwd _].
    destruct (Hfwd ltac:(lia)) as (_ & _ & _). reflexivity.
  - assert (Hfree : ~ in_gap (gap_list abcd_stream) 6).
    { intros (g & Hg & Hin). apply list_elem_of_singleton in Hg. subst g.
      simpl in Hin. lia. }
    destruct (resolvePos_spec abcd_stream 6 (-2) Hsorted Hfree) as [_ Hback].
    apply Hback. lia.
Defined.

Lemma peek_zero_and_back_witness :
  (peek abcd_stream 0).1 = Some 97 /\
  (peek (advance abcd_stream 1).2 (-1)).1 = Some 97.
Proof.
  destruct (peek_zero_and_back abcd_text abcd_stream abcd_stream_Inv)
    as [Hzero Hback].
  split; [exact Hzero | apply Hback; [vm_compute|]; reflexivity].
Defined.

Lemma advance_reaches_resolved_witness :
  pos (advance abcd_stream 2).2 = 5 /\
  (advance abcd_stream 2).1 = (peek abcd_stream 2).1.
Proof.
  apply (advance_reaches_resolved abcd_text 2 abcd_stream abcd_stream_Inv);
    [lia | reflexivity].
Defined.

Lemma two_edges_data_unsigned :
  Forall (fun x => 0 <= x < 2 ^ 16) two_edges_data.
Proof. repeat constructor; lia. Qed.

Lemma readToken_ends_witness :
  exists inp', readToken 9 any_grammar two_edges_data abcd_stream 0 = Some inp' /\
               pos abcd_stream <= pos inp'.
Proof.
  destruct (readToken_ends abcd_text any_grammar two_edges_data abcd_stream 0 9
              two_edges_data_unsigned abcd_stream_Inv)
    as (inp' & Hrun & _ & Hpos & _); [vm_compute; lia|].
  exists inp'. split; [exact Hrun | exact Hpos].
Defined.

End LawRuns.

(** ** state.ts: the table lookups and the state constructor *)

Module Tables.
Import State.

(** [lookup]: the array holds (key, value) pairs; the value of the
    first pair with the key is returned, [undefined] ([None]) when the
    array ends right after the key, and 0 when no pair has the key. *)
Fixpoint lookup (actions : list Z) (term : Z) : option Z :=
  match actions with
  | [] => Some 0
  | key :: rest =>
      if key =? term then Js.index rest 0
      else match rest with
           | [] => Some 0
           | _ :: rest' => lookup rest' term
           end
  end.

(** [lookup(...) != 0]; [undefined != 0] is true. *)
Definition hasAction (st : ParseState) (terminal : Z) : bool :=
  match lookup (actions st) terminal with
  | Some v => negb (v =? 0)
  | None => true
  end.

Definition getGoto (st : ParseState) (term : Z) : option Z :=
  lookup (goto st) term.

Definition getRecover (st : ParseState) (terminal : Z) : option Z :=
  lookup (recover st) terminal.

Definition none : list Z := [].

(** [s(actions, goto, defaultReduce, skip, tokenizers, recover)]; the
    counter [s.id] is passed in and handed back.  [actions] is a number
    or an array, [recover] may be left out. *)
Definition s (acts : Z + list Z) (goto_ : list Z) (defaultReduce_ : Z)
    (recover_ : option (list Z)) (s_id : Z) : ParseState * Z :=
  ({| id := s_id;
      actions := match acts with inl _ => none | inr a => a end;
      goto := goto_;
      recover := match recover_ with Some r => r | None => none end;
      alwaysReduce := match acts with inl n => n | inr _ => -1 end;
      defaultReduce := defaultReduce_ |},
   s_id + 1).

(** The arguments of one call of [s], and a run of calls one after the
    other, as in the array of states of a parser. *)
Record s_call := {
  call_actions : Z + list Z;
  call_goto : list Z;
  call_defaultReduce : Z;
  call_recover : option (list Z)
}.

Fixpoint s_calls (calls : list s_call) (s_id : Z) : list ParseState * Z :=
  match calls with
  | [] => ([], s_id)
  | c :: rest =>
      let '(st, s_id1) :=
        s (call_actions c) (call_goto c) (call_defaultReduce c)
          (call_recover c) s_id in
      let '(sts, s_id2) := s_calls rest s_id1 in
      (st :: sts, s_id2)
  end.

End Tables.

Section TableFacts.
Import State Tables.

Lemma lookup_pairs (x y : Z) (l : list Z) (term : Z) :
  lookup (x :: y :: l) term = if x =? term then Some y else lookup l term.
Proof. simpl. destruct (x =? term); reflexivity. Qed.

Lemma lookup_first (table : list Z) (term : Z) : forall k : nat,
  table !! (2 * k)%nat = Some term ->
  (forall j : nat, (j < k)%nat -> table !! (2 * j)%nat <> Some term) ->
  lookup table term = table !! (2 * k + 1)%nat.
Proof.
  induction table as [| x | x y l IH] using pairwise_ind; intros k Hk Hfirst.
  - destruct k; discriminate.
  - destruct k as [|k]; [|discriminate].
    injection Hk as ->. simpl. rewrite Z.eqb_refl. reflexivity.
  - rewrite lookup_pairs. destruct k as [|k].
    + injection Hk as ->. rewrite Z.eqb_refl. reflexivity.
    + destruct (Z.eqb_spec x term) as [->|Hne].
      * exfalso. apply (Hfirst O); [lia | reflexivity].
      * replace (2 * S k + 1)%nat with (S (S (2 * k + 1))) by lia.
        replace (2 * S k)%nat with (S (S (2 * k))) in Hk by lia.
        apply IH; [exact Hk|].
        intros j Hj. specialize (Hfirst (S j) ltac:(lia)).
        replace (2 * S j)%nat with (S (S (2 * j))) in Hfirst by lia.
        exact Hfirst.
Qed.

Lemma lookup_none (table : list Z) (term : Z) :
  (forall k : nat, table !! (2 * k)%nat <> Some term) ->
  lookup table term = Some 0.
Proof.
  induction table as [| x | x y l IH] using pairwise_ind; intros Hnone.
  - reflexivity.
  - simpl. destruct (Z.eqb_spec x term) as [->|Hne]; [|reflexivity].
    exfalso. apply (Hnone O). reflexivity.
  - rewrite lookup_pairs. destruct (Z.eqb_spec x term) as [->|Hne].
    + exfalso. apply (Hnone O). reflexivity.
    + apply IH. intros k. specialize (Hnone (S k)).
      replace (2 * S k)%nat with (S (S (2 * k))) in Hnone by lia.
      exact Hnone.
Qed.

(** [lookup] returns the cell after the first even-indexed cell that
    holds the key, and 0 when no even-indexed cell holds it.  So
    [getGoto] and [getRecover] give the entry of the first pair for the
    symbol, and [hasAction] tells whether that entry is not 0. *)
Theorem lookup_spec (table : list Z) (term : Z) :
  (forall k : nat,
      table !! (2 * k)%nat = Some term ->
      (forall j : nat, (j < k)%nat -> table !! (2 * j)%nat <> Some term) ->
      lookup table term = table !! (2 * k + 1)%nat) /\
  ((forall k : nat, table !! (2 * k)%nat <> Some term) ->
   lookup table term = Some 0) /\
  (forall st : ParseState,
      getGoto st term = lookup (goto st) term /\
      getRecover st term = lookup (recover st) term /\
      (hasAction st term = false <-> lookup (actions st) term = Some 0)).
Proof.
  split; [|split].
  - apply lookup_first.
  - apply lookup_none.
  - intros st. split; [reflexivity|]. split; [reflexivity|].
    unfold hasAction. destruct (lookup (actions st) term) as [v|].
    + destruct (Z.eqb_spec v 0) as [->|Hne]; simpl; split; intros H;
        try reflexivity; try discriminate. congruence.
    + split; discriminate.
Qed.

Lemma s_calls_length (calls : list s_call) : forall c,
  length (s_calls calls c).1 = length calls /\
  (s_calls calls c).2 = c + Js.len calls.
Proof.
  induction calls as [|a rest IH]; intros c; simpl.
  - split; [reflexivity | unfold Js.len; simpl; lia].
  - destruct (s_calls rest (c + 1)) as [sts c2] eqn:Hrest.
    specialize (IH (c + 1)). rewrite Hrest in IH. simpl in *.
    destruct IH as [IH1 IH2]. split; [lia|]. unfold Js.len in *. simpl. lia.
Qed.

(** The states that successive calls of [s] make are numbered in the
    order of the calls, from the value of [s.id] before the first one,
    and [s.id] ends that many higher.  A call with a number for
    [actions] makes a state with no actions that always reduces:
    [hasAction] is false for every terminal and [anyReduce] is that
    number when it is not negative (0 otherwise).  A call with an array
    makes a state with that array for actions: its [anyReduce] is the
    first action of a pair that is positive, and 0 when none is, and
    its [hasAction] tells whether the action of the first pair for the
    terminal is not 0, and is false when there is no such pair.
    [recover] left out reads as an empty table. *)
Theorem s_calls_spec (calls : list s_call) (c : Z) :
  (s_calls calls c).2 = c + Js.len calls /\
  length (s_calls calls c).1 = length calls /\
  (forall (k : nat) (a : s_call),
      calls !! k = Some a ->
      exists st,
        (s_calls calls c).1 !! k = Some st /\
        id st = c + Z.of_nat k /\
        goto st = call_goto a /\
        defaultReduce st = call_defaultReduce a /\
        (call_recover a = None -> forall t, getRecover st t = Some 0) /\
        (forall r, call_recover a = Some r -> recover st = r) /\
        (forall n, call_actions a = inl n ->
                   (forall t, hasAction st t = false) /\
                   anyReduce st = Z.max n 0) /\
        (forall acts, call_actions a = inr acts ->
                      actions st = acts /\
                      (forall (j : nat) r,
                          acts !! (2 * j + 1)%nat = Some r -> 0 < r ->
                          (forall (i : nat) b,
                              (i < j)%nat -> acts !! (2 * i + 1)%nat = Some b ->
                              b <= 0) ->
                          anyReduce st = r) /\
                      ((forall (j : nat) r,
                           acts !! (2 * j + 1)%nat = Some r -> r <= 0) ->
                       anyReduce st = 0) /\
                      (forall t,
                          (forall j : nat, acts !! (2 * j)%nat <> Some t) ->
                          hasAction st t = false) /\
                      (forall t (j : nat) v,
                          acts !! (2 * j)%nat = Some t ->
                          (forall i : nat, (i < j)%nat ->
                                           acts !! (2 * i)%nat <> Some t) ->
                          acts !! (2 * j + 1)%nat = Some v ->
                          hasAction st t = negb (v =? 0)))).
Proof.
  destruct (s_calls_length calls c) as [Hlen Hid].
  split; [exact Hid|]. split; [exact Hlen|].
  revert c Hlen Hid. induction calls as [|b rest IH]; intros c _ _ k a Hk.
  - destruct k; discriminate.
  - simpl. destruct (s_calls rest (c + 1)) as [sts c2] eqn:Hrest.
    destruct k as [|k].
    + injection Hk as ->. eexists. split; [reflexivity|]. simpl.
      split; [lia|]. split; [reflexivity|]. split; [reflexivity|].
      split; [intros -> t; reflexivity|].
      split; [intros r ->; reflexivity|].
      split.
      * intros n ->. split; [intros t; reflexivity|].
        unfold anyReduce. simpl. destruct (Z.leb_spec 0 n); simpl; lia.
      * intros acts ->. split; [reflexivity|].
        unfold anyReduce, hasAction. simpl.
        split; [|split; [|split]].
        -- intros j r Hr Hpos Hfirst. apply (anyReduce_scan_first acts j r); auto.
        -- intros Hnone. apply anyReduce_scan_none. exact Hnone.
        -- intros t Hnone. rewrite (lookup_none acts t Hnone). reflexivity.
        -- intros t j v Hj Hfirst Hv.
           pose proof (lookup_first acts t j Hj Hfirst) as Hlook.
           rewrite Hlook.
           replace (acts !! (2 * j + 1)%nat) with (Some v) by (symmetry; exact Hv).
           reflexivity.
    + destruct (s_calls_length rest (c + 1)) as [Hl Hi].
      destruct (IH (c + 1) Hl Hi k a Hk) as (st & Hst & Hidst & Hrest').
      rewrite Hrest in Hst. exists st. split; [exact Hst|].
      split; [lia | exact Hrest'].
Qed.

End TableFacts.

(** ** tree.ts: [NodeCursor] *)

Module Cursors.
Import Trees.

(** How a call ends: with a value, with a [TypeError] (a property read
    on [undefined]), or with the fuel of the model used up. *)
Inductive Step (A : Type) :=
| Done (a : A)
| TypeError
| NoFuel.
Arguments Done {A} a.
Arguments TypeError {A}.
Arguments NoFuel {A}.

Section NodeCursor.
Context {T : Type}.
(** [parser.getTag], applied to a cell that may be [undefined], and
    the constant [TERM_TAGGED] of term.ts. *)
Variable getTag : option Z -> T.
Variable TERM_TAGGED : Z.

(** The three stacks are arrays, pushed to and popped at their ends;
    [start], [end] and [tag] are [undefined] before the first call of
    [next]. *)
Record NodeCursor := {
  trees : list Tree;
  offset : list (option Z);
  index : list Z;
  leaf : option (list Z);
  leafOffset : option Z;
  leafIndex : Z;
  start : option Z;
  end_ : option Z;
  tag : option T
}.

(** [new NodeCursor(tree, parser)], on a [Tree] or on a [TreeBuffer]. *)
Definition new_NodeCursor (tree : Tree + list Z) : NodeCursor :=
  {| trees := match tree with inl t => [t] | inr _ => [] end;
     offset := [Some 0];
     index := [0];
     leaf := match tree with inl _ => None | inr buffer => Some buffer end;
     leafOffset := Some 0;
     leafIndex := 0;
     start := None; end_ := None; tag := None |}.

Definition as_Tree (tag _length : Z) (cs : list Child) (ps : list Z) : Tree :=
  NodeTree tag _length cs ps.

(** [next()]: every round of the [for (;;)] loop takes one unit of
    fuel. *)
Fixpoint next_fuel (fuel : nat) (c : NodeCursor) : Step (bool * NodeCursor) :=
  match fuel with
  | O => NoFuel
  | S fuel' =>
      match leaf c with
      | Some buf =>
          let index0 := leafIndex c in
          if index0 =? Js.len buf then
            next_fuel fuel'
              {| trees := trees c; offset := offset c; index := index c;
                 leaf := None; leafOffset := leafOffset c;
                 leafIndex := leafIndex c;
                 start := start c; end_ := end_ c; tag := tag c |}
          else
            Done (true,
              {| trees := trees c; offset := offset c; index := index c;
                 leaf := leaf c; leafOffset := leafOffset c;
                 leafIndex := leafIndex c + 4;
                 start := Js.add (leafOffset c) (Js.index buf (index0 + 1));
                 end_ := Js.add (leafOffset c) (Js.index buf (index0 + 2));
                 tag := Some (getTag (Js.index buf index0)) |})
      | None =>
          let last := Js.len (trees c) - 1 in
          if last <? 0 then Done (false, c)
          else
            match Js.index (trees c) last, Js.index (index c) last with
            | Some top, Some index0 =>
                if index0 =? Js.len (children_of top) then
                  next_fuel fuel'
                    {| trees := removelast (trees c);
                       offset := removelast (offset c);
                       index := removelast (index c);
                       leaf := leaf c; leafOffset := leafOffset c;
                       leafIndex := leafIndex c;
                       start := start c; end_ := end_ c; tag := tag c |}
                else
                  let start0 :=
                    Js.add (mjoin (Js.index (offset c) last))
                      (Js.index (positions_of top) index0) in
                  match Js.index (children_of top) index0 with
                  | Some (TreeBuffer buffer) =>
                      next_fuel fuel'
                        {| trees := trees c; offset := offset c;
                           index := <[Z.to_nat last := index0 + 1]> (index c);
                           leaf := Some buffer; leafOffset := start0;
                           leafIndex := 0;
                           start := start c; end_ := end_ c; tag := tag c |}
                  | Some (Node tag0 l cs ps) =>
                      let c' :=
                        {| trees := trees c ++ [as_Tree tag0 l cs ps];
                           offset := offset c ++ [start0];
                           index := <[Z.to_nat last := index0 + 1]> (index c) ++ [0];
                           leaf := leaf c; leafOffset := leafOffset c;
                           leafIndex := leafIndex c;
                           start := start c; end_ := end_ c; tag := tag c |} in
                      if Z.land tag0 TERM_TAGGED =? 0 then next_fuel fuel' c'
                      else
                        Done (true,
                          {| trees := trees c'; offset := offset c';
                             index := index c';
                             leaf := leaf c'; leafOffset := leafOffset c';
                             leafIndex := leafIndex c';
                             start := start0;
                             end_ := Js.add start0 (Some l);
                             tag := Some (getTag (Some tag0)) |})
                  | None => TypeError
                  end
            | _, _ => TypeError
            end
      end
  end.

(** What a caller reads off the cursor after a call that returned
    [true]. *)
Definition Item : Type := option T * option Z * option Z.

Definition current (c : NodeCursor) : Item := (tag c, start c, end_ c).

(** The usual loop over a cursor, [while (cursor.next()) ...], that
    collects what it reads; [fuel] bounds the calls and the rounds in
    each. *)
Fixpoint drain (fuel : nat) (c : NodeCursor) : Step (list Item) :=
  match fuel with
  | O => NoFuel
  | S fuel' =>
      match next_fuel fuel c with
      | Done (true, c') =>
          match drain fuel' c' with
          | Done items => Done (current c' :: items)
          | TypeError => TypeError
          | NoFuel => NoFuel
          end
      | Done (false, _) => Done []
      | TypeError => TypeError
      | NoFuel => NoFuel
      end
  end.

End NodeCursor.
End Cursors.

(** ** [NodeCursor.next] walks the tree in document order *)

Section CursorWalk.
Import Trees Cursors.
Context {T : Type}.
Variable getTag : option Z -> T.
Variable TERM_TAGGED : Z.

#[local] Notation Item := (@Item T).
#[local] Notation NodeCursor := (@NodeCursor T).

(** The nodes of a buffer, one per quad, in the order of the buffer. *)
Fixpoint buffer_items (off : option Z) (buf : list Z) : list Item :=
  match buf with
  | tag0 :: s :: e :: _ :: rest =>
      (Some (getTag (Some tag0)), Js.add off (Some s), Js.add off (Some e))
        :: buffer_items off rest
  | _ => []
  end.

(** The walk over the children of a tree that starts at [off], given
    the walk of each child: child [i] starts at [off + positions[i]]. *)
Definition items_with (child_items : option Z -> Child -> list Item)
    : list Child -> list Z -> option Z -> list Item :=
  fix walk (cs : list Child) (ps : list Z) (off : option Z) : list Item :=
    match cs with
    | [] => []
    | c :: cs' => child_items (Js.add off (head ps)) c ++ walk cs' (tail ps) off
    end.

(** The tagged nodes at and below a child, parents before children
    and siblings from left to right. *)
Fixpoint Child_items (off : option Z) (c : Child) : list Item :=
  match c with
  | TreeBuffer buf => buffer_items off buf
  | Node tag0 l cs ps =>
      (if Z.land tag0 TERM_TAGGED =? 0 then []
       else [(Some (getTag (Some tag0)), off, Js.add off (Some l))])
      ++ items_with Child_items cs ps off
  end.

Definition Tree_items (t : Tree) : list Item :=
  items_with Child_items (children_of t) (positions_of t) (Some 0).

(** Every buffer below holds whole quads. *)
Fixpoint whole (c : Child) : Prop :=
  match c with
  | TreeBuffer buf => (4 | Js.len buf)
  | Node _ _ cs _ =>
      (fix all (cs : list Child) : Prop :=
         match cs with
         | [] => True
         | c :: cs' => whole c /\ all cs'
         end) cs
  end.

Definition all_whole (cs : list Child) : Prop := Forall whole cs.

(** The rounds of [next] that a child costs. *)
Fixpoint Child_work (c : Child) : nat :=
  match c with
  | TreeBuffer buf => (2 + length buf)%nat
  | Node _ _ cs _ =>
      (2 + (fix sum (cs : list Child) : nat :=
              match cs with
              | [] => O
              | c :: cs' => (Child_work c + sum cs')%nat
              end) cs)%nat
  end.

Fixpoint children_work (cs : list Child) : nat :=
  match cs with
  | [] => O
  | c :: cs' => (Child_work c + children_work cs')%nat
  end.

Definition Tree_work (t : Tree) : nat := (1 + children_work (children_of t))%nat.


(** *** The stacks of the cursor *)

(** One level of the three stacks: a tree, where it starts, and the
    index of the child to visit next. *)
Record frame := { f_tree : Tree; f_off : option Z; f_idx : nat }.

Definition stack_or {A B} (f : A -> B) (fs : list A) (other : list B) : list B :=
  match fs with [] => other | _ => map f fs end.

(** A cursor whose stacks hold the frames [fs], first pushed first;
    with no frame, [offset] and [index] are what they are. *)
Definition at_frames (fs : list frame) (xo : list (option Z)) (xi : list Z)
    (lf : option (list Z)) (lo : option Z) (li : Z)
    (s e : option Z) (tg : option T) : NodeCursor :=
  {| trees := map f_tree fs;
     offset := stack_or f_off fs xo;
     index := stack_or (fun f => Z.of_nat (f_idx f)) fs xi;
     leaf := lf; leafOffset := lo; leafIndex := li;
     start := s; end_ := e; tag := tg |}.

Definition frame_items (f : frame) : list Item :=
  items_with Child_items (drop (f_idx f) (children_of (f_tree f)))
    (drop (f_idx f) (positions_of (f_tree f))) (f_off f).

Definition leaf_items (lf : option (list Z)) (lo : option Z) (li : Z) : list Item :=
  match lf with
  | Some buf => buffer_items lo (drop (Z.to_nat li) buf)
  | None => []
  end.

(** What the cursor has still to report: the rest of the leaf, then
    the rest of each level from the last pushed to the first. *)
Definition to_come (fs : list frame) (lf : option (list Z)) (lo : option Z)
    (li : Z) : list Item :=
  leaf_items lf lo li ++ flat_map frame_items (rev fs).

Definition frame_work (f : frame) : nat :=
  (1 + children_work (drop (f_idx f) (children_of (f_tree f))))%nat.

Definition leaf_work (lf : option (list Z)) (li : Z) : nat :=
  match lf with
  | Some buf => (1 + length (drop (Z.to_nat li) buf))%nat
  | None => O
  end.

Definition work (fs : list frame) (lf : option (list Z)) (li : Z) : nat :=
  (leaf_work lf li + sum_list_with frame_work fs)%nat.

Definition frame_ok (f : frame) : Prop :=
  all_whole (children_of (f_tree f)) /\
  (f_idx f <= length (children_of (f_tree f)))%nat.

Definition leaf_ok (lf : option (list Z)) (li : Z) : Prop :=
  match lf with
  | Some buf => 0 <= li <= Js.len buf /\ (4 | Js.len buf - li)
  | None => True
  end.

Lemma stack_or_snoc {A B} (f : A -> B) (fs : list A) (x : A) (other : list B) :
  stack_or f (fs ++ [x]) other = map f fs ++ [f x].
Proof. destruct fs; simpl; [reflexivity|]. rewrite map_app. reflexivity. Qed.

Lemma index_last {A} (l : list A) (x : A) :
  Js.index (l ++ [x]) (Js.len (l ++ [x]) - 1) = Some x.
Proof.
  unfold Js.index, Js.len. rewrite length_app. simpl.
  destruct (Z.ltb_spec (Z.of_nat (length l + 1) - 1) 0); [lia|].
  replace (Z.to_nat (Z.of_nat (length l + 1) - 1)) with (length l + 0)%nat by lia.
  rewrite lookup_app_r by lia. replace (length l + 0 - length l)%nat with O by lia.
  reflexivity.
Qed.

Lemma insert_last {A} (l : list A) (x y : A) :
  <[Z.to_nat (Js.len (l ++ [x]) - 1) := y]> (l ++ [x]) = l ++ [y].
Proof.
  unfold Js.len. rewrite length_app. simpl.
  replace (Z.to_nat (Z.of_nat (length l + 1) - 1)) with (length l + 0)%nat by lia.
  rewrite insert_app_r. reflexivity.
Qed.

Lemma len_snoc {A} (l : list A) (x : A) : Js.len (l ++ [x]) - 1 = Js.len l.
Proof. unfold Js.len. rewrite length_app. simpl. lia. Qed.

Lemma index_nat {A} (l : list A) (i : nat) : Js.index l (Z.of_nat i) = l !! i.
Proof.
  unfold Js.index. destruct (Z.ltb_spec (Z.of_nat i) 0); [lia|].
  rewrite Nat2Z.id. reflexivity.
Qed.

Lemma tail_drop {A} (l : list A) (n : nat) : tail (drop n l) = drop (S n) l.
Proof.
  revert l. induction n as [|n IH]; intros [|x l]; simpl; try reflexivity.
  apply IH.
Qed.

Lemma head_drop {A} (l : list A) (n : nat) : head (drop n l) = l !! n.
Proof. rewrite head_lookup, lookup_drop. f_equal. lia. Qed.

Lemma Child_work_Node tag0 l cs ps :
  Child_work (Node tag0 l cs ps) = (2 + children_work cs)%nat.
Proof. reflexivity. Qed.

Lemma whole_Node tag0 l cs ps : whole (Node tag0 l cs ps) <-> all_whole cs.
Proof.
  unfold all_whole. simpl. induction cs as [|c cs IH].
  - split; [constructor | trivial].
  - rewrite Forall_cons. rewrite IH. reflexivity.
Qed.

Lemma quads_cases (l : list Z) :
  (4 | Js.len l) ->
  l = [] \/ exists a b c d rest, l = a :: b :: c :: d :: rest /\ (4 | Js.len rest).
Proof.
  intros [k Hk]. destruct l as [|a [|b [|c [|d rest]]]];
    unfold Js.len in *; simpl in *; try lia; [left; reflexivity|].
  right. exists a, b, c, d, rest. split; [reflexivity|].
  exists (k - 1). unfold Js.len. lia.
Qed.

Lemma frame_items_done (f : frame) :
  f_idx f = length (children_of (f_tree f)) -> frame_items f = [].
Proof. intros H. unfold frame_items. rewrite H, drop_all. reflexivity. Qed.

Lemma frame_items_child (f : frame) (child : Child) :
  children_of (f_tree f) !! f_idx f = Some child ->
  frame_items f =
  Child_items (Js.add (f_off f) (positions_of (f_tree f) !! f_idx f)) child
    ++ frame_items {| f_tree := f_tree f; f_off := f_off f; f_idx := S (f_idx f) |}.
Proof.
  intros Hc. unfold frame_items. simpl.
  rewrite (drop_S _ _ _ Hc). simpl. rewrite head_drop, tail_drop. reflexivity.
Qed.

Lemma frame_work_child (f : frame) (child : Child) :
  children_of (f_tree f) !! f_idx f = Some child ->
  frame_work f =
  (Child_work child
   + frame_work {| f_tree := f_tree f; f_off := f_off f; f_idx := S (f_idx f) |})%nat.
Proof.
  intros Hc. unfold frame_work. simpl. rewrite (drop_S _ _ _ Hc). simpl. lia.
Qed.


Lemma stack_or_nil {A B} (f : A -> B) (fs : list A) : stack_or f fs [] = map f fs.
Proof. destruct fs; reflexivity. Qed.

Lemma to_come_snoc (below : list frame) (f : frame) lf lo li :
  to_come (below ++ [f]) lf lo li
  = leaf_items lf lo li ++ frame_items f ++ flat_map frame_items (rev below).
Proof. unfold to_come. rewrite rev_app_distr. reflexivity. Qed.

Lemma work_snoc (below : list frame) (f : frame) lf li :
  work (below ++ [f]) lf li
  = (leaf_work lf li + (frame_work f + sum_list_with frame_work below))%nat.
Proof. unfold work. rewrite sum_list_with_app. simpl. lia. Qed.

(** *** One round of the loop of [next] *)

Lemma round_leaf_end fuel fs xo xi buf lo li s e tg :
  li = Js.len buf ->
  next_fuel getTag TERM_TAGGED (S fuel) (at_frames fs xo xi (Some buf) lo li s e tg)
  = next_fuel getTag TERM_TAGGED fuel (at_frames fs xo xi None lo li s e tg).
Proof.
  intros ->. cbn [next_fuel at_frames leaf leafIndex].
  rewrite Z.eqb_refl. reflexivity.
Qed.

Lemma round_leaf_quad fuel fs xo xi buf lo li s e tg :
  li <> Js.len buf ->
  next_fuel getTag TERM_TAGGED (S fuel) (at_frames fs xo xi (Some buf) lo li s e tg)
  = Done (true,
          at_frames fs xo xi (Some buf) lo (li + 4)
            (Js.add lo (Js.index buf (li + 1)))
            (Js.add lo (Js.index buf (li + 2)))
            (Some (getTag (Js.index buf li)))).
Proof.
  intros Hne. cbn [next_fuel at_frames leaf leafIndex].
  destruct (Z.eqb_spec li (Js.len buf)); [contradiction | reflexivity].
Qed.

Lemma round_empty fuel xo xi lo li s e tg :
  next_fuel getTag TERM_TAGGED (S fuel) (at_frames [] xo xi None lo li s e tg)
  = Done (false, at_frames [] xo xi None lo li s e tg).
Proof. reflexivity. Qed.

(** The top of the stacks of a cursor with at least one frame. *)
Lemma top_of_stacks (below : list frame) (f : frame) xo xi lf lo li s e tg :
  let c := at_frames (below ++ [f]) xo xi lf lo li s e tg in
  (Js.len (trees c) - 1 <? 0) = false /\
  Js.index (trees c) (Js.len (trees c) - 1) = Some (f_tree f) /\
  Js.index (index c) (Js.len (trees c) - 1) = Some (Z.of_nat (f_idx f)) /\
  Js.index (offset c) (Js.len (trees c) - 1) = Some (f_off f) /\
  removelast (trees c) = map f_tree below /\
  removelast (offset c) = map f_off below /\
  removelast (index c) = map (fun f => Z.of_nat (f_idx f)) below /\
  (forall v, <[Z.to_nat (Js.len (trees c) - 1) := v]> (index c)
             = map (fun f => Z.of_nat (f_idx f)) below ++ [v]) /\
  trees c = map f_tree below ++ [f_tree f] /\
  offset c = map f_off below ++ [f_off f].
Proof.
  cbn [at_frames trees index offset]. rewrite !stack_or_snoc, map_app. simpl map.
  assert (Hi : Js.len (map f_tree below ++ [f_tree f]) - 1
               = Js.len (map (fun f => Z.of_nat (f_idx f)) below
                           ++ [Z.of_nat (f_idx f)]) - 1)
    by (unfold Js.len; rewrite !length_app, !length_map; reflexivity).
  assert (Ho : Js.len (map f_tree below ++ [f_tree f]) - 1
               = Js.len (map f_off below ++ [f_off f]) - 1)
    by (unfold Js.len; rewrite !length_app, !length_map; reflexivity).
  split; [rewrite len_snoc; apply Z.ltb_ge; unfold Js.len; lia|].
  split; [apply index_last|].
  split; [rewrite Hi; apply index_last|].
  split; [rewrite Ho; apply index_last|].
  split; [apply removelast_last|].
  split; [apply removelast_last|].
  split; [apply removelast_last|].
  split; [intros v; rewrite Hi; apply insert_last|].
  split; reflexivity.
Qed.

Lemma round_pop fuel below f xo xi lo li s e tg :
  f_idx f = length (children_of (f_tree f)) ->
  next_fuel getTag TERM_TAGGED (S fuel)
    (at_frames (below ++ [f]) xo xi None lo li s e tg)
  = next_fuel getTag TERM_TAGGED fuel (at_frames below [] [] None lo li s e tg).
Proof.
  intros Hdone.
  destruct (top_of_stacks below f xo xi None lo li s e tg)
    as (H1 & H2 & H3 & H4 & H5 & H6 & H7 & _).
  cbv zeta in *. cbn [next_fuel].
  change (leaf (at_frames (below ++ [f]) xo xi None lo li s e tg)) with (@None (list Z)).
  cbv iota beta. rewrite H1, H2, H3, H5, H6, H7.
  destruct (Z.eqb_spec (Z.of_nat (f_idx f)) (Js.len (children_of (f_tree f))));
    [|unfold Js.len in *; lia].
  unfold at_frames. rewrite !stack_or_nil. reflexivity.
Qed.

Definition step_frame (f : frame) : frame :=
  {| f_tree := f_tree f; f_off := f_off f; f_idx := S (f_idx f) |}.

Definition child_start (f : frame) : option Z :=
  Js.add (f_off f) (positions_of (f_tree f) !! f_idx f).

Lemma round_buffer fuel below f buffer xo xi lo li s e tg :
  children_of (f_tree f) !! f_idx f = Some (TreeBuffer buffer) ->
  next_fuel getTag TERM_TAGGED (S fuel)
    (at_frames (below ++ [f]) xo xi None lo li s e tg)
  = next_fuel getTag TERM_TAGGED fuel
      (at_frames (below ++ [step_frame f]) xo xi (Some buffer) (child_start f) 0
         s e tg).
Proof.
  intros Hchild. pose proof (lookup_lt_Some _ _ _ Hchild) as Hlt.
  destruct (top_of_stacks below f xo xi None lo li s e tg)
    as (H1 & H2 & H3 & H4 & H5 & H6 & H7 & H8 & H9 & H10).
  cbv zeta in *. cbn [next_fuel].
  change (leaf (at_frames (below ++ [f]) xo xi None lo li s e tg)) with (@None (list Z)).
  cbv iota beta. rewrite H1, H2, H3, H4, H8, H9, H10.
  destruct (Z.eqb_spec (Z.of_nat (f_idx f)) (Js.len (children_of (f_tree f))));
    [unfold Js.len in *; lia|].
  rewrite !index_nat, Hchild. simpl mjoin.
  unfold at_frames, child_start. rewrite !stack_or_snoc, !map_app.
  cbn [map step_frame f_tree f_off f_idx]. rewrite Nat2Z.inj_succ.
  unfold Z.succ. reflexivity.
Qed.

Definition node_frame (f : frame) (tag0 l : Z) (cs : list Child) (ps : list Z)
    : frame :=
  {| f_tree := NodeTree tag0 l cs ps; f_off := child_start f; f_idx := O |}.

Lemma round_node fuel below f tag0 l cs ps xo xi lo li s e tg :
  children_of (f_tree f) !! f_idx f = Some (Node tag0 l cs ps) ->
  next_fuel getTag TERM_TAGGED (S fuel)
    (at_frames (below ++ [f]) xo xi None lo li s e tg)
  = if Z.land tag0 TERM_TAGGED =? 0 then
      next_fuel getTag TERM_TAGGED fuel
        (at_frames ((below ++ [step_frame f]) ++ [node_frame f tag0 l cs ps])
           xo xi None lo li s e tg)
    else
      Done (true,
            at_frames ((below ++ [step_frame f]) ++ [node_frame f tag0 l cs ps])
              xo xi None lo li (child_start f)
              (Js.add (child_start f) (Some l)) (Some (getTag (Some tag0)))).
Proof.
  intros Hchild. pose proof (lookup_lt_Some _ _ _ Hchild) as Hlt.
  destruct (top_of_stacks below f xo xi None lo li s e tg)
    as (H1 & H2 & H3 & H4 & H5 & H6 & H7 & H8 & H9 & H10).
  cbv zeta in *. cbn [next_fuel].
  change (leaf (at_frames (below ++ [f]) xo xi None lo li s e tg)) with (@None (list Z)).
  cbv iota beta. rewrite H1, H2, H3, H4, H8, H9, H10.
  destruct (Z.eqb_spec (Z.of_nat (f_idx f)) (Js.len (children_of (f_tree f))));
    [unfold Js.len in *; lia|].
  rewrite !index_nat, Hchild. simpl mjoin.
  assert (Hstate : forall s' e' tg',
    {| trees := (map f_tree below ++ [f_tree f]) ++ [as_Tree tag0 l cs ps];
       offset := (map f_off below ++ [f_off f])
                   ++ [Js.add (f_off f) (positions_of (f_tree f) !! f_idx f)];
       index := (map (fun f => Z.of_nat (f_idx f)) below
                   ++ [Z.of_nat (f_idx f) + 1]) ++ [0];
       leaf := None; leafOffset := lo; leafIndex := li;
       start := s'; end_ := e'; tag := tg' |}
    = at_frames ((below ++ [step_frame f]) ++ [node_frame f tag0 l cs ps])
        xo xi None lo li s' e' tg').
  { intros s' e' tg'. unfold at_frames. rewrite !stack_or_snoc, !map_app.
    cbn [map step_frame node_frame f_tree f_off f_idx].
    rewrite Nat2Z.inj_succ. unfold Z.succ, child_start. reflexivity. }
  cbn [trees offset index leaf leafOffset leafIndex start end_ tag at_frames].
  destruct (Z.land tag0 TERM_TAGGED =? 0).
  - rewrite <- Hstate. reflexivity.
  - rewrite <- Hstate. reflexivity.
Qed.

(** What one call of [next] does, on a cursor with [items] still to
    come and [w] rounds of work left: it returns [false] when nothing
    is to come, and otherwise returns [true] with the first item in its
    output properties, the rest still to come, and less work left. *)
Definition reports (r : Step (bool * NodeCursor)) (items : list Item) (w : nat)
    : Prop :=
  match items with
  | [] => exists c', r = Done (false, c')
  | it :: rest =>
      exists fs' xo' xi' lf' lo' li' s' e' tg',
        r = Done (true, at_frames fs' xo' xi' lf' lo' li' s' e' tg') /\
        (tg', s', e') = it /\
        to_come fs' lf' lo' li' = rest /\
        Forall frame_ok fs' /\ leaf_ok lf' li' /\
        (work fs' lf' li' < w)%nat
  end.

Lemma reports_mono r items (w w' : nat) :
  (w <= w')%nat -> reports r items w -> reports r items w'.
Proof.
  intros Hw. destruct items as [|it rest]; simpl; [trivial|].
  intros (fs' & xo' & xi' & lf' & lo' & li' & s' & e' & tg' & H1 & H2 & H3 & H4 & H5 & H6).
  exists fs', xo', xi', lf', lo', li', s', e', tg'. repeat split; auto. lia.
Qed.

Lemma next_fuel_reports (w : nat) : forall fs xo xi lf lo li s e tg fuel,
  (work fs lf li <= w)%nat -> (w < fuel)%nat ->
  Forall frame_ok fs -> leaf_ok lf li ->
  reports (next_fuel getTag TERM_TAGGED fuel (at_frames fs xo xi lf lo li s e tg))
    (to_come fs lf lo li) (work fs lf li).
Proof.
  induction w as [w IH] using lt_wf_ind.
  intros fs xo xi lf lo li s e tg fuel Hw Hfuel Hfs Hlf.
  destruct fuel as [|fuel]; [lia|].
  destruct lf as [buf|].
  - (* in a leaf *)
    destruct Hlf as [Hli Hdiv].
    assert (Hlen : Js.len (drop (Z.to_nat li) buf) = Js.len buf - li)
      by (unfold Js.len in *; rewrite length_drop; lia).
    destruct (quads_cases (drop (Z.to_nat li) buf))
      as [Hnil|(a & b & c & d & rest & Hdrop & Hrest)].
    { rewrite Hlen. exact Hdiv. }
    + (* the leaf is used up *)
      assert (Hend : li = Js.len buf)
        by (rewrite Hnil in Hlen; unfold Js.len in *; simpl in *; lia).
      assert (Hwork : work fs (Some buf) li = S (work fs None li))
        by (unfold work, leaf_work; rewrite Hnil; reflexivity).
      assert (Hcome : to_come fs (Some buf) lo li = to_come fs None lo li)
        by (unfold to_come, leaf_items; rewrite Hnil; reflexivity).
      rewrite Hcome, (round_leaf_end _ _ _ _ _ _ _ _ _ _ Hend).
      apply (reports_mono _ _ (work fs None li)); [lia|].
      apply (IH (work fs None li)); auto; try lia; exact I.
    + (* the next quad *)
      assert (Hlt : li <> Js.len buf)
        by (rewrite Hdrop in Hlen; unfold Js.len in *; simpl in *; lia).
      rewrite (round_leaf_quad _ _ _ _ _ _ _ _ _ _ Hlt).
      assert (Hcell : forall k : nat, Js.index buf (li + Z.of_nat k)
                                       = (a :: b :: c :: d :: rest) !! k).
      { intros k. rewrite <- Hdrop, lookup_drop. unfold Js.index.
        destruct (Z.ltb_spec (li + Z.of_nat k) 0); [lia|]. f_equal. lia. }
      assert (H0 : Js.index buf li = Some a)
        by (rewrite <- (Z.add_0_r li); exact (Hcell 0%nat)).
      assert (H1 : Js.index buf (li + 1) = Some b) by exact (Hcell 1%nat).
      assert (H2 : Js.index buf (li + 2) = Some c) by exact (Hcell 2%nat).
      assert (Hdrop4 : drop (Z.to_nat (li + 4)) buf = rest).
      { replace (Z.to_nat (li + 4)) with (Z.to_nat li + 4)%nat by lia.
        rewrite <- drop_drop, Hdrop. reflexivity. }
      unfold to_come at 1. unfold leaf_items. rewrite Hdrop. simpl.
      rewrite H0, H1, H2.
      eexists fs, xo, xi, (Some buf), lo, (li + 4), _, _, _.
      split; [reflexivity|]. split; [reflexivity|].
      split; [unfold to_come, leaf_items; rewrite Hdrop4; reflexivity|].
      split; [exact Hfs|].
      split.
      * split; [rewrite Hdrop in Hlen; unfold Js.len in *; simpl in *; lia|].
        replace (Js.len buf - (li + 4)) with (Js.len rest); [exact Hrest|].
        rewrite Hdrop in Hlen. unfold Js.len in *. simpl in *. lia.
      * unfold work, leaf_work. rewrite Hdrop4, Hdrop. simpl. lia.
  - (* on the stacks *)
    destruct fs as [|f below _] using rev_ind.
    + (* nothing left *)
      rewrite round_empty. simpl. eexists. reflexivity.
    + apply Forall_app in Hfs. destruct Hfs as [Hbelow Hf].
      apply Forall_inv in Hf. destruct Hf as [Hwhole Hidx].
      rewrite to_come_snoc. simpl leaf_items. rewrite app_nil_l.
      rewrite work_snoc in *. simpl leaf_work in *. rewrite Nat.add_0_l in *.
      destruct (decide (f_idx f = length (children_of (f_tree f)))) as [Hdone|Hmore].
      * (* this level is done *)
        rewrite (round_pop _ _ _ _ _ _ _ _ _ _ Hdone).
        rewrite (frame_items_done f Hdone), app_nil_l.
        assert (Hwb : work below None li = sum_list_with frame_work below)
          by reflexivity.
        assert (Hcb : to_come below None lo li = flat_map frame_items (rev below))
          by reflexivity.
        rewrite <- Hcb.
        assert (Hpos : (1 <= frame_work f)%nat) by (unfold frame_work; lia).
        apply (reports_mono _ _ (work below None li)); [lia|].
        apply (IH (work below None li)); auto; try lia; exact I.
      * destruct (lookup_lt_is_Some_2 (children_of (f_tree f)) (f_idx f) ltac:(lia))
          as [child Hchild].
        rewrite (frame_items_child f child Hchild).
        rewrite (frame_work_child f child Hchild) in *.
        fold (step_frame f) in *. fold (child_start f).
        assert (Hf' : frame_ok (step_frame f)) by (split; simpl; [exact Hwhole | lia]).
        assert (Hchild_whole : whole child).
        { unfold all_whole in Hwhole.
          pose proof (proj1 (Forall_forall _ _) Hwhole) as Hall.
          apply Hall. eapply list_elem_of_lookup_2; eauto. }
        destruct child as [tag0 l ccs cps|buffer].
        -- (* a node: one level down *)
           rewrite (round_node _ _ _ _ _ _ _ _ _ _ _ _ _ _ Hchild).
           set (fnew := node_frame f tag0 l ccs cps).
           assert (Hfnew : frame_ok fnew)
             by (split; simpl; [apply (whole_Node tag0 l ccs cps); exact Hchild_whole | lia]).
           assert (Hitems : frame_items fnew
                            = items_with Child_items ccs cps (child_start f))
             by reflexivity.
           assert (Hall : Forall frame_ok ((below ++ [step_frame f]) ++ [fnew]))
             by (repeat (apply Forall_app; split); auto).
           assert (Hwork' : work ((below ++ [step_frame f]) ++ [fnew]) None li
                            = (S (children_work ccs)
                               + (frame_work (step_frame f)
                                  + sum_list_with frame_work below))%nat).
           { rewrite work_snoc, sum_list_with_app.
             change (frame_work fnew) with (S (children_work ccs)).
             cbn [leaf_work sum_list_with]. lia. }
           assert (Hcome' : to_come ((below ++ [step_frame f]) ++ [fnew]) None lo li
                            = items_with Child_items ccs cps (child_start f)
                              ++ frame_items (step_frame f)
                              ++ flat_map frame_items (rev below)).
           { rewrite to_come_snoc, rev_app_distr. simpl. rewrite Hitems.
             reflexivity. }
           rewrite Child_work_Node in Hw |- *.
           cbn [Child_items].
           destruct (Z.eqb_spec (Z.land tag0 TERM_TAGGED) 0) as [Hz|Hnz].
           ++ rewrite app_nil_l.
              rewrite <- (app_assoc (items_with Child_items ccs cps (child_start f))).
              rewrite <- Hcome'.
              apply (reports_mono _ _ (work ((below ++ [step_frame f]) ++ [fnew]) None li));
                [lia|].
              apply (IH (work ((below ++ [step_frame f]) ++ [fnew]) None li));
                auto; try lia; exact I.
           ++ simpl app.
              eexists ((below ++ [step_frame f]) ++ [fnew]), xo, xi, None, lo, li, _, _, _.
              split; [reflexivity|]. split; [reflexivity|].
              split; [rewrite Hcome'; apply app_assoc|].
              split; [exact Hall|]. split; [exact I | lia].
        -- (* a buffer: it becomes the leaf *)
           rewrite (round_buffer _ _ _ _ _ _ _ _ _ _ _ Hchild).
           cbn [Child_items Child_work] in Hw |- *.
           assert (Hwork' : work (below ++ [step_frame f]) (Some buffer) 0
                            = (S (length buffer)
                               + (frame_work (step_frame f)
                                  + sum_list_with frame_work below))%nat).
           { rewrite work_snoc. unfold leaf_work.
             change (drop (Z.to_nat 0) buffer) with buffer. lia. }
           assert (Hcome' : to_come (below ++ [step_frame f]) (Some buffer)
                              (child_start f) 0
                            = buffer_items (child_start f) buffer
                              ++ frame_items (step_frame f)
                              ++ flat_map frame_items (rev below)).
           { rewrite to_come_snoc. reflexivity. }
           rewrite <- (app_assoc (buffer_items (child_start f) buffer)).
           rewrite <- Hcome'.
           apply (reports_mono _ _ (work (below ++ [step_frame f]) (Some buffer) 0));
             [lia|].
           apply (IH (work (below ++ [step_frame f]) (Some buffer) 0));
             auto; try lia.
           ++ apply Forall_app; split; auto.
           ++ split; [unfold Js.len; lia | rewrite Z.sub_0_r; exact Hchild_whole].
Qed.


Lemma drain_frames (fuel : nat) : forall fs xo xi lf lo li s e tg,
  (work fs lf li < fuel)%nat -> Forall frame_ok fs -> leaf_ok lf li ->
  drain getTag TERM_TAGGED fuel (at_frames fs xo xi lf lo li s e tg)
  = Done (to_come fs lf lo li).
Proof.
  induction fuel as [|fuel IH]; intros fs xo xi lf lo li s e tg Hfuel Hfs Hlf;
    [lia|].
  pose proof (next_fuel_reports (work fs lf li) fs xo xi lf lo li s e tg (S fuel)
                (Nat.le_refl _) Hfuel Hfs Hlf) as Hcall.
  cbn [drain]. unfold reports in Hcall.
  destruct (to_come fs lf lo li) as [|it rest].
  - destruct Hcall as (c' & ->). reflexivity.
  - destruct Hcall as (fs' & xo' & xi' & lf' & lo' & li' & s' & e' & tg'
                       & -> & Hit & Hrest & Hfs' & Hlf' & Hless).
    rewrite (IH fs' xo' xi' lf' lo' li' s' e' tg' ltac:(lia) Hfs' Hlf').
    rewrite Hrest. unfold current. cbn [at_frames tag start end_].
    rewrite Hit. reflexivity.
Qed.

(** What a cursor is made on: a [Tree] or a [TreeBuffer]. *)
Definition SyntaxTree_items (tree : Tree + list Z) : list Item :=
  match tree with
  | inl t => Tree_items t
  | inr buffer => buffer_items (Some 0) buffer
  end.

Definition SyntaxTree_whole (tree : Tree + list Z) : Prop :=
  match tree with
  | inl t => all_whole (children_of t)
  | inr buffer => (4 | Js.len buffer)
  end.

Definition SyntaxTree_work (tree : Tree + list Z) : nat :=
  match tree with
  | inl t => Tree_work t
  | inr buffer => S (length buffer)
  end.

(** A loop over [cursor.next()] ends, and what it reads is the walk of
    the tree in document order: every tagged node below the root and
    every quad of every buffer, a node before what lies below it and
    siblings from left to right, each with its tag name and with its
    start and end counted from the start of the tree.  The buffers are
    taken to hold whole quads, as the parser writes them. *)
Theorem NodeCursor_walks (tree : Tree + list Z) (fuel : nat) :
  SyntaxTree_whole tree ->
  (SyntaxTree_work tree < fuel)%nat ->
  drain getTag TERM_TAGGED fuel (new_NodeCursor tree)
  = Done (SyntaxTree_items tree).
Proof.
  intros Hwhole Hfuel. destruct tree as [t|buffer].
  - change (new_NodeCursor (inl t))
      with (at_frames [{| f_tree := t; f_off := Some 0; f_idx := O |}]
              [Some 0] [0] None (Some 0) 0 None None None).
    rewrite drain_frames.
    + unfold to_come. simpl. rewrite app_nil_r. reflexivity.
    + unfold work, frame_work. cbn [leaf_work sum_list_with f_idx f_tree drop].
      unfold SyntaxTree_work, Tree_work in Hfuel.
      change (drop 0 (children_of t)) with (children_of t). lia.
    + constructor; [|constructor]. split; simpl; [exact Hwhole | lia].
    + exact I.
  - change (new_NodeCursor (inr buffer))
      with (at_frames [] [Some 0] [0] (Some buffer) (Some 0) 0 None None None).
    rewrite drain_frames.
    + unfold to_come. simpl. rewrite app_nil_r. reflexivity.
    + unfold work, leaf_work. cbn [sum_list_with].
      change (drop (Z.to_nat 0) buffer) with buffer.
      unfold SyntaxTree_work in Hfuel. lia.
    + constructor.
    + split; [unfold Js.len; lia | rewrite Z.sub_0_r; exact Hwhole].
Qed.


End CursorWalk.

Section CursorRuns.
Import Trees Cursors.

(** A tree with a tagged node over a buffer and an untagged node,
    followed by a buffer of two quads. *)
Definition walk_tree : Tree :=
  PlainTree
    [Node 1 3 [TreeBuffer [3; 0; 1; 0]; Node 2 1 [] []] [0; 2];
     TreeBuffer [5; 0; 2; 1; 7; 0; 1; 0]]
    [0; 4].

Lemma walk_tree_whole : SyntaxTree_whole (inl walk_tree).
Proof.
  repeat constructor; simpl; try (exists 1; reflexivity); try (exists 2; reflexivity).
Qed.

Lemma NodeCursor_walks_witness :
  drain (fun cell : option Z => cell) 1 30 (new_NodeCursor (inl walk_tree))
  = Done [(Some (Some 1), Some 0, Some 3);
          (Some (Some 3), Some 0, Some 1);
          (Some (Some 5), Some 4, Some 6);
          (Some (Some 7), Some 4, Some 5)].
Proof.
  rewrite (NodeCursor_walks (fun cell : option Z => cell) 1 (inl walk_tree) 30
             walk_tree_whole); [reflexivity | vm_compute; lia].
Defined.

End CursorRuns.

(** ** [Tree.resolve] returns a context around the position *)

Section ResolveSound.
Import Trees.

(** The loop of [TreeContext.resolve] over the children, as
    [resolve_fuel] runs it. *)
Definition scan_children (fuel' : nat) (ctx : Context) (start0 pos : Z)
    : list Child -> list Z -> option Context :=
  fix scan (cs : list Child) (ps : list Z) : option Context :=
    match cs, ps with
    | child :: cs', p :: ps' =>
        let start := p + start0 in
        if pos <=? start then Some ctx
        else
          if Js.gt (Js.add (Some start) (Child_length child)) (Some pos)
          then
            match child with
            | Node tag l ccs cps =>
                resolve_fuel fuel'
                  (TreeContext (NodeTree tag l ccs cps) start (Some ctx)) pos
            | TreeBuffer buffer =>
                match resolveIndex pos buffer start 0 (Js.len buffer) with
                | Some found =>
                    if -1 <? found
                    then Some (BufferContext buffer start found (Some ctx))
                    else scan cs' ps'
                | None => None
                end
            end
          else scan cs' ps'
    | _, _ => Some ctx
    end.

Lemma resolve_fuel_TreeContext (fuel' : nat) (tree : Tree) (start0 : Z)
    (par : option Context) (pos : Z) :
  resolve_fuel (S fuel') (TreeContext tree start0 par) pos =
  if Js.ge (Some start0) (Some pos)
     || Js.ge (Some pos) (Js.add (Some start0) (Tree_length tree))
  then match par with
       | Some p => resolve_fuel fuel' p pos
       | None => Some (TreeContext tree start0 par)
       end
  else scan_children fuel' (TreeContext tree start0 par) start0 pos
         (children_of tree) (positions_of tree).
Proof. reflexivity. Qed.

(** The nodes above a child, counted: what the recursion of [resolve]
    needs. *)
Fixpoint Child_depth (c : Child) : nat :=
  match c with
  | TreeBuffer _ => O
  | Node _ _ cs _ =>
      S ((fix deepest (cs : list Child) : nat :=
            match cs with
            | [] => O
            | c :: cs' => Nat.max (Child_depth c) (deepest cs')
            end) cs)
  end.

Fixpoint children_depth (cs : list Child) : nat :=
  match cs with
  | [] => O
  | c :: cs' => Nat.max (Child_depth c) (children_depth cs')
  end.

(** The cells of every buffer below are those of a [Uint16Array]. *)
Fixpoint unsigned (c : Child) : Prop :=
  match c with
  | TreeBuffer buf => Forall (fun x => 0 <= x) buf
  | Node _ _ cs _ =>
      (fix all (cs : list Child) : Prop :=
         match cs with
         | [] => True
         | c :: cs' => unsigned c /\ all cs'
         end) cs
  end.

Fixpoint all_unsigned (cs : list Child) : Prop :=
  match cs with
  | [] => True
  | c :: cs' => unsigned c /\ all_unsigned cs'
  end.

(** [child_at p c start]: [c] is a child of the tree of the context
    [p], and starts at [start]. *)
Definition child_at (p : Context) (c : Child) (start : Z) : Prop :=
  match p with
  | TreeContext ptree pstart _ =>
      exists q, (c, q) ∈ zip (children_of ptree) (positions_of ptree) /\
                start = q + pstart
  | BufferContext _ _ _ _ => False
  end.

(** [around t pos c]: the context [c] is the top context of [t]; or
    the context of a node whose range has [pos] strictly inside; or a
    context into a buffer, at an index [i] at or after 0 whose cells
    [i + 1] and [i + 2], moved by the start of the buffer, have [pos]
    strictly between them.  The node or the buffer is a child of the
    tree of a context that is itself [around t pos].  ([resolveIndex]
    steps one cell too far after every quad, so the index need not be
    one at which a quad starts.) *)
Fixpoint around (t : Tree) (pos : Z) (c : Context) {struct c} : Prop :=
  match c with
  | TreeContext tree start None => tree = t /\ start = 0
  | TreeContext tree start (Some p) =>
      (exists tag l cs ps,
          tree = NodeTree tag l cs ps /\ start < pos < start + l /\
          child_at p (Node tag l cs ps) start) /\
      around t pos p
  | BufferContext buf bs i None => False
  | BufferContext buf bs i (Some p) =>
      (child_at p (TreeBuffer buf) bs /\ 0 <= i /\
       exists s e, Js.index buf (i + 1) = Some s /\
                   Js.index buf (i + 2) = Some e /\
                   bs + s < pos < bs + e) /\
      around t pos p
  end.


Lemma Child_depth_Node tag l cs ps :
  Child_depth (Node tag l cs ps) = S (children_depth cs).
Proof. reflexivity. Qed.

Lemma unsigned_Node tag l cs ps : unsigned (Node tag l cs ps) = all_unsigned cs.
Proof. reflexivity. Qed.

Lemma unsigned_quads (buf : list Z) (i : Z) :
  Forall (fun x => 0 <= x) buf -> 0 <= quads (Js.index buf i).
Proof.
  intros Hbuf. unfold quads, Js.index. destruct (i <? 0); [lia|].
  destruct (buf !! Z.to_nat i) as [c|] eqn:Hc; [|lia].
  pose proof (proj1 (Forall_forall _ _) Hbuf) as Hall.
  apply list_elem_of_lookup_2, Hall in Hc.
  rewrite Z.shiftl_mul_pow2 by lia. lia.
Qed.

(** An index that [resolveIndex] returns is one whose cells [i + 1]
    and [i + 2], moved by the start of the buffer, have [pos] strictly
    between them. *)
Lemma resolveIndex_fuel_sound (pos : Z) (buf : list Z) (start to_ : Z) :
  Forall (fun x => 0 <= x) buf ->
  forall fuel i found,
    0 <= i ->
    resolveIndex_fuel fuel pos buf start i to_ = Some found ->
    found = -1 \/
    (0 <= found /\
     exists s e, Js.index buf (found + 1) = Some s /\
                 Js.index buf (found + 2) = Some e /\
                 start + s < pos < start + e).
Proof.
  intros Hbuf. induction fuel as [|fuel IH]; intros i found Hi; [discriminate|].
  simpl. destruct (i <? to_); [|intros [= <-]; left; reflexivity].
  destruct (Js.index buf (i + 1)) as [s|] eqn:Hs; simpl.
  - destruct (Z.leb_spec pos (s + start)); [intros [= <-]; left; reflexivity|].
    destruct (Js.index buf (i + 2)) as [e|] eqn:He; simpl.
    + destruct (Z.ltb_spec pos (e + start)).
      * intros [= <-]. right. split; [exact Hi|].
        exists s, e. repeat split; auto; lia.
      * apply IH. pose proof (unsigned_quads buf (i + 3) Hbuf). lia.
    + apply IH. pose proof (unsigned_quads buf (i + 3) Hbuf). lia.
  - assert (Js.index buf (i + 2) = None) as ->.
    { unfold Js.index in *. destruct (Z.ltb_spec (i + 1) 0); [lia|].
      destruct (Z.ltb_spec (i + 2) 0); [lia|].
      apply lookup_ge_None. apply lookup_ge_None in Hs. lia. }
    simpl. apply IH. pose proof (unsigned_quads buf (i + 3) Hbuf). lia.
Qed.

Lemma zip_tail_sub {A B} (x : A) (y : B) (xs : list A) (ys : list B)
    (all : list (A * B)) :
  (forall c q, (c, q) ∈ zip (x :: xs) (y :: ys) -> (c, q) ∈ all) ->
  (x, y) ∈ all /\ (forall c q, (c, q) ∈ zip xs ys -> (c, q) ∈ all).
Proof.
  intros H. split.
  - apply H. simpl. left.
  - intros c q Hin. apply H. simpl. right. exact Hin.
Qed.

(** Positions in order: none is below an earlier one. *)
Fixpoint in_order (ps : list Z) : Prop :=
  match ps with
  | [] => True
  | p :: ps' => Forall (Z.le p) ps' /\ in_order ps'
  end.

(** The child [c] at position [q] of a tree that starts at [start0]
    is no node with [pos] strictly inside its range. *)
Definition misses (pos start0 : Z) (c : Child) (q : Z) : Prop :=
  forall tag l cs ps, c = Node tag l cs ps -> ~ (q + start0 < pos < q + start0 + l).

(** [no_node_around pos c]: when [c] is the context of a tree whose
    range has [pos] strictly inside and whose positions are in order,
    no node among the children of that tree has [pos] strictly inside
    its range. *)
Definition no_node_around (pos : Z) (c : Context) : Prop :=
  match c with
  | TreeContext tree start0 _ =>
      start0 < pos ->
      (forall n, Tree_length tree = Some n -> pos < start0 + n) ->
      in_order (positions_of tree) ->
      forall child q,
        (child, q) ∈ zip (children_of tree) (positions_of tree) ->
        misses pos start0 child q
  | BufferContext _ _ _ _ => True
  end.

Lemma zip_elem_r {A B} (x : A) (y : B) (xs : list A) (ys : list B) :
  (x, y) ∈ zip xs ys -> y ∈ ys.
Proof.
  revert ys. induction xs as [|a xs IH]; intros [|b ys] Hin; simpl in Hin;
    try (inversion Hin; fail).
  apply elem_of_cons in Hin. destruct Hin as [[= -> ->]|Hin].
  - left.
  - right. apply IH. exact Hin.
Qed.

Lemma resolve_fuel_around (t : Tree) (pos : Z) (fuel : nat) :
  forall tree start0 par,
    around t pos (TreeContext tree start0 par) ->
    (children_depth (children_of tree) < fuel)%nat ->
    all_unsigned (children_of tree) ->
    exists c, resolve_fuel fuel (TreeContext tree start0 par) pos = Some c /\
              around t pos c /\ no_node_around pos c.
Proof.
  induction fuel as [|fuel IH]; intros tree start0 par Hctx Hdepth Huns; [lia|].
  rewrite resolve_fuel_TreeContext.
  set (ctx := TreeContext tree start0 par) in *.
  match goal with |- context [if ?b then _ else _] => destruct b eqn:Htest end.
  - destruct par as [p|].
    + exfalso. simpl in Hctx.
      destruct Hctx as ((tag & l & cs & ps & -> & Hin & _) & _).
      simpl in Htest. apply orb_true_iff in Htest.
      destruct Htest as [H|H]; apply Z.leb_le in H; lia.
    + exists ctx. split; [reflexivity|]. split; [exact Hctx|].
      unfold ctx. simpl. intros Hlo Hhi _. exfalso.
      apply orb_true_iff in Htest. destruct Htest as [H|H].
      * simpl in H. apply Z.leb_le in H. lia.
      * destruct (Tree_length tree) as [n|]; simpl in H; [|discriminate].
        apply Z.leb_le in H. specialize (Hhi n eq_refl). lia.
  - assert (Hscan : forall cs ps,
      (forall c q, (c, q) ∈ zip cs ps ->
                   (c, q) ∈ zip (children_of tree) (positions_of tree)) ->
      (forall c q, (c, q) ∈ zip (children_of tree) (positions_of tree) ->
                   (c, q) ∈ zip cs ps \/ misses pos start0 c q) ->
      (in_order (positions_of tree) -> in_order ps) ->
      (children_depth cs <= fuel)%nat -> all_unsigned cs ->
      exists c, scan_children fuel ctx start0 pos cs ps = Some c /\
                around t pos c /\ no_node_around pos c).
    { induction cs as [|child cs IHcs]; intros ps Hsub Hpre Hsort Hd Hu.
      { exists ctx. split; [reflexivity|]. split; [exact Hctx|].
        unfold ctx. simpl. intros _ _ _ c q Hin.
        destruct (Hpre c q Hin) as [Hno|Hok]; [inversion Hno | exact Hok]. }
      destruct ps as [|p ps].
      { exists ctx. split; [reflexivity|]. split; [exact Hctx|].
        unfold ctx. simpl. intros _ _ _ c q Hin.
        destruct (Hpre c q Hin) as [Hno|Hok]; [inversion Hno | exact Hok]. }
      destruct (zip_tail_sub _ _ _ _ _ Hsub) as [Hhere Hrest].
      simpl in Hd, Hu. destruct Hu as [Huc Hus].
      cbn [scan_children]. cbv zeta.
      destruct (Z.leb_spec pos (p + start0)) as [Hbreak|Hpast].
      { (* the loop breaks: every child still to come starts at or after pos *)
        exists ctx. split; [reflexivity|]. split; [exact Hctx|].
        unfold ctx. simpl. intros _ _ Hsorted c q Hin.
        destruct (Hpre c q Hin) as [Hleft|Hok]; [|exact Hok].
        specialize (Hsort Hsorted). destruct Hsort as [Hle _].
        intros tag l ccs cps _ Hcontains.
        simpl in Hleft. apply elem_of_cons in Hleft.
        destruct Hleft as [[= _ ->]|Hleft]; [lia|].
        apply zip_elem_r in Hleft.
        pose proof (proj1 (Forall_forall _ _) Hle q Hleft). lia. }
      fold (scan_children fuel ctx start0 pos).
      assert (Hnext : misses pos start0 child p ->
                exists c, scan_children fuel ctx start0 pos cs ps = Some c /\
                          around t pos c /\ no_node_around pos c).
      { intros Hmiss. apply IHcs; auto; [| |lia].
        - intros c q Hin. destruct (Hpre c q Hin) as [Hleft|Hok]; [|right; exact Hok].
          simpl in Hleft. apply elem_of_cons in Hleft.
          destruct Hleft as [[= -> ->]|Hleft]; [right; exact Hmiss | left; exact Hleft].
        - intros Hsorted. specialize (Hsort Hsorted). apply Hsort. }
      destruct (Js.gt (Js.add (Some (p + start0)) (Child_length child)) (Some pos))
        eqn:Hgt.
      2:{ apply Hnext. intros tag l ccs cps -> Hcontains.
          simpl in Hgt. apply Z.ltb_ge in Hgt. lia. }
      destruct child as [tag l ccs cps|buffer].
      - simpl in Hgt. apply Z.ltb_lt in Hgt.
        rewrite Child_depth_Node in Hd.
        apply IH.
        + cbn [around]. split; [|exact Hctx].
          exists tag, l, ccs, cps. split; [reflexivity|]. split; [lia|].
          unfold ctx. simpl. exists p. split; [exact Hhere | reflexivity].
        + simpl. lia.
        + exact Huc.
      - destruct (resolveIndex_total pos buffer (p + start0) 0 (Js.len buffer) Huc)
          as [found Hfound].
        rewrite Hfound.
        destruct (Z.ltb_spec (-1) found);
          [|apply Hnext; intros tag l ccs cps Heq; discriminate].
        eexists. split; [reflexivity|].
        split; [|exact I].
        cbn [around]. split; [|exact Hctx]. split.
        + unfold ctx. simpl. exists p. split; [exact Hhere | reflexivity].
        + destruct (resolveIndex_fuel_sound pos buffer (p + start0) _ Huc _ _ _
                      (Z.le_refl 0) Hfound) as [Hneg|Hin]; [lia | exact Hin]. }
    apply Hscan; auto. lia.
Qed.

(** [tree.resolve(pos)] returns, within as many nested calls as the
    tree is deep.  The context it gives is the top context; or the
    context of a node that has [pos] strictly inside its range, counted
    from the start of the tree; or a context into a buffer, at an index
    whose next two cells, moved by the start of the buffer, have [pos]
    strictly between them, which need not be an index at which a quad
    starts.  The node or buffer is a child of the tree of a context of
    which the same holds, up to the top.  When the answer is the
    context of a tree around [pos] whose children are in the order of
    their positions, no node among these children is around [pos]:
    among the nodes, the answer is the innermost one. *)
Theorem resolve_around (t : Tree) (pos : Z) (fuel : nat) :
  all_unsigned (children_of t) ->
  (children_depth (children_of t) < fuel)%nat ->
  exists c, resolve fuel t pos = Some c /\ around t pos c /\
            no_node_around pos c.
Proof.
  intros Huns Hfuel. unfold resolve.
  apply resolve_fuel_around; [split; reflexivity | exact Hfuel | exact Huns].
Qed.


End ResolveSound.

Section ResolveRuns.
Import Trees.

(** A node over [0, 4) with a node over [1, 3) inside, and a buffer
    with one quad after them. *)
Definition nested_tree : Tree :=
  PlainTree [Node 1 4 [Node 3 2 [] []] [1]; TreeBuffer [5; 0; 2; 0]] [0; 4].

Example resolve_nested :
  resolve 3 nested_tree 2
  = Some (TreeContext (NodeTree 3 2 [] []) 1
            (Some (TreeContext (NodeTree 1 4 [Node 3 2 [] []] [1]) 0
                     (Some (TreeContext nested_tree 0 None))))).
Proof. reflexivity. Qed.

(** A buffer in which the index that [resolve] answers with starts no
    quad: after the quad at 0, [resolveIndex] looks at index 5, and
    takes the end cell and the count cell of the quad at 4 for a start
    and an end. *)
Example resolve_off_quad :
  let buffer := [1; 0; 2; 0; 3; 2; 3; 5; 7; 4; 6; 0] in
  let t := PlainTree [TreeBuffer buffer] [0] in
  resolve 1 t 4 = Some (BufferContext buffer 0 5 (Some (TreeContext t 0 None))).
Proof. reflexivity. Qed.

Lemma resolve_around_witness :
  exists c, resolve 3 nested_tree 2 = Some c /\ around nested_tree 2 c /\
            no_node_around 2 c.
Proof.
  apply (resolve_around nested_tree 2 3).
  - simpl. repeat split. repeat constructor; lia.
  - simpl. lia.
Defined.

End ResolveRuns.

(** ** [unchanged] keeps every subtree it can *)

Section ReuseAll.
Import Trees.

(** [extends out out']: the output arrays have only been pushed to,
    both as often. *)
Definition extends (out out' : Out) : Prop :=
  exists cs ps, length cs = length ps /\ out' = (out.1 ++ cs, out.2 ++ ps).

Lemma extends_refl (out : Out) : extends out out.
Proof. exists [], []. split; [reflexivity|]. rewrite !app_nil_r. destruct out; reflexivity. Qed.

Lemma extends_trans (a b c : Out) : extends a b -> extends b c -> extends a c.
Proof.
  intros (cs1 & ps1 & H1 & ->) (cs2 & ps2 & H2 & ->). simpl.
  exists (cs1 ++ cs2), (ps1 ++ ps2). split.
  - rewrite !length_app. lia.
  - rewrite !app_assoc. reflexivity.
Qed.

Lemma extends_push (c : Child) (offset : Z) (out : Out) :
  extends out (push c offset out).
Proof. exists [c], [offset]. split; reflexivity. Qed.

Lemma extends_entries (out out' : Out) (e : Child * Z) :
  length out.1 = length out.2 -> extends out out' ->
  length out'.1 = length out'.2 /\ (e ∈ entries out -> e ∈ entries out').
Proof.
  intros Hlen (cs & ps & Hl & ->). simpl. split.
  - rewrite !length_app. lia.
  - unfold entries. simpl. rewrite zip_with_app by exact Hlen.
    intros Hin. apply elem_of_app. left. exact Hin.
Qed.

Lemma push_entry (c : Child) (offset : Z) (out : Out) :
  length out.1 = length out.2 -> (c, offset) ∈ entries (push c offset out).
Proof.
  intros Hlen. unfold entries, push. simpl. rewrite zip_with_app by exact Hlen.
  apply elem_of_app. right. simpl. left.
Qed.

Lemma Tree_partial_with_extends (cs : list Child) :
  Forall (fun c => forall s e o out, extends out (Child_partial c s e o out)) cs ->
  forall ps s e o out,
    extends out (Tree_partial_with Child_partial cs ps s e o out).
Proof.
  induction 1 as [|child cs Hchild _ IH]; intros ps s e o out; simpl;
    [apply extends_refl|].
  destruct ps as [|from_ ps]; [apply extends_refl|].
  destruct (e <=? from_); [apply extends_refl|].
  eapply extends_trans; [|apply IH].
  match goal with |- context [if ?b then _ else _] => destruct b end;
    [apply Hchild | apply extends_refl].
Qed.

Lemma Child_partial_extends (c : Child) :
  forall s e o out, extends out (Child_partial c s e o out).
Proof.
  induction c as [tag l cs ps IH|buffer] using Child_rect_nested;
    intros s e o out; simpl.
  - destruct ((s <=? 0) && (l <=? e));
      [apply extends_push | apply Tree_partial_with_extends; exact IH].
  - match goal with |- context [if ?b then _ else _] => destruct b end;
      [apply extends_push | apply extends_refl].
Qed.

(** A tree as the parser builds it: at every level the children are
    in the order of their positions, which are not negative, and every
    child has a length and ends inside its parent. *)
Fixpoint children_nested (nested : Child -> Prop) (l : option Z)
    (cs : list Child) (ps : list Z) : Prop :=
  match cs, ps with
  | [], _ => True
  | c :: cs', p :: ps' =>
      (0 <= p /\ nested c /\
       exists lc, Child_length c = Some lc /\
                  forall n, l = Some n -> p + lc <= n) /\
      children_nested nested l cs' ps'
  | _ :: _, [] => False
  end.

Fixpoint nested (c : Child) : Prop :=
  match c with
  | TreeBuffer _ => True
  | Node _ l cs ps => in_order ps /\ children_nested nested (Some l) cs ps
  end.

Definition Tree_nested (t : Tree) : Prop :=
  match t with
  | PlainTree cs ps => in_order ps /\ children_nested nested None cs ps
  | NodeTree tag l cs ps => nested (Node tag l cs ps)
  end.

(** [maximal start end c c' x]: the subtree [c'] lies [x] code units
    after the start of [c], its range fits the window [start, end)
    given from the start of [c], and the range of no node above it, up
    to [c], fits. *)
Inductive maximal : Z -> Z -> Child -> Child -> Z -> Prop :=
| maximal_self c l start end_ :
    Child_length c = Some l -> start <= 0 -> l <= end_ ->
    maximal start end_ c c 0
| maximal_below tag l cs ps start end_ (k : nat) child q c' x :
    ~ (start <= 0 /\ l <= end_) ->
    cs !! k = Some child -> ps !! k = Some q ->
    maximal (start - q) (end_ - q) child c' x ->
    maximal start end_ (Node tag l cs ps) c' (q + x).

Definition maximal_in (start end_ : Z) (t : Tree) (c' : Child) (x : Z) : Prop :=
  match t with
  | PlainTree cs ps =>
      exists (k : nat) child q x0,
        cs !! k = Some child /\ ps !! k = Some q /\
        maximal (start - q) (end_ - q) child c' x0 /\ x = q + x0
  | NodeTree tag l cs ps => maximal start end_ (Node tag l cs ps) c' x
  end.


Lemma children_nested_lookup (P : Child -> Prop) (l : option Z) (cs : list Child) :
  forall ps (k : nat) child q,
    children_nested P l cs ps -> cs !! k = Some child -> ps !! k = Some q ->
    0 <= q /\ P child /\
    exists lc, Child_length child = Some lc /\ forall n, l = Some n -> q + lc <= n.
Proof.
  induction cs as [|c cs IH]; intros ps k child q Hn Hc Hq; [destruct k; discriminate|].
  destruct ps as [|p ps]; [destruct Hn|]. destruct Hn as [Hhere Hrest].
  destruct k as [|k].
  - injection Hc as <-. injection Hq as <-. exact Hhere.
  - apply (IH ps k); assumption.
Qed.

Lemma maximal_window (s e : Z) (c c' : Child) (x l' : Z) :
  maximal s e c c' x -> Child_length c' = Some l' -> s <= x /\ x + l' <= e.
Proof.
  induction 1 as [c l s e Hl Hs He|tag l cs ps s e k child q c' x Hnot Hc Hq Hsub IH];
    intros Hl'.
  - assert (l' = l) by congruence. lia.
  - specialize (IH Hl'). lia.
Qed.

Lemma maximal_within (s e : Z) (c c' : Child) (x l' : Z) :
  maximal s e c c' x -> nested c -> Child_length c' = Some l' ->
  exists lc, Child_length c = Some lc /\ 0 <= x /\ x + l' <= lc.
Proof.
  induction 1 as [c l s e Hl Hs He|tag l cs ps s e k child q c' x Hnot Hc Hq Hsub IH];
    intros Hn Hl'.
  - exists l. split; [exact Hl|]. assert (l' = l) by congruence. lia.
  - destruct Hn as [_ Hn].
    destruct (children_nested_lookup _ _ _ _ _ _ _ Hn Hc Hq)
      as (Hq0 & Hchild & lc & Hlc & Hin).
    destruct (IH Hchild Hl') as (lc' & Hlc' & Hx0 & Hx1).
    assert (lc' = lc) by congruence. subst lc'.
    exists l. split; [reflexivity|]. specialize (Hin l eq_refl). lia.
Qed.

Lemma in_order_lookup (ps : list Z) (i j : nat) (p q : Z) :
  in_order ps -> (i <= j)%nat -> ps !! i = Some p -> ps !! j = Some q -> p <= q.
Proof.
  revert i j. induction ps as [|a ps IH]; intros i j Hord Hij Hp Hq;
    [destruct i; discriminate|].
  destruct Hord as [Hall Hord]. destruct i as [|i].
  - injection Hp as <-. destruct j as [|j]; [injection Hq as <-; lia|].
    pose proof (proj1 (Forall_forall _ _) Hall) as H.
    apply H. eapply list_elem_of_lookup_2; eauto.
  - destruct j as [|j]; [lia|]. apply (IH i j); auto. lia.
Qed.

(** The loop of [Tree.partial] reaches a child that starts before the
    end of the window and ends after its start, when the children are
    in the order of their positions. *)
Lemma Tree_partial_with_reaches (start end_ offset : Z) (cs : list Child) :
  forall ps (k : nat) child q out,
    in_order ps -> cs !! k = Some child -> ps !! k = Some q ->
    q < end_ ->
    Js.gt (Js.add (Some q) (Child_length child)) (Some start) = true ->
    length out.1 = length out.2 ->
    exists out',
      length out'.1 = length out'.2 /\
      extends (Child_partial child (start - q) (end_ - q) (offset + q) out')
        (Tree_partial_with Child_partial cs ps start end_ offset out).
Proof.
  induction cs as [|c cs IH]; intros ps k child q out Hord Hc Hq Hlt Hto Hlen;
    [destruct k; discriminate|].
  destruct ps as [|p ps]; [destruct k; discriminate|].
  assert (Hp : p <= q) by (apply (in_order_lookup (p :: ps) O k); auto; lia).
  simpl. destruct (Z.leb_spec end_ p); [lia|].
  destruct k as [|k].
  - injection Hc as ->. injection Hq as ->. simpl in Hto. rewrite Hto.
    exists out. split; [exact Hlen|].
    apply Tree_partial_with_extends.
    apply Forall_forall. intros c' _. apply Child_partial_extends.
  - destruct Hord as [_ Hord].
    apply (IH ps k child q); auto.
    match goal with |- context [if ?b then _ else _] => destruct b end;
      [|exact Hlen].
    apply (extends_entries out _ (c, 0) Hlen). apply Child_partial_extends.
Qed.

Lemma Child_partial_complete (s e : Z) (c c' : Child) (x l' : Z) :
  maximal s e c c' x -> nested c -> Child_length c' = Some l' -> 0 < l' ->
  forall offset out,
    length out.1 = length out.2 ->
    (c', offset + x) ∈ entries (Child_partial c s e offset out).
Proof.
  induction 1 as [c l s e Hl Hs He|tag l cs ps s e k child q c' x Hnot Hc Hq Hsub IH];
    intros Hn Hl' Hpos offset out Hlen.
  - rewrite Z.add_0_r. destruct c as [tag l0 cs ps|buffer]; simpl in *.
    + injection Hl as ->.
      destruct (Z.leb_spec s 0); [|lia]. destruct (Z.leb_spec l e); [|lia].
      simpl. apply push_entry. exact Hlen.
    + rewrite Hl. simpl.
      destruct (Z.leb_spec s 0); [|lia]. destruct (Z.leb_spec l e); [|lia].
      simpl. apply push_entry. exact Hlen.
  - pose proof (maximal_window _ _ _ _ _ _ Hsub Hl') as [Hw1 Hw2].
    destruct Hn as [Hord Hn].
    destruct (children_nested_lookup _ _ _ _ _ _ _ Hn Hc Hq)
      as (Hq0 & Hchild & lc & Hlc & Hin).
    destruct (maximal_within _ _ _ _ _ _ Hsub Hchild Hl')
      as (lc' & Hlc' & Hx0 & Hx1).
    assert (lc' = lc) by congruence. subst lc'.
    simpl.
    assert (Htest : (s <=? 0) && (l <=? e) = false).
    { apply andb_false_iff.
      destruct (Z.leb_spec s 0); [|left; reflexivity].
      destruct (Z.leb_spec l e); [|right; reflexivity]. exfalso. apply Hnot. lia. }
    rewrite Htest.
    destruct (Tree_partial_with_reaches s e offset cs ps k child q out Hord Hc Hq)
      as (out' & Hlen' & Hext); [lia | | exact Hlen |].
    { rewrite Hlc. simpl. apply Z.ltb_lt. lia. }
    pose proof (Child_partial_extends child (s - q) (e - q) (offset + q) out') as Hext'.
    pose proof (extends_entries _ _ (c', offset + (q + x)) Hlen' Hext') as [Hlen'' _].
    apply (extends_entries _ _ (c', offset + (q + x)) Hlen'' Hext).
    replace (offset + (q + x)) with (offset + q + x) by lia.
    apply IH; auto.
Qed.

Lemma Tree_partial_extends (t : Tree) (s e o : Z) (out : Out) :
  extends out (Tree_partial t s e o out).
Proof.
  destruct t as [cs ps|tag l cs ps]; unfold Tree_partial.
  - apply Tree_partial_with_extends.
    apply Forall_forall. intros c' _. apply Child_partial_extends.
  - apply Child_partial_extends.
Qed.

Lemma Tree_partial_complete (s e : Z) (t : Tree) (c' : Child) (x l' : Z) :
  maximal_in s e t c' x -> Tree_nested t -> Child_length c' = Some l' -> 0 < l' ->
  forall offset out,
    length out.1 = length out.2 ->
    (c', offset + x) ∈ entries (Tree_partial t s e offset out).
Proof.
  intros Hmax Hn Hl' Hpos offset out Hlen.
  destruct t as [cs ps|tag l cs ps]; unfold Tree_partial.
  - destruct Hmax as (k & child & q & x0 & Hc & Hq & Hsub & ->).
    destruct Hn as [Hord Hn].
    pose proof (maximal_window _ _ _ _ _ _ Hsub Hl') as [Hw1 Hw2].
    destruct (children_nested_lookup _ _ _ _ _ _ _ Hn Hc Hq)
      as (Hq0 & Hchild & lc & Hlc & Hin).
    destruct (maximal_within _ _ _ _ _ _ Hsub Hchild Hl')
      as (lc' & Hlc' & Hx0 & Hx1).
    assert (lc' = lc) by congruence. subst lc'.
    destruct (Tree_partial_with_reaches s e offset cs ps k child q out Hord Hc Hq)
      as (out' & Hlen' & Hext); [lia | | exact Hlen |].
    { rewrite Hlc. simpl. apply Z.ltb_lt. lia. }
    pose proof (Child_partial_extends child (s - q) (e - q) (offset + q) out') as Hext'.
    pose proof (extends_entries _ _ (c', offset + (q + x0)) Hlen' Hext') as [Hlen'' _].
    apply (extends_entries _ _ (c', offset + (q + x0)) Hlen'' Hext).
    replace (offset + (q + x0)) with (offset + q + x0) by lia.
    apply (Child_partial_complete _ _ _ _ _ l' Hsub); auto.
  - apply (Child_partial_complete _ _ _ _ _ l' Hmax); auto.
Qed.

Lemma unchanged_loop_extends (t : Tree) (changes : list ChangedRange) :
  forall pos off out, extends out (unchanged_loop t changes pos off out).
Proof.
  induction changes as [|next rest IH]; intros pos off out; simpl.
  - destruct (Tree_length t); [|apply extends_refl].
    destruct (pos <? z); [apply Tree_partial_extends | apply extends_refl].
  - eapply extends_trans; [|apply IH].
    destruct (pos <? fromA next); [apply Tree_partial_extends | apply extends_refl].
Qed.

Lemma unchanged_loop_complete (t : Tree) (c' : Child) (x l' : Z) (a b o : Z)
    (changes : list ChangedRange) :
  Tree_nested t -> Child_length c' = Some l' -> 0 < l' ->
  maximal_in a (b - 1) t c' x ->
  forall pos off out,
    (a, b, o) ∈ spans changes pos off (Tree_length t) ->
    length out.1 = length out.2 ->
    (c', o + x) ∈ entries (unchanged_loop t changes pos off out).
Proof.
  intros Hn Hl' Hpos Hmax.
  assert (Hab : a < b).
  { destruct t as [cs ps|tag l cs ps]; simpl in Hmax.
    - destruct Hmax as (k & child & q & x0 & _ & _ & Hsub & _).
      pose proof (maximal_window _ _ _ _ _ _ Hsub Hl'). lia.
    - pose proof (maximal_window _ _ _ _ _ _ Hmax Hl'). lia. }
  induction changes as [|next rest IH]; intros pos off out Hsp Hlen; simpl in *.
  - destruct (Tree_length t) as [n|]; [|inversion Hsp].
    apply list_elem_of_singleton in Hsp. injection Hsp as -> -> ->.
    destruct (Z.ltb_spec pos n); [|lia].
    apply (Tree_partial_complete _ _ _ _ _ l'); auto.
  - apply elem_of_cons in Hsp. destruct Hsp as [[= -> -> ->]|Hsp].
    + destruct (Z.ltb_spec pos (fromA next)); [|lia].
      pose proof (Tree_partial_extends t pos (fromA next - 1) off out) as Hext.
      pose proof (extends_entries _ _ (c', off + x) Hlen Hext) as [Hlen' _].
      apply (extends_entries _ _ (c', off + x) Hlen' (unchanged_loop_extends _ _ _ _ _)).
      apply (Tree_partial_complete _ _ _ _ _ l'); auto.
    + apply IH; [exact Hsp|].
      destruct (pos <? fromA next); [|exact Hlen].
      apply (extends_entries _ _ (c', 0) Hlen (Tree_partial_extends _ _ _ _ _)).
Qed.

(** [unchanged] keeps all it can of a tree as the parser builds it
    (children in the order of their positions, inside their parent).
    For a non-empty list of changes, every subtree of positive length
    whose range fits an unchanged span less its last position, while
    the range of no node above it does, is in the result, at its
    position moved by the offset of the span. *)
Theorem unchanged_keeps_all (t : Tree) (ch : ChangedRange)
    (rest : list ChangedRange) (a b o : Z) (c' : Child) (x l' : Z) :
  Tree_nested t ->
  (a, b, o) ∈ spans (ch :: rest) 0 0 (Tree_length t) ->
  maximal_in a (b - 1) t c' x ->
  Child_length c' = Some l' -> 0 < l' ->
  let result := unchanged t (ch :: rest) in
  (c', x + o) ∈ zip (children_of result) (positions_of result).
Proof.
  intros Hn Hsp Hmax Hl' Hpos. rewrite Z.add_comm.
  apply (unchanged_loop_complete t c' x l' a b o (ch :: rest) Hn Hl' Hpos Hmax
           0 0 ([], []) Hsp eq_refl).
Qed.


End ReuseAll.

Section ReuseRuns.
Import Trees.

(** An insertion of two code units at the start of the document. *)
Definition change_at_0 : ChangedRange :=
  {| fromA := 0; toA := 1; fromB := 0; toB := 3 |}.

Lemma nested_tree_nested : Tree_nested nested_tree.
Proof.
  simpl. repeat split; try lia; repeat constructor; try lia.
  - exists 2. split; [reflexivity|]. intros n [= <-]. lia.
  - exists 4. split; [reflexivity|]. intros n [=].
  - exists 2. split; [reflexivity|]. intros n [=].
Qed.

Lemma inner_node_maximal : maximal_in 1 5 nested_tree (Node 3 2 [] []) 1.
Proof.
  exists O, (Node 1 4 [Node 3 2 [] []] [1]), 0, 1.
  split; [reflexivity|]. split; [reflexivity|]. split; [|reflexivity].
  change 1 with (1 + 0) at 3.
  apply (maximal_below 1 4 [Node 3 2 [] []] [1] (1 - 0) (5 - 0) O
           (Node 3 2 [] []) 1 (Node 3 2 [] []) 0); [lia | reflexivity | reflexivity |].
  apply (maximal_self (Node 3 2 [] []) 2); [reflexivity | lia | lia].
Qed.

Example unchanged_nested :
  unchanged nested_tree [change_at_0] = PlainTree [Node 3 2 [] []] [3].
Proof. reflexivity. Qed.

Lemma unchanged_keeps_all_witness :
  let result := unchanged nested_tree [change_at_0] in
  (Node 3 2 [] [], 1 + 2) ∈ zip (children_of result) (positions_of result).
Proof.
  apply (unchanged_keeps_all nested_tree change_at_0 [] 1 6 2 (Node 3 2 [] []) 1 2
           nested_tree_nested).
  - simpl. right. left.
  - exact inner_node_maximal.
  - reflexivity.
  - lia.
Defined.

End ReuseRuns.

(** ** tree.ts: the children of a buffer context *)

Module Collect.
Import Trees.

(** [BufferContext.collect]: one context per quad met, stepping over
    the quads below it; every round takes one unit of fuel. *)
Fixpoint BufferContext_collect (fuel : nat) (buffer : list Z) (i to_ : Z)
    (result : list Context) (bufferStart : Z) (parent : option Context)
    : option (list Context) :=
  match fuel with
  | O => None
  | S fuel' =>
      if i <? to_ then
        let count := Js.index buffer (i + 3) in
        BufferContext_collect fuel' buffer (i + (4 + quads count)) to_
          (result ++ [BufferContext buffer bufferStart i parent])
          bufferStart parent
      else Some result
  end.

(** [BufferContext.collectChildren], on the context with these
    fields. *)
Definition BufferContext_collectChildren (fuel : nat) (buffer : list Z)
    (bufferStart index : Z) (parent : option Context) : option (list Context) :=
  BufferContext_collect fuel buffer (index + 4)
    (BufferContext_endIndex buffer index) [] bufferStart
    (Some (BufferContext buffer bufferStart index parent)).

(** [TreeBuffer.nodeCount] *)
Definition nodeCount (buffer : list Z) : Z := Z.shiftr (Js.len buffer) 2.

End Collect.

Section BufferNodes.
Import Trees Collect.

(** The nodes that a buffer holds, as a tree: a type, a start and an
    end, and the nodes below. *)
Inductive BNode := BN (b_type b_start b_end : Z) (kids : list BNode).

Definition b_type_of (n : BNode) : Z := match n with BN t _ _ _ => t end.
Definition b_start_of (n : BNode) : Z := match n with BN _ s _ _ => s end.
Definition b_end_of (n : BNode) : Z := match n with BN _ _ e _ => e end.
Definition kids_of (n : BNode) : list BNode := match n with BN _ _ _ ks => ks end.

Fixpoint size (n : BNode) : nat :=
  match n with
  | BN _ _ _ ks =>
      S ((fix sum (ks : list BNode) : nat :=
            match ks with
            | [] => O
            | k :: ks' => (size k + sum ks')%nat
            end) ks)
  end.

Fixpoint sizes (ks : list BNode) : nat :=
  match ks with
  | [] => O
  | k :: ks' => (size k + sizes ks')%nat
  end.

(** The quads of a node in prefix order: its own, with the number of
    nodes below it in the fourth cell, then those of its children. *)
Fixpoint encode (n : BNode) : list Z :=
  match n with
  | BN t s e ks =>
      [t; s; e; Z.of_nat (sizes ks)]
      ++ (fix enc (ks : list BNode) : list Z :=
            match ks with
            | [] => []
            | k :: ks' => encode k ++ enc ks'
            end) ks
  end.

Fixpoint encode_all (ks : list BNode) : list Z :=
  match ks with
  | [] => []
  | k :: ks' => encode k ++ encode_all ks'
  end.

(** [held buffer i n]: the quads of [n] lie in [buffer] from index [i]. *)
Definition held (buffer : list Z) (i : Z) (n : BNode) : Prop :=
  exists pre post, buffer = pre ++ encode n ++ post /\ i = Js.len pre.

(** Where the quads of each node of a row start, when the first starts
    at [i]. *)
Fixpoint indices (i : Z) (ks : list BNode) : list Z :=
  match ks with
  | [] => []
  | k :: ks' => i :: indices (i + 4 * Z.of_nat (size k)) ks'
  end.

Lemma BNode_ind_nested (P : BNode -> Prop) :
  (forall t s e ks, Forall P ks -> P (BN t s e ks)) -> forall n, P n.
Proof.
  intros H. fix IH 1. intros [t s e ks]. apply H.
  induction ks as [|k ks IHks]; constructor; [apply IH | exact IHks].
Qed.

Lemma encode_BN t s e ks :
  encode (BN t s e ks) = [t; s; e; Z.of_nat (sizes ks)] ++ encode_all ks.
Proof. reflexivity. Qed.

Lemma size_BN t s e ks : size (BN t s e ks) = S (sizes ks).
Proof. reflexivity. Qed.

Lemma len_encode (n : BNode) : Js.len (encode n) = 4 * Z.of_nat (size n).
Proof.
  induction n as [t s e ks IH] using BNode_ind_nested.
  rewrite encode_BN, size_BN. unfold Js.len in *. rewrite length_app. simpl length.
  assert (Hall : Z.of_nat (length (encode_all ks)) = 4 * Z.of_nat (sizes ks)).
  { induction IH as [|k ks Hk _ IHks]; simpl; [reflexivity|].
    rewrite length_app. lia. }
  lia.
Qed.

Lemma len_encode_all (ks : list BNode) :
  Js.len (encode_all ks) = 4 * Z.of_nat (sizes ks).
Proof.
  induction ks as [|k ks IH]; simpl; [reflexivity|].
  pose proof (len_encode k). unfold Js.len in *. rewrite length_app. lia.
Qed.

Lemma index_app_at {A} (pre l post : list A) (k : nat) (x : A) :
  l !! k = Some x -> Js.index (pre ++ l ++ post) (Js.len pre + Z.of_nat k) = Some x.
Proof.
  intros Hx. unfold Js.index, Js.len.
  destruct (Z.ltb_spec (Z.of_nat (length pre) + Z.of_nat k) 0); [lia|].
  replace (Z.to_nat (Z.of_nat (length pre) + Z.of_nat k)) with (length pre + k)%nat by lia.
  rewrite lookup_app_r by lia.
  replace (length pre + k - length pre)%nat with k by lia.
  apply lookup_app_l_Some. exact Hx.
Qed.

(** The cells of the quad of a node that a buffer holds. *)
Lemma held_cells (buffer : list Z) (i : Z) (n : BNode) :
  held buffer i n ->
  Js.index buffer i = Some (b_type_of n) /\
  Js.index buffer (i + 1) = Some (b_start_of n) /\
  Js.index buffer (i + 2) = Some (b_end_of n) /\
  Js.index buffer (i + 3) = Some (Z.of_nat (sizes (kids_of n))).
Proof.
  intros (pre & post & -> & ->). destruct n as [t s e ks]. rewrite encode_BN.
  pose proof (fun k x => index_app_at pre ([t; s; e; Z.of_nat (sizes ks)] ++ encode_all ks)
                           post k x) as H.
  rewrite <- (Z.add_0_r (Js.len pre)) at 1.
  repeat split; [apply (H 0%nat) | apply (H 1%nat) | apply (H 2%nat) | apply (H 3%nat)];
    reflexivity.
Qed.

Lemma indices_held (buffer : list Z) (ks : list BNode) : forall pre post,
  buffer = pre ++ encode_all ks ++ post ->
  Forall2 (held buffer) (indices (Js.len pre) ks) ks.
Proof.
  induction ks as [|k ks IH]; intros pre post Hbuf; simpl; constructor.
  - exists pre, (encode_all ks ++ post). split; [|reflexivity].
    rewrite Hbuf. simpl. rewrite <- app_assoc. reflexivity.
  - replace (Js.len pre + 4 * Z.of_nat (size k)) with (Js.len (pre ++ encode k)).
    + apply (IH (pre ++ encode k) post). rewrite Hbuf. simpl.
      rewrite <- !app_assoc. reflexivity.
    + pose proof (len_encode k). unfold Js.len in *. rewrite length_app. lia.
Qed.

Lemma collect_row (bufferStart : Z) (parent : option Context) (post : list Z)
    (ks : list BNode) : forall pre result fuel,
  (length ks < fuel)%nat ->
  let buffer := pre ++ encode_all ks ++ post in
  BufferContext_collect fuel buffer (Js.len pre)
    (Js.len pre + Js.len (encode_all ks)) result bufferStart parent
  = Some (result
          ++ map (fun j => BufferContext buffer bufferStart j parent)
               (indices (Js.len pre) ks)).
Proof.
  induction ks as [|k ks IH]; intros pre result fuel Hfuel buffer;
    (destruct fuel as [|fuel]; [simpl in Hfuel; lia|]).
  - simpl. destruct (Z.ltb_spec (Js.len pre) (Js.len pre + Js.len (@nil Z)));
      [unfold Js.len in *; simpl in *; lia|].
    rewrite app_nil_r. reflexivity.
  - assert (Hheld : held buffer (Js.len pre) k).
    { exists pre, (encode_all ks ++ post). split; [|reflexivity].
      unfold buffer. simpl. rewrite <- app_assoc. reflexivity. }
    destruct (held_cells _ _ _ Hheld) as (_ & _ & _ & Hcount).
    pose proof (len_encode k) as Hlen. pose proof (len_encode_all ks) as Hlens.
    assert (Hsize : size k = S (sizes (kids_of k))) by (destruct k; reflexivity).
    cbn [BufferContext_collect].
    assert (Hall : Js.len (encode_all (k :: ks)) = Js.len (encode k) + Js.len (encode_all ks))
      by (simpl; unfold Js.len; rewrite length_app; lia).
    destruct (Z.ltb_spec (Js.len pre) (Js.len pre + Js.len (encode_all (k :: ks))));
      [|lia].
    fold buffer. rewrite Hcount. unfold quads. rewrite Z.shiftl_mul_pow2 by lia.
    change (2 ^ 2) with 4.
    assert (Hpre : Js.len (pre ++ encode k) = Js.len pre + (4 + Z.of_nat (sizes (kids_of k)) * 4))
      by (unfold Js.len in *; rewrite length_app; lia).
    rewrite <- Hpre.
    replace (Js.len pre + Js.len (encode_all (k :: ks)))
      with (Js.len (pre ++ encode k) + Js.len (encode_all ks)) by lia.
    assert (Hbuf : buffer = (pre ++ encode k) ++ encode_all ks ++ post)
      by (unfold buffer; simpl; rewrite <- !app_assoc; reflexivity).
    rewrite Hbuf.
    rewrite (IH (pre ++ encode k) _ fuel ltac:(simpl in Hfuel; lia)).
    rewrite <- Hbuf. simpl indices. simpl map.
    replace (Js.len pre + 4 * Z.of_nat (size k)) with (Js.len (pre ++ encode k)) by lia.
    rewrite <- app_assoc. reflexivity.
Qed.


(** [BufferContext.collect] over a whole buffer, as [TreeContext.collect]
    calls it for a buffer among the children of a tree: when the buffer
    holds the quads of a row of nodes in prefix order, it ends and gives
    one context per node of the row, in order, each at the index where
    the quads of its node start; [nodeCount] is the number of all the
    nodes. *)
Theorem BufferContext_collect_roots (row : list BNode) (bufferStart : Z)
    (parent : option Context) (fuel : nat) :
  (length row < fuel)%nat ->
  let buffer := encode_all row in
  nodeCount buffer = Z.of_nat (sizes row) /\
  exists idxs,
    BufferContext_collect fuel buffer 0 (Js.len buffer) [] bufferStart parent
    = Some (map (fun j => BufferContext buffer bufferStart j parent) idxs) /\
    Forall2 (held buffer) idxs row.
Proof.
  intros Hfuel buffer. split.
  - unfold nodeCount, buffer. rewrite len_encode_all.
    rewrite Z.shiftr_div_pow2 by lia. change (2 ^ 2) with 4.
    rewrite Z.mul_comm. apply Z.div_mul. lia.
  - exists (indices 0 row). split.
    + pose proof (collect_row bufferStart parent [] row [] [] fuel Hfuel) as H.
      cbv zeta in H. simpl app in H. rewrite app_nil_r in H.
      change (Js.len (@nil Z)) with 0 in H. rewrite Z.add_0_l in H. exact H.
    + apply (indices_held buffer row [] []). unfold buffer. simpl.
      rewrite app_nil_r. reflexivity.
Qed.

(** The context of a node that a buffer holds reads the type, start
    and end of the node off its quad, and [collectChildren] ends and
    gives one context per child of the node, in order, each at the
    index where the quads of that child start, with this context for
    parent. *)
Theorem BufferContext_children (buffer : list Z) (bufferStart i : Z)
    (parent : option Context) (n : BNode) (fuel : nat) :
  held buffer i n ->
  (length (kids_of n) < fuel)%nat ->
  let ctx := BufferContext buffer bufferStart i parent in
  Context_type ctx = Some (b_type_of n) /\
  Context_start ctx = Some (b_start_of n) /\
  Context_end ctx = Some (b_end_of n) /\
  exists idxs,
    BufferContext_collectChildren fuel buffer bufferStart i parent
    = Some (map (fun j => BufferContext buffer bufferStart j (Some ctx)) idxs) /\
    Forall2 (held buffer) idxs (kids_of n).
Proof.
  intros Hheld Hfuel ctx.
  destruct (held_cells _ _ _ Hheld) as (Ht & Hs & He & Hcount).
  split; [exact Ht|]. split; [exact Hs|]. split; [exact He|].
  destruct Hheld as (pre & post & Hbuf & ->). destruct n as [t s e ks].
  simpl kids_of in *. rewrite encode_BN in Hbuf.
  set (pre' := pre ++ [t; s; e; Z.of_nat (sizes ks)]).
  assert (Hbuf' : buffer = pre' ++ encode_all ks ++ post)
    by (rewrite Hbuf; unfold pre'; rewrite <- !app_assoc; reflexivity).
  assert (Hpre' : Js.len pre' = Js.len pre + 4)
    by (unfold pre', Js.len; rewrite length_app; simpl; lia).
  exists (indices (Js.len pre') ks). split.
  - unfold BufferContext_collectChildren, BufferContext_endIndex.
    rewrite Hcount. unfold quads. rewrite Z.shiftl_mul_pow2 by lia.
    change (2 ^ 2) with 4.
    pose proof (collect_row bufferStart (Some ctx) post ks pre' [] fuel Hfuel) as H.
    cbv zeta in H. rewrite <- Hbuf' in H. rewrite len_encode_all in H.
    rewrite Hpre' in H at 1 2.
    replace (Js.len pre + 4 + Z.of_nat (sizes ks) * 4)
      with (Js.len pre + 4 + 4 * Z.of_nat (sizes ks)) by lia.
    exact H.
  - apply (indices_held buffer ks pre' post Hbuf').
Qed.


End BufferNodes.

Section BufferRuns.
Import Trees Collect.

(** A node over [0, 4) with two children, and a node over [4, 6). *)
Definition two_level_row : list BNode :=
  [BN 1 0 4 [BN 3 1 2 []; BN 5 2 3 []]; BN 7 4 6 []].

Example two_level_buffer :
  encode_all two_level_row = [1; 0; 4; 2; 3; 1; 2; 0; 5; 2; 3; 0; 7; 4; 6; 0].
Proof. reflexivity. Qed.

Lemma BufferContext_collect_roots_witness :
  let buffer := encode_all two_level_row in
  nodeCount buffer = 4 /\
  BufferContext_collect 3 buffer 0 (Js.len buffer) [] 10 None
  = Some [BufferContext buffer 10 0 None; BufferContext buffer 10 12 None].
Proof.
  split; [|reflexivity].
  apply (BufferContext_collect_roots two_level_row 10 None 3). simpl. lia.
Defined.

Lemma two_level_held :
  held (encode_all two_level_row) 0 (BN 1 0 4 [BN 3 1 2 []; BN 5 2 3 []]).
Proof. exists [], (encode (BN 7 4 6 [])). split; reflexivity. Qed.

Lemma BufferContext_children_witness :
  let buffer := encode_all two_level_row in
  let ctx := BufferContext buffer 10 0 None in
  Context_end ctx = Some 4 /\
  exists idxs,
    BufferContext_collectChildren 3 buffer 10 0 None
    = Some (map (fun j => BufferContext buffer 10 j (Some ctx)) idxs) /\
    Forall2 (held buffer) idxs [BN 3 1 2 []; BN 5 2 3 []].
Proof.
  destruct (BufferContext_children (encode_all two_level_row) 10 0 None
              (BN 1 0 4 [BN 3 1 2 []; BN 5 2 3 []]) 3 two_level_held)
    as (_ & _ & Hend & Hkids); [simpl; lia|].
  split; [exact Hend | exact Hkids].
Defined.

End BufferRuns.

(** ** tree.ts: [TreeBuffer.iterate] *)

Module Iterate.
Import Trees.

Section Callbacks.
(** The callbacks may keep a state of their own, [St]; [enter] says
    whether to go on below the node, [leave] may be left out.  The
    cells they are given may be [undefined]. *)
Context {St : Type}.
Variable enter : option Z -> option Z -> option Z -> St -> bool * St.
Variable leave : option (option Z -> option Z -> option Z -> St -> St).

Definition call_leave (tag start end_ : option Z) (st : St) : St :=
  match leave with
  | Some f => f tag start end_ st
  | None => st
  end.

(** The closure [scan] of [TreeBuffer.iterate] and the loops
    [while (pos < endPos) scan()] around it, with [pos] and the state
    of the callbacks passed along; every call and every round takes
    one unit of fuel. *)
Fixpoint TreeBuffer_scan (fuel : nat) (buf : list Z) (from_ to_ : Z)
    (pos : Z) (st : St) : option (Z * St) :=
  match fuel with
  | O => None
  | S fuel' =>
      let tag := Js.index buf pos in
      let start := Js.index buf (pos + 1) in
      let end_ := Js.index buf (pos + 2) in
      let count := Js.index buf (pos + 3) in
      let pos := pos + 4 in
      let endPos := pos + quads count in
      if Js.lt end_ (Some from_) then Some (pos + quads count, st)
      else if Js.ge (Some to_) start then
        let '(go, st1) := enter tag start end_ st in
        if go then
          match TreeBuffer_scan_while fuel' buf from_ to_ endPos pos st1 with
          | Some (pos', st2) => Some (pos', call_leave tag start end_ st2)
          | None => None
          end
        else Some (endPos, st1)
      else Some (Js.len buf, st)
  end
with TreeBuffer_scan_while (fuel : nat) (buf : list Z) (from_ to_ : Z)
    (endPos pos : Z) (st : St) : option (Z * St) :=
  match fuel with
  | O => None
  | S fuel' =>
      if pos <? endPos then
        match TreeBuffer_scan fuel' buf from_ to_ pos st with
        | Some (pos', st') =>
            TreeBuffer_scan_while fuel' buf from_ to_ endPos pos' st'
        | None => None
        end
      else Some (pos, st)
  end.

(** [TreeBuffer.iterate(from, to, offset, enter, leave)]; [offset],
    which [Tree.iterate] computes and which may be [NaN], is not used. *)
Definition TreeBuffer_iterate (fuel : nat) (buf : list Z) (from_ to_ : Z)
    (offset : option Z) (st : St) : option St :=
  match TreeBuffer_scan_while fuel buf from_ to_ (Js.len buf) 0 st with
  | Some (_, st') => Some st'
  | None => None
  end.

(** The loop of [Tree.iterate] over the children, given the
    [iterate] of a child: child [i] starts at [positions[i] + offset]. *)
Definition Tree_iterate_with
    (child_iterate : Child -> option Z -> St -> option St)
    (from_ to_ : Z) (offset : option Z)
    : list Child -> list Z -> St -> option St :=
  fix loop (cs : list Child) (ps : list Z) (st : St) : option St :=
    match cs with
    | [] => Some st
    | child :: cs' =>
        let start := Js.add (head ps) offset in
        let end_ := Js.add start (Child_length child) in
        if Js.gt start (Some to_) then Some st
        else if Js.lt end_ (Some from_) then loop cs' (tail ps) st
        else
          match child_iterate child start st with
          | Some st' => loop cs' (tail ps) st'
          | None => None
          end
    end.

(** [Node.iterate] and [TreeBuffer.iterate]; the fuel is for the
    scans of the buffers. *)
Fixpoint Child_iterate (fuel : nat) (from_ to_ : Z) (c : Child)
    (offset : option Z) (st : St) : option St :=
  match c with
  | Node tag l cs ps =>
      let '(go, st1) := enter (Some tag) offset (Js.add offset (Some l)) st in
      if go then
        match Tree_iterate_with (Child_iterate fuel from_ to_) from_ to_ offset
                cs ps st1 with
        | Some st2 =>
            Some (call_leave (Some tag) offset (Js.add offset (Some l)) st2)
        | None => None
        end
      else Some st1
  | TreeBuffer buf => TreeBuffer_iterate fuel buf from_ to_ offset st
  end.

(** [this.iterate(...)] on a tree object, by dynamic dispatch. *)
Definition Tree_iterate (fuel : nat) (t : Tree) (from_ to_ : Z)
    (offset : option Z) (st : St) : option St :=
  match t with
  | PlainTree cs ps =>
      Tree_iterate_with (Child_iterate fuel from_ to_) from_ to_ offset cs ps st
  | NodeTree tag l cs ps =>
      Child_iterate fuel from_ to_ (Node tag l cs ps) offset st
  end.

End Callbacks.
End Iterate.

Section IterateWalk.
Import Trees Iterate.
Context {St : Type}.
Variable enter : option Z -> option Z -> option Z -> St -> bool * St.
Variable leave : option (option Z -> option Z -> option Z -> St -> St).
Variable from_ to_ : Z.

(** The walk over the nodes that a buffer holds.  A node that ends
    before [from] is passed over with all below it; a node that starts
    at or before [to] is entered, and when [enter] agrees the nodes
    below are walked and the node is left; the first node that starts
    after [to] stops the walk ([true]), and no node after it is looked
    at, while the nodes entered around it are still left. *)
Fixpoint walk_node (n : BNode) (st : St) : bool * St :=
  match n with
  | BN t s e ks =>
      if e <? from_ then (false, st)
      else if s <=? to_ then
        let '(go, st1) := enter (Some t) (Some s) (Some e) st in
        if go then
          let '(stopped, st2) :=
            (fix row (ks : list BNode) (st : St) : bool * St :=
               match ks with
               | [] => (false, st)
               | k :: ks' =>
                   let '(stopped, st') := walk_node k st in
                   if stopped then (true, st') else row ks' st'
               end) ks st1 in
          (stopped, call_leave leave (Some t) (Some s) (Some e) st2)
        else (false, st1)
      else (true, st)
  end.

Fixpoint walk_row (ks : list BNode) (st : St) : bool * St :=
  match ks with
  | [] => (false, st)
  | k :: ks' =>
      let '(stopped, st') := walk_node k st in
      if stopped then (true, st') else walk_row ks' st'
  end.


Lemma walk_node_BN t s e ks st :
  walk_node (BN t s e ks) st =
  if e <? from_ then (false, st)
  else if s <=? to_ then
    let '(go, st1) := enter (Some t) (Some s) (Some e) st in
    if go then
      let '(stopped, st2) := walk_row ks st1 in
      (stopped, call_leave leave (Some t) (Some s) (Some e) st2)
    else (false, st1)
  else (true, st).
Proof. reflexivity. Qed.

Lemma TreeBuffer_scan_S fuel' buf pos st :
  TreeBuffer_scan enter leave (S fuel') buf from_ to_ pos st =
  let tag := Js.index buf pos in
  let start := Js.index buf (pos + 1) in
  let end_ := Js.index buf (pos + 2) in
  let count := Js.index buf (pos + 3) in
  if Js.lt end_ (Some from_) then Some (pos + 4 + quads count, st)
  else if Js.ge (Some to_) start then
    let '(go, st1) := enter tag start end_ st in
    if go then
      match TreeBuffer_scan_while enter leave fuel' buf from_ to_
              (pos + 4 + quads count) (pos + 4) st1 with
      | Some (pos', st2) => Some (pos', call_leave leave tag start end_ st2)
      | None => None
      end
    else Some (pos + 4 + quads count, st1)
  else Some (Js.len buf, st).
Proof. reflexivity. Qed.

Lemma TreeBuffer_scan_while_S fuel' buf endPos pos st :
  TreeBuffer_scan_while enter leave (S fuel') buf from_ to_ endPos pos st =
  if pos <? endPos then
    match TreeBuffer_scan enter leave fuel' buf from_ to_ pos st with
    | Some (pos', st') =>
        TreeBuffer_scan_while enter leave fuel' buf from_ to_ endPos pos' st'
    | None => None
    end
  else Some (pos, st).
Proof. reflexivity. Qed.

(** Where the scan stands after a node or a row that ends at [endPos]:
    there, or at the end of the buffer when the walk has stopped. *)
Definition stands (buf : list Z) (endPos : Z) (r : bool * St) : option (Z * St) :=
  Some (if r.1 then Js.len buf else endPos, r.2).

Lemma scan_walks (fuel : nat) :
  (forall n pre post st,
      (2 * size n <= fuel)%nat ->
      let buf := pre ++ encode n ++ post in
      TreeBuffer_scan enter leave fuel buf from_ to_ (Js.len pre) st
      = stands buf (Js.len pre + Js.len (encode n)) (walk_node n st)) /\
  (forall ks pre post st,
      (2 * sizes ks + 1 <= fuel)%nat ->
      let buf := pre ++ encode_all ks ++ post in
      TreeBuffer_scan_while enter leave fuel buf from_ to_
        (Js.len pre + Js.len (encode_all ks)) (Js.len pre) st
      = stands buf (Js.len pre + Js.len (encode_all ks)) (walk_row ks st)).
Proof.
  induction fuel as [|fuel [IHscan IHwhile]].
  { split.
    - intros n pre post st Hfuel. destruct n. rewrite size_BN in Hfuel. lia.
    - intros ks pre post st Hfuel. lia. }
  split.
  - intros [t s e ks] pre post st Hfuel buf.
    assert (Hheld : held buf (Js.len pre) (BN t s e ks))
      by (exists pre, post; split; reflexivity).
    destruct (held_cells _ _ _ Hheld) as (Ht & Hs & He & Hcount).
    simpl in Ht, Hs, He, Hcount.
    pose proof (len_encode (BN t s e ks)) as Hlen. rewrite size_BN in Hlen, Hfuel.
    pose proof (len_encode_all ks) as Hlens.
    rewrite TreeBuffer_scan_S. fold buf. rewrite Ht, Hs, He, Hcount. cbv zeta.
    unfold quads. rewrite Z.shiftl_mul_pow2 by lia. change (2 ^ 2) with 4.
    rewrite walk_node_BN. simpl Js.lt. simpl Js.ge.
    assert (Hend : Js.len pre + 4 + Z.of_nat (sizes ks) * 4
                   = Js.len pre + Js.len (encode (BN t s e ks))) by lia.
    destruct (e <? from_); [unfold stands; simpl; rewrite Hend; reflexivity|].
    destruct (s <=? to_); [|reflexivity].
    destruct (enter (Some t) (Some s) (Some e) st) as [go st1].
    destruct go; [|unfold stands; simpl; rewrite Hend; reflexivity].
    set (pre' := pre ++ [t; s; e; Z.of_nat (sizes ks)]).
    assert (Hbuf' : buf = pre' ++ encode_all ks ++ post)
      by (unfold buf, pre'; rewrite encode_BN, <- !app_assoc; reflexivity).
    assert (Hpre' : Js.len pre' = Js.len pre + 4)
      by (unfold pre', Js.len; rewrite length_app; simpl; lia).
    pose proof (IHwhile ks pre' post st1 ltac:(lia)) as Hrow.
    cbv zeta in Hrow. rewrite <- Hbuf', Hpre', Hlens in Hrow.
    replace (Js.len pre + 4 + Z.of_nat (sizes ks) * 4)
      with (Js.len pre + 4 + 4 * Z.of_nat (sizes ks)) by lia.
    rewrite Hrow. unfold stands.
    destruct (walk_row ks st1) as [stopped st2]. simpl.
    replace (Js.len pre + 4 + 4 * Z.of_nat (sizes ks))
      with (Js.len pre + Js.len (encode (BN t s e ks))) by lia.
    reflexivity.
  - intros ks pre post st Hfuel buf. destruct ks as [|k ks].
    + rewrite TreeBuffer_scan_while_S.
      destruct (Z.ltb_spec (Js.len pre) (Js.len pre + Js.len (encode_all [])));
        [unfold Js.len in *; simpl in *; lia|].
      unfold stands. cbn [walk_row encode_all fst snd].
      change (Js.len (@nil Z)) with 0. rewrite Z.add_0_r. reflexivity.
    + pose proof (len_encode k) as Hlen. pose proof (len_encode_all ks) as Hlens.
      assert (Hsize : (1 <= size k)%nat) by (destruct k; rewrite size_BN; lia).
      assert (Hall : Js.len (encode_all (k :: ks))
                     = Js.len (encode k) + Js.len (encode_all ks))
        by (simpl; unfold Js.len; rewrite length_app; lia).
      simpl sizes in Hfuel.
      rewrite TreeBuffer_scan_while_S.
      destruct (Z.ltb_spec (Js.len pre) (Js.len pre + Js.len (encode_all (k :: ks))));
        [|lia].
      assert (Hbuf : buf = pre ++ encode k ++ (encode_all ks ++ post))
        by (unfold buf; simpl; rewrite <- !app_assoc; reflexivity).
      pose proof (IHscan k pre (encode_all ks ++ post) st ltac:(lia)) as Hnode.
      cbv zeta in Hnode. rewrite <- Hbuf in Hnode. rewrite Hnode.
      unfold stands. cbn [walk_row].
      destruct (walk_node k st) as [stopped st']. simpl fst. simpl snd.
      destruct stopped.
      * (* the walk has stopped: the scan stands at the end of the buffer *)
        destruct fuel as [|fuel]; [lia|]. rewrite TreeBuffer_scan_while_S.
        assert (Hbuflen : Js.len pre + Js.len (encode_all (k :: ks)) <= Js.len buf).
        { unfold buf, Js.len. rewrite !length_app. lia. }
        destruct (Z.ltb_spec (Js.len buf) (Js.len pre + Js.len (encode_all (k :: ks))));
          [lia | reflexivity].
      * assert (Hbuf2 : buf = (pre ++ encode k) ++ encode_all ks ++ post)
          by (unfold buf; simpl; rewrite <- !app_assoc; reflexivity).
        assert (Hpre2 : Js.len (pre ++ encode k) = Js.len pre + Js.len (encode k))
          by (unfold Js.len; rewrite length_app; lia).
        pose proof (IHwhile ks (pre ++ encode k) post st' ltac:(lia)) as Hrow.
        cbv zeta in Hrow. rewrite <- Hbuf2, Hpre2 in Hrow.
        replace (Js.len pre + Js.len (encode_all (k :: ks)))
          with (Js.len pre + Js.len (encode k) + Js.len (encode_all ks)) by lia.
        rewrite Hrow. reflexivity.
Qed.

(** [TreeBuffer.iterate] on a buffer that holds a row of nodes in
    prefix order ends, and calls [enter] and [leave] as the walk over
    the nodes does, leaving the callbacks in the state that the walk
    leaves them in.  The positions compared with [from] and [to] and
    handed to the callbacks are the cells of the buffer, whatever
    [offset] is. *)
Theorem TreeBuffer_iterate_walks (row : list BNode) (offset : option Z)
    (st : St) (fuel : nat) :
  (2 * sizes row + 1 <= fuel)%nat ->
  TreeBuffer_iterate enter leave fuel (encode_all row) from_ to_ offset st
  = Some (walk_row row st).2.
Proof.
  intros Hfuel. unfold TreeBuffer_iterate.
  destruct (scan_walks fuel) as [_ Hwhile].
  pose proof (Hwhile row [] [] st Hfuel) as H. cbv zeta in H.
  simpl app in H. rewrite app_nil_r in H.
  change (Js.len (@nil Z)) with 0 in H. rewrite Z.add_0_l in H.
  rewrite H. reflexivity.
Qed.


End IterateWalk.

Section IterateRuns.
Import Trees Iterate.

(** Callbacks that write down the tag of every node entered and the
    end of every node left. *)
Definition enter_log (tag start end_ : option Z) (log : list (option Z))
    : bool * list (option Z) :=
  (true, log ++ [tag]).

Definition leave_log (tag start end_ : option Z) (log : list (option Z))
    : list (option Z) :=
  log ++ [end_].

Lemma TreeBuffer_iterate_walks_witness :
  TreeBuffer_iterate enter_log (Some leave_log) 9 (encode_all two_level_row)
    1 2 (Some 100) []
  = Some [Some 1; Some 3; Some 2; Some 5; Some 3; Some 4].
Proof.
  rewrite (TreeBuffer_iterate_walks enter_log (Some leave_log) 1 2 two_level_row
             (Some 100) [] 9); [reflexivity | vm_compute; lia].
Defined.

End IterateRuns.

(** ** tree.ts: [Tree.iterate] visits the nodes that overlap the range *)

Section IterateTree.
Import Trees Iterate.
Context {St : Type}.
Variable enter : option Z -> option Z -> option Z -> St -> bool * St.
Variable leave : option (option Z -> option Z -> option Z -> St -> St).
Variable from_ to_ : Z.

(** The range [start, end] of a node touches [from, to]. *)
Definition overlaps (start end_ : Z) : bool := (start <=? to_) && (from_ <=? end_).

(** The visit of the children of a tree that starts at [offset], given
    the visit of a child: every child is looked at, and visited when
    its range touches [from, to]. *)
Definition visit_with (child_visit : Child -> Z -> St -> St) (offset : Z)
    : list Child -> list Z -> St -> St :=
  fix loop (cs : list Child) (ps : list Z) (st : St) : St :=
    match cs, ps with
    | child :: cs', p :: ps' =>
        match Child_length child with
        | Some l =>
            if overlaps (p + offset) (p + offset + l)
            then loop cs' ps' (child_visit child (p + offset) st)
            else loop cs' ps' st
        | None => loop cs' ps' st
        end
    | _, _ => st
    end.

(** The visit of a node: [enter], then, when it agrees, the children
    that touch the range and [leave]. *)
Fixpoint Child_visit (c : Child) (offset : Z) (st : St) : St :=
  match c with
  | Node tag l cs ps =>
      let '(go, st1) := enter (Some tag) (Some offset) (Some (offset + l)) st in
      if go then
        call_leave leave (Some tag) (Some offset) (Some (offset + l))
          (visit_with Child_visit offset cs ps st1)
      else st1
  | TreeBuffer _ => st
  end.

Definition Tree_visit (t : Tree) (offset : Z) (st : St) : St :=
  match t with
  | PlainTree cs ps => visit_with Child_visit offset cs ps st
  | NodeTree tag l cs ps => Child_visit (Node tag l cs ps) offset st
  end.

(** A tree of nodes alone, with a position for every child and the
    positions in order at every level. *)
Fixpoint plain (c : Child) : Prop :=
  match c with
  | TreeBuffer _ => False
  | Node _ _ cs ps =>
      in_order ps /\ (length cs <= length ps)%nat /\
      (fix all (cs : list Child) : Prop :=
         match cs with
         | [] => True
         | c :: cs' => plain c /\ all cs'
         end) cs
  end.

Fixpoint all_plain (cs : list Child) : Prop :=
  match cs with
  | [] => True
  | c :: cs' => plain c /\ all_plain cs'
  end.

Definition Tree_plain (t : Tree) : Prop :=
  in_order (positions_of t) /\
  (length (children_of t) <= length (positions_of t))%nat /\
  all_plain (children_of t).

Lemma plain_Node tag l cs ps :
  plain (Node tag l cs ps)
  = (in_order ps /\ (length cs <= length ps)%nat /\ all_plain cs).
Proof. reflexivity. Qed.

(** Once a child starts after [to], so do all that follow, and the
    visit passes them by. *)
Lemma visit_with_past (child_visit : Child -> Z -> St -> St) (offset : Z)
    (cs : list Child) : forall ps st,
  Forall (fun q => to_ < q + offset) ps ->
  visit_with child_visit offset cs ps st = st.
Proof.
  induction cs as [|child cs IH]; intros ps st Hall; [reflexivity|].
  destruct ps as [|p ps]; [reflexivity|]. simpl.
  apply Forall_cons in Hall. destruct Hall as [Hp Hall].
  assert (Hno : forall l, overlaps (p + offset) (p + offset + l) = false).
  { intros l. unfold overlaps. destruct (Z.leb_spec (p + offset) to_); [lia|].
    reflexivity. }
  destruct (Child_length child); rewrite ?Hno; apply IH; exact Hall.
Qed.

Lemma Tree_iterate_with_visits (fuel : nat) (offset : Z) (cs : list Child) :
  Forall (fun c => plain c -> forall offset st,
            Child_iterate enter leave fuel from_ to_ c (Some offset) st
            = Some (Child_visit c offset st)) cs ->
  forall ps st,
    all_plain cs -> in_order ps -> (length cs <= length ps)%nat ->
    Tree_iterate_with (Child_iterate enter leave fuel from_ to_) from_ to_
      (Some offset) cs ps st
    = Some (visit_with Child_visit offset cs ps st).
Proof.
  induction 1 as [|child cs Hchild _ IH]; intros ps st Hplain Hord Hlen;
    [reflexivity|].
  destruct ps as [|p ps]; [simpl in Hlen; lia|].
  destruct Hplain as [Hc Hcs]. destruct Hord as [Hle Hord]. simpl in Hlen.
  destruct child as [tag l ccs cps|buffer]; [|destruct Hc].
  cbn [Tree_iterate_with visit_with head tail Child_length Js.add Js.gt Js.lt].
  unfold overlaps.
  destruct (Z.ltb_spec to_ (p + offset)) as [Hpast|Hin].
  - (* the loop breaks *)
    destruct (Z.leb_spec (p + offset) to_); [lia|]. cbn [andb]. f_equal. symmetry.
    apply visit_with_past. eapply Forall_impl; [exact Hle|].
    cbv beta. intros q Hq. lia.
  - destruct (Z.leb_spec (p + offset) to_); [|lia]. cbn [andb].
    destruct (Z.ltb_spec (p + offset + l) from_).
    + destruct (Z.leb_spec from_ (p + offset + l)); [lia|].
      apply IH; auto; lia.
    + destruct (Z.leb_spec from_ (p + offset + l)); [|lia].
      rewrite (Hchild Hc). apply IH; auto; lia.
Qed.

Lemma Child_iterate_visits (fuel : nat) (c : Child) :
  plain c -> forall offset st,
    Child_iterate enter leave fuel from_ to_ c (Some offset) st
    = Some (Child_visit c offset st).
Proof.
  induction c as [tag l cs ps IH|buffer] using Child_rect_nested;
    intros Hplain offset st; [|destruct Hplain].
  rewrite plain_Node in Hplain. destruct Hplain as (Hord & Hlen & Hcs).
  cbn [Child_iterate Child_visit Js.add].
  destruct (enter (Some tag) (Some offset) (Some (offset + l)) st) as [go st1].
  destruct go; [|reflexivity].
  rewrite (Tree_iterate_with_visits fuel offset cs IH ps st1 Hcs Hord Hlen).
  reflexivity.
Qed.

(** On a tree of nodes with the children in the order of their
    positions, [iterate] calls [enter] on exactly the nodes whose
    range touches [from, to] and whose ancestors were all entered with
    [enter] agreeing, in the order of the document, and [leave] on
    each after the nodes below it: leaving the loop at the first child
    that starts after [to] loses no node.  A node on which [iterate]
    is called is entered itself whatever its range. *)
Theorem Tree_iterate_visits (fuel : nat) (t : Tree) (offset : Z) (st : St) :
  Tree_plain t ->
  Tree_iterate enter leave fuel t from_ to_ (Some offset) st
  = Some (Tree_visit t offset st).
Proof.
  intros (Hord & Hlen & Hcs). destruct t as [cs ps|tag l cs ps]; simpl in *.
  - apply Tree_iterate_with_visits; auto.
    apply Forall_forall. intros c _. apply Child_iterate_visits.
  - apply (Child_iterate_visits fuel (Node tag l cs ps)).
    rewrite plain_Node. auto.
Qed.

End IterateTree.

Section IterateTreeRuns.
Import Trees Iterate.

(** Three nodes of two code units each, the second with a node below. *)
Definition three_nodes : Tree :=
  PlainTree [Node 1 2 [] []; Node 3 2 [Node 5 1 [] []] [0]; Node 7 2 [] []]
    [0; 2; 4].

Lemma three_nodes_plain : Tree_plain three_nodes.
Proof.
  unfold Tree_plain, three_nodes. simpl.
  repeat split; repeat constructor; simpl; lia.
Qed.

Lemma Tree_iterate_visits_witness :
  Tree_iterate enter_log (Some leave_log) 0 three_nodes 2 3 (Some 0) []
  = Some [Some 1; Some 2; Some 3; Some 5; Some 3; Some 4].
Proof.
  rewrite (Tree_iterate_visits enter_log (Some leave_log) 2 3 0 three_nodes 0 []
             three_nodes_plain).
  reflexivity.
Defined.

End IterateTreeRuns.
